(** * Object tree model: collapse-state preserving child replacement

    A shallow embedding of [vs/base/browser/ui/tree/objectTreeModel.ts]: the
    class [ObjectTreeModel] keeps two lookup tables (element to node and
    identity key to node) on top of an index addressed tree engine, and
    carries the collapse state of known elements over to the nodes that
    replace them. *)

From Stdlib Require Import ZArith Lia Sorted.
From stdpp Require Import base option list gmap strings.

Set Warnings "-register-all,-clear-no-such-hyp".
Local Open Scope Z_scope.
Local Open Scope nat_scope.

(** ** Elements, descriptions and nodes *)

(** Elements are opaque caller owned objects compared by reference: a
    reference is a number. *)
Definition T := nat.

(** [ITreeElement<T>]: the description of a child handed to [setChildren].
    The three optional fields are [undefined] when [None]. *)
Inductive ITreeElement := TreeElement {
  te_element : T;
  te_children : option (list ITreeElement);
  te_collapsible : option bool;
  te_collapsed : option bool
}.

(** [ITreeNode<T>]: a node object of the engine.  [nref] is the identity of
    the JavaScript object, so that two nodes with equal fields can still be
    told apart and a table can point at one of them. *)
Inductive Node := mkNode {
  nref : nat;
  element : T;
  collapsible : bool;
  collapsed : bool;
  children : list Node
}.

(** The node a caller can get hold of: the root sentinel, whose element is
    [null], or an element node. *)
Inductive ITreeNode :=
| RootNode (kids : list Node)
| ElementNode (n : Node).

Definition node_element (n : ITreeNode) : option T :=
  match n with
  | RootNode _ => None
  | ElementNode n => Some (element n)
  end.

Definition node_children (n : ITreeNode) : list Node :=
  match n with
  | RootNode kids => kids
  | ElementNode n => children n
  end.

(** [getSequenceIterator(elements)] or [Iterator.empty()] when the sequence
    is [undefined]. *)
Definition sequence {A} (s : option (list A)) : list A :=
  match s with
  | Some l => l
  | None => []
  end.

(** Every node of a forest, parents before their children. *)
Fixpoint subtree (n : Node) : list Node :=
  n :: flat_map subtree (children n).

Definition flatten (l : list Node) : list Node := flat_map subtree l.

(** Every description of a candidate forest, parents before their nested
    children. *)
Fixpoint te_subtree (te : ITreeElement) : list ITreeElement :=
  te :: match te_children te with
        | Some l => flat_map te_subtree l
        | None => []
        end.

Definition te_flatten (l : list ITreeElement) : list ITreeElement :=
  flat_map te_subtree l.

(** ** Errors *)

(** [TreeError]: the one error kind, tagged with the model's user name. *)
Inductive Message :=
| ElementNotFound (e : T)       (* Tree element not found: ${element} *)
| InvalidParentCall             (* Invalid getParentNodeLocation call *)
| InvalidLocation.              (* raised by the engine on a bad path *)

Inductive TreeError := mkTreeError (user : string) (message : Message).

Inductive Result (A : Type) :=
| Ok (a : A)
| Throw (err : TreeError).
Arguments Ok {A} a.
Arguments Throw {A} err.

Definition bind {A B} (r : Result A) (k : A -> Result B) : Result B :=
  match r with
  | Ok a => k a
  | Throw err => Throw err
  end.

Notation "'let*' x ':=' r 'in' k" := (bind r (fun x => k))
  (at level 10, x name, r at level 100, k at level 200).

(** ** Sorting *)

Section Sorting.
Context {A : Type} (compare : A -> A -> Z).

(** Merging two runs: the right head is taken only when it is strictly
    smaller than the left head. *)
Fixpoint merge (l : list A) : list A -> list A :=
  fix merge_right (r : list A) : list A :=
    match l, r with
    | [], _ => r
    | _, [] => l
    | a :: l', b :: r' =>
        if (compare b a <? 0)%Z then b :: merge_right r' else a :: merge l' r
    end.

Fixpoint mergeSortFuel (fuel : nat) (data : list A) : list A :=
  match fuel with
  | 0 => data
  | S fuel' =>
      match data with
      | [] | [_] => data
      | _ =>
          let mid := Nat.div2 (S (length data)) in
          merge (mergeSortFuel fuel' (take mid data))
                (mergeSortFuel fuel' (drop mid data))
      end
  end.

(** Modelled from the spec: [mergeSort] of [vs/base/common/arrays] is not
    part of the sources; the specification describes it as a stable sort
    in which ties preserve the input order.  It is written here as a top
    down merge sort. *)
Definition mergeSort (data : list A) : list A :=
  mergeSortFuel (length data) data.

(** [Array.prototype.sort] with a comparison function.  ECMAScript fixes
    its result for a consistent comparison only: the stable sort into
    non-decreasing order.  For any other comparison the order is left to
    the runtime, and all that is known of the result is that it is a
    permutation of the array.  The insertion sort below is the sort for
    consistent comparisons; what is stated of the order it yields is
    stated under [Consistent], and without it only what holds of every
    permutation. *)
Fixpoint sort_insert (x : A) (l : list A) : list A :=
  match l with
  | [] => [x]
  | y :: l' => if (compare y x <? 0)%Z then y :: sort_insert x l' else x :: l
  end.

Definition array_sort (l : list A) : list A := foldr sort_insert [] l.

End Sorting.

(** ** The index tree engine

    Modelled from the spec: [IndexTreeModel] of
    [vs/base/browser/ui/tree/indexTreeModel] is not part of the sources.
    The specification gives its contract: nodes are addressed by a path of
    child indices, the empty path is the root; [splice] replaces a run of
    children at a path by nodes it creates from a sequence of descriptions
    and reports every created and every deleted node to a callback;
    [getNode], [getNodeLocation], [getParentNodeLocation], [isCollapsible]
    and [isCollapsed] read the structure. *)

(** Modelled from the spec: [Iterator] of [vs/base/common/iterator] is not
    part of the sources; the specification says that [Iterator.map] is lazy.
    So the fields of a description handed to [splice] are computed when the
    engine pulls it, from the state [W] of the caller at that moment.  The
    nested sequence has the same shape whenever it is pulled. *)
Inductive LazyElement (W : Type) := Lazy {
  le_element : T;
  le_state : W -> option bool * option bool;
  le_children : list (LazyElement W)
}.
Arguments Lazy {W}.
Arguments le_element {W}.
Arguments le_state {W}.
Arguments le_children {W}.

(** Modelled from the spec: the order in which one splice of the engine
    reports nodes is not in the sources.  The staging sets of [_setChildren]
    serve an engine that reports creations before deletions; the
    specification's resource model lists deletions before creations.  The
    engine model has both. *)
Inductive CallbackOrder := CreateThenDelete | DeleteThenCreate.

(** [Number.MAX_VALUE] is larger than the length of any array. *)
Inductive Count := Finite (n : nat) | MAX_VALUE.

Definition clamp (c : Count) (available : nat) : nat :=
  match c with
  | Finite n => Nat.min n available
  | MAX_VALUE => available
  end.

(** The callback that reports nothing. *)
Definition silent {W} : Node -> W -> W := fun _ w => w.

Module IndexTreeModel.

(** Modelled from the spec: the state of the engine, as far as the
    contract speaks of it. *)
Record t := mk {
  user : string;
  root : list Node;             (* the children of the root sentinel *)
  next_ref : nat;               (* the next node object to allocate *)
  order : CallbackOrder;
  rootCollapsible : bool;
  rootCollapsed : bool;
  collapsibleByDefault : bool;
  collapseByDefault : bool
}.

Definition throw {A} (m : t) : Result A :=
  Throw (mkTreeError (user m) InvalidLocation).

(** The node reached from a node by a path of child indices. *)
Fixpoint descend (path : list nat) (n : Node) : option Node :=
  match path with
  | [] => Some n
  | i :: rest => children n !! i ≫= descend rest
  end.

(** The node at a location: the root sentinel at the empty one. *)
Definition nodeAt (location : list nat) (kids : list Node) : option ITreeNode :=
  match location with
  | [] => Some (RootNode kids)
  | i :: rest => ElementNode <$> (kids !! i ≫= descend rest)
  end.

(** Modelled from the spec: [getNode(location)] returns the node at a
    path and throws when there is none. *)
Definition getNode (m : t) (location : list nat) : Result ITreeNode :=
  match nodeAt location (root m) with
  | Some n => Ok n
  | None => throw m
  end.

(** The path of the node object [ref] below a node, and below a list of
    siblings of which the first has index [i]. *)
Fixpoint locate (ref : nat) (n : Node) : option (list nat) :=
  if nref n =? ref then Some []
  else
    (fix among (i : nat) (l : list Node) : option (list nat) :=
       match l with
       | [] => None
       | c :: l' =>
           match locate ref c with
           | Some p => Some (i :: p)
           | None => among (S i) l'
           end
       end) 0 (children n).

Fixpoint locateAmong (ref : nat) (i : nat) (l : list Node) : option (list nat) :=
  match l with
  | [] => None
  | c :: l' =>
      match locate ref c with
      | Some p => Some (i :: p)
      | None => locateAmong ref (S i) l'
      end
  end.

(** Modelled from the spec: [getNodeLocation(node)] returns the path of
    a node object of the tree and throws for any other. *)
Definition getNodeLocation (m : t) (ref : nat) : Result (list nat) :=
  match locateAmong ref 0 (root m) with
  | Some p => Ok p
  | None => throw m
  end.

(** Modelled from the spec: [getParentNodeLocation(location)] drops the
    last index; the root has no parent. *)
Definition getParentNodeLocation (m : t) (location : list nat) : Result (list nat) :=
  match location with
  | [] => throw m
  | _ => Ok (removelast location)
  end.

(** Modelled from the spec: [isCollapsible(location)] and
    [isCollapsed(location)] read the two flags of the node at a path. *)
Definition isCollapsible (m : t) (location : list nat) : Result bool :=
  match nodeAt location (root m) with
  | Some (ElementNode n) => Ok (collapsible n)
  | Some (RootNode _) => Ok (rootCollapsible m)
  | None => throw m
  end.

Definition isCollapsed (m : t) (location : list nat) : Result bool :=
  match nodeAt location (root m) with
  | Some (ElementNode n) => Ok (collapsed n)
  | Some (RootNode _) => Ok (rootCollapsed m)
  | None => throw m
  end.

(** Nodes in the order in which their creation is reported: a node after
    its children. *)
Fixpoint postorder (n : Node) : list Node :=
  flat_map postorder (children n) ++ [n].

(** [Array.prototype.splice]. *)
Definition array_splice {A} (l : list A) (start : nat) (deleteCount : Count)
    (toInsert : list A) : list A * list A :=
  let deleted := clamp deleteCount (length l - start) in
  (take start l ++ toInsert ++ drop (start + deleted) l,
   take deleted (drop start l)).

Definition withChildren (n : Node) (kids : list Node) : Node :=
  mkNode (nref n) (element n) (collapsible n) (collapsed n) kids.

(** The siblings after the splice at child index [i] of the node reached
    by the indices before it, and the nodes cut out. *)
Fixpoint spliceBelow (i : nat) (rest : list nat) (deleteCount : Count)
    (toInsert : list Node) (kids : list Node) : option (list Node * list Node) :=
  match rest with
  | [] =>
      if i <=? length kids then Some (array_splice kids i deleteCount toInsert)
      else None
  | j :: rest' =>
      n ← kids !! i;
      r ← spliceBelow j rest' deleteCount toInsert (children n);
      Some (<[i := withChildren n r.1]> kids, r.2)
  end.

Definition spliceAt (location : list nat) (deleteCount : Count)
    (toInsert : list Node) (kids : list Node) : option (list Node * list Node) :=
  match location with
  | [] => None
  | i :: rest => spliceBelow i rest deleteCount toInsert kids
  end.

Section Splice.
Context {W : Type}.

Definition newNode (m : t) (ref : nat) (el : T)
    (state : option bool * option bool) (kids : list Node) : Node :=
  mkNode ref el
         (default (collapsibleByDefault m) state.1)
         (default (collapseByDefault m) state.2)
         kids.

(** Creating the node of one description: the description is pulled,
    the node object allocated, the nested sequence consumed, and the
    finished node reported. *)
Fixpoint createTreeNode (m : t) (onDidCreateNode : Node -> W -> W)
    (le : LazyElement W) (s : nat * W) : Node * (nat * W) :=
  let state := le_state le s.2 in
  let ref := s.1 in
  let r :=
    (fix createChildren (l : list (LazyElement W)) (s : nat * W)
         : list Node * (nat * W) :=
       match l with
       | [] => ([], s)
       | c :: l' =>
           let r1 := createTreeNode m onDidCreateNode c s in
           let r2 := createChildren l' r1.2 in
           (r1.1 :: r2.1, r2.2)
       end) (le_children le) (S ref, s.2) in
  let node := newNode m ref (le_element le) state r.1 in
  (node, (r.2.1, onDidCreateNode node r.2.2)).

Fixpoint createTreeNodes (m : t) (onDidCreateNode : Node -> W -> W)
    (l : list (LazyElement W)) (s : nat * W) : list Node * (nat * W) :=
  match l with
  | [] => ([], s)
  | c :: l' =>
      let r1 := createTreeNode m onDidCreateNode c s in
      let r2 := createTreeNodes m onDidCreateNode l' r1.2 in
      (r1.1 :: r2.1, r2.2)
  end.

Definition report (callback : Node -> W -> W) (l : list Node) (w : W) : W :=
  foldl (fun w n => callback n w) w l.

Definition spliced (m : t) (kids : list Node) (next : nat) : t :=
  mk (user m) kids next (order m) (rootCollapsible m) (rootCollapsed m)
     (collapsibleByDefault m) (collapseByDefault m).

(** Modelled from the spec: [splice(location, deleteCount, toInsert,
    onDidCreateNode, onDidDeleteNode)].  With [CreateThenDelete] every node is reported
    as soon as it is finished, and the deleted nodes afterwards, each
    before its children.  With [DeleteThenCreate] the engine first
    consumes the whole sequence and then reports the deleted and the
    created nodes. *)
Definition splice (m : t) (location : list nat) (deleteCount : Count)
    (toInsert : list (LazyElement W))
    (onDidCreateNode onDidDeleteNode : Node -> W -> W) (w : W)
    : Result (t * W) :=
  match order m with
  | CreateThenDelete =>
      let c := createTreeNodes m onDidCreateNode toInsert (next_ref m, w) in
      match spliceAt location deleteCount c.1 (root m) with
      | Some (kids, deleted) =>
          Ok (spliced m kids c.2.1,
              report onDidDeleteNode (flatten deleted) c.2.2)
      | None => throw m
      end
  | DeleteThenCreate =>
      let c := createTreeNodes m silent toInsert (next_ref m, w) in
      match spliceAt location deleteCount c.1 (root m) with
      | Some (kids, deleted) =>
          Ok (spliced m kids c.2.1,
              report onDidCreateNode (flat_map postorder c.1)
                (report onDidDeleteNode (flatten deleted) w))
      | None => throw m
      end
  end.
End Splice.

End IndexTreeModel.

(** ** The object tree model *)

(** [ObjectTreeModel<T, TFilterData>].  The two tables hold node objects:
    a table entry is the identity [nref] of the node it points at.  The
    keys of [nodes] are of type [T | null]. *)
Record ObjectTreeModel := mkObjectTreeModel {
  user : string;
  model : IndexTreeModel.t;
  nodes : gmap (option T) nat;
  nodesByIdentity : gmap string nat;
  identityProvider : option (T -> string);
  sorter : option (T -> T -> Z)
}.

(** [new ObjectTreeModel(user, list, options)]: an empty engine and empty
    tables.  The engine's settings stand for the part of [options] that the
    constructor passes on to it. *)
Definition create (user : string) (order : CallbackOrder)
    (collapsibleByDefault collapseByDefault : bool)
    (sorter : option (T -> T -> Z)) (identityProvider : option (T -> string))
    : ObjectTreeModel :=
  mkObjectTreeModel user
    (IndexTreeModel.mk user [] 0 order true false collapsibleByDefault
       collapseByDefault)
    ∅ ∅ identityProvider sorter.

(** What a call returns: its value or the error it throws, and the model as
    the call leaves it. *)
Definition Outcome (A : Type) : Type := Result A * ObjectTreeModel.

Definition TreeNotFound {A} (m : ObjectTreeModel) (e : T) : Result A :=
  Throw (mkTreeError (user m) (ElementNotFound e)).

(** The node object a table entry points at, among the node objects [heap]
    that exist. *)
Definition deref (heap : list Node) (ref : nat) : option Node :=
  find (fun n => nref n =? ref) heap.

(** [size]. *)
Definition size (m : ObjectTreeModel) : nat := size (nodes m).

(** [has(element)]. *)
Definition has (m : ObjectTreeModel) (e : option T) : bool :=
  bool_decide (is_Some (nodes m !! e)).

(** [getElementLocation(element)]. *)
Definition getElementLocation (m : ObjectTreeModel) (e : option T)
    : Result (list nat) :=
  match e with
  | None => Ok []
  | Some el =>
      match nodes m !! Some el with
      | None => TreeNotFound m el
      | Some node => IndexTreeModel.getNodeLocation (model m) node
      end
  end.

(** [getNode(element)].  A table entry is followed to the node object it
    points at among those of the tree. *)
Definition getNode (m : ObjectTreeModel) (e : option T) : Result ITreeNode :=
  match e with
  | None => IndexTreeModel.getNode (model m) []
  | Some el =>
      match nodes m !! Some el ≫= deref (flatten (IndexTreeModel.root (model m))) with
      | None => TreeNotFound m el
      | Some node => Ok (ElementNode node)
      end
  end.

(** [getNodeLocation(node)]. *)
Definition getNodeLocation (node : ITreeNode) : option T := node_element node.

(** [getParentNodeLocation(element)]. *)
Definition getParentNodeLocation (m : ObjectTreeModel) (e : option T)
    : Result (option T) :=
  match e with
  | None => Throw (mkTreeError (user m) InvalidParentCall)
  | Some el =>
      match nodes m !! Some el with
      | None => TreeNotFound m el
      | Some node =>
          let* location := IndexTreeModel.getNodeLocation (model m) node in
          let* parentLocation :=
            IndexTreeModel.getParentNodeLocation (model m) location in
          let* parent := IndexTreeModel.getNode (model m) parentLocation in
          Ok (node_element parent)
      end
  end.

(** [isCollapsible(element)] and [isCollapsed(element)]. *)
Definition isCollapsible (m : ObjectTreeModel) (e : option T) : Result bool :=
  let* location := getElementLocation m e in
  IndexTreeModel.isCollapsible (model m) location.

Definition isCollapsed (m : ObjectTreeModel) (e : option T) : Result bool :=
  let* location := getElementLocation m e in
  IndexTreeModel.isCollapsed (model m) location.

(** *** Replacing children *)

(** [ITreeNodeCallback]: a callback of the caller acts on the caller's own
    state [U]. *)
Definition ITreeNodeCallback (U : Type) : Type := Node -> U -> U.

(** The state one [_setChildren] call works on: the two tables of the model,
    the two staging sets of the call, the node objects that exist (those of
    the tree before the call and those created since, so that a table entry
    always points at one of them), and the state of the caller. *)
Record SpliceState (U : Type) := mkSpliceState {
  s_nodes : gmap (option T) nat;
  s_nodesByIdentity : gmap string nat;
  insertedElements : gset (option T);
  insertedElementIds : gset string;
  s_heap : list Node;
  s_caller : U
}.
Arguments mkSpliceState {U}.
Arguments s_nodes {U}.
Arguments s_nodesByIdentity {U}.
Arguments insertedElements {U}.
Arguments insertedElementIds {U}.
Arguments s_heap {U}.
Arguments s_caller {U}.

Definition call {U} (callback : option (ITreeNodeCallback U)) (node : Node)
    (u : U) : U :=
  match callback with
  | Some f => f node u
  | None => u
  end.

Section SetChildren.
Context {U : Type}.
Context (identityProvider : option (T -> string)).
Context (sorter : option (T -> T -> Z)).

(** [_onDidCreateNode] of [_setChildren]. *)
Definition _onDidCreateNode (onDidCreateNode : option (ITreeNodeCallback U))
    (node : Node) (s : SpliceState U) : SpliceState U :=
  let insertedElements := {[ Some (element node) ]} ∪ insertedElements s in
  let nodes := <[ Some (element node) := nref node ]> (s_nodes s) in
  let heap := node :: s_heap s in
  match identityProvider with
  | Some getId =>
      let id := getId (element node) in
      mkSpliceState nodes (<[ id := nref node ]> (s_nodesByIdentity s))
        insertedElements ({[ id ]} ∪ insertedElementIds s) heap
        (call onDidCreateNode node (s_caller s))
  | None =>
      mkSpliceState nodes (s_nodesByIdentity s) insertedElements
        (insertedElementIds s) heap (call onDidCreateNode node (s_caller s))
  end.

(** [_onDidDeleteNode] of [_setChildren]. *)
Definition _onDidDeleteNode (onDidDeleteNode : option (ITreeNodeCallback U))
    (node : Node) (s : SpliceState U) : SpliceState U :=
  let nodes :=
    if decide (Some (element node) ∈ insertedElements s) then s_nodes s
    else delete (Some (element node)) (s_nodes s) in
  let nodesByIdentity :=
    match identityProvider with
    | Some getId =>
        let id := getId (element node) in
        if decide (id ∈ insertedElementIds s) then s_nodesByIdentity s
        else delete id (s_nodesByIdentity s)
    | None => s_nodesByIdentity s
    end in
  mkSpliceState nodes nodesByIdentity (insertedElements s)
    (insertedElementIds s) (s_heap s)
    (call onDidDeleteNode node (s_caller s)).

(** The node [preserveCollapseState] finds for an element: by reference
    in [nodes], else by identity key in [nodesByIdentity]. *)
Definition existingNode (s : SpliceState U) (e : T) : option Node :=
  match s_nodes s !! Some e with
  | Some node => deref (s_heap s) node
  | None =>
      match identityProvider with
      | Some getId => s_nodesByIdentity s !! getId e ≫= deref (s_heap s)
      | None => None
      end
  end.

(** The [collapsible] and [collapsed] fields of the description that the
    mapping function of [preserveCollapseState] returns for [treeElement]
    when it runs in state [s]. *)
Definition preservedState (treeElement : ITreeElement) (s : SpliceState U)
    : option bool * option bool :=
  match existingNode s (te_element treeElement) with
  | None => (te_collapsible treeElement, te_collapsed treeElement)
  | Some node =>
      (Some (default (collapsible node) (te_collapsible treeElement)),
       Some (default (collapsed node) (te_collapsed treeElement)))
  end.

(** [this.sorter.compare] on descriptions: the elements are compared. *)
Definition compareElements {W} (compare : T -> T -> Z)
    (a b : LazyElement W) : Z :=
  compare (le_element a) (le_element b).

Definition sortWith {W} (sort : (LazyElement W -> LazyElement W -> Z) ->
    list (LazyElement W) -> list (LazyElement W))
    (l : list (LazyElement W)) : list (LazyElement W) :=
  match sorter with
  | Some compare => sort (compareElements compare) l
  | None => l
  end.

(** [preserveCollapseState(elements)].  The source sorts the descriptions
    and maps the sorted array; here each description is mapped and the
    images are sorted, which is the same sequence since the comparison
    reads the element only (lemma [preserveCollapseState_sorted_first]). *)
Fixpoint preserveElement (treeElement : ITreeElement)
    : LazyElement (SpliceState U) :=
  Lazy (te_element treeElement) (preservedState treeElement)
    (sortWith mergeSort
       match te_children treeElement with
       | Some l => map preserveElement l
       | None => []
       end).

Definition preserveCollapseState (elements : option (list ITreeElement))
    : list (LazyElement (SpliceState U)) :=
  sortWith mergeSort (map preserveElement (sequence elements)).

End SetChildren.

Section Operations.
Context {U : Type}.

(** The state a [_setChildren] call starts in: the staging sets are
    empty, the node objects are those of the tree. *)
Definition spliceState (m : ObjectTreeModel) (u : U) : SpliceState U :=
  mkSpliceState (nodes m) (nodesByIdentity m) ∅ ∅
    (flatten (IndexTreeModel.root (model m))) u.

(** [_setChildren(location, children, onDidCreateNode, onDidDeleteNode)]. *)
Definition _setChildren (m : ObjectTreeModel) (location : list nat)
    (children : list (LazyElement (SpliceState U)))
    (onDidCreateNode onDidDeleteNode : option (ITreeNodeCallback U)) (u : U)
    : Result U * ObjectTreeModel :=
  match IndexTreeModel.splice (model m) (location ++ [0]) MAX_VALUE children
          (_onDidCreateNode (identityProvider m) onDidCreateNode)
          (_onDidDeleteNode (identityProvider m) onDidDeleteNode)
          (spliceState m u) with
  | Ok (engine, s') =>
      (Ok (s_caller s'),
       mkObjectTreeModel (user m) engine (s_nodes s') (s_nodesByIdentity s')
         (identityProvider m) (sorter m))
  | Throw err => (Throw err, m)
  end.

(** [setChildren(element, children, onDidCreateNode, onDidDeleteNode)]. *)
Definition setChildren (m : ObjectTreeModel) (e : option T)
    (children : option (list ITreeElement))
    (onDidCreateNode onDidDeleteNode : option (ITreeNodeCallback U)) (u : U)
    : Result U * ObjectTreeModel :=
  match getElementLocation m e with
  | Throw err => (Throw err, m)
  | Ok location =>
      _setChildren m location
        (preserveCollapseState (identityProvider m) (sorter m) children)
        onDidCreateNode onDidDeleteNode u
  end.

(** The description [resortChildren] makes of a node; its nested sequence
    is [resortChildren(node, recursive, false)]. *)
Fixpoint resortNode (sorter : option (T -> T -> Z)) (recursive : bool)
    (node : Node) : LazyElement (SpliceState U) :=
  Lazy (element node)
    (fun _ => (Some (collapsible node), Some (collapsed node)))
    ((if recursive then sortWith sorter array_sort else id)
       (map (resortNode sorter recursive) (children node))).

(** [resortChildren(node, recursive, first)].  As in
    [preserveCollapseState], the nodes are mapped and the images sorted.
    [resort] calls it only when there is a sorter. *)
Definition resortChildren (sorter : option (T -> T -> Z)) (node : ITreeNode)
    (recursive first : bool) : list (LazyElement (SpliceState U)) :=
  (if recursive || first then sortWith sorter array_sort else id)
    (map (resortNode sorter recursive) (node_children node)).

End Operations.

(** [resort(element, recursive)]. *)
Definition resort (m : ObjectTreeModel) (e : option T) (recursive : bool)
    : Outcome unit :=
  match sorter m with
  | None => (Ok tt, m)
  | Some _ =>
      match getElementLocation m e with
      | Throw err => (Throw err, m)
      | Ok location =>
          match IndexTreeModel.getNode (model m) location with
          | Throw err => (Throw err, m)
          | Ok node =>
              _setChildren m location
                (resortChildren (sorter m) node recursive true) None None tt
          end
      end
  end.

(** The operations of the engine that the model only forwards a path to.

    Modelled from the spec: their bodies are not part of the sources and
    the specification gives their signatures only, so they are taken as an
    interface; each returns its value and the engine as it leaves it. *)
Class EngineOperations := {
  engine_rerender : IndexTreeModel.t -> list nat -> Result (unit * IndexTreeModel.t);
  engine_setCollapsible :
    IndexTreeModel.t -> list nat -> option bool -> Result (bool * IndexTreeModel.t);
  engine_setCollapsed :
    IndexTreeModel.t -> list nat -> option bool -> option bool ->
    Result (bool * IndexTreeModel.t);
  engine_expandTo : IndexTreeModel.t -> list nat -> Result (unit * IndexTreeModel.t);
  engine_getListIndex : IndexTreeModel.t -> list nat -> Result Z;
  engine_getListRenderCount : IndexTreeModel.t -> list nat -> Result Z;
  engine_getFirstElementChild :
    IndexTreeModel.t -> list nat -> Result (option (option T));
  engine_getLastElementAncestor :
    IndexTreeModel.t -> list nat -> Result (option (option T))
}.

Section Forwarding.
Context `{EngineOperations}.

Definition withModel (m : ObjectTreeModel) (engine : IndexTreeModel.t)
    : ObjectTreeModel :=
  mkObjectTreeModel (user m) engine (nodes m) (nodesByIdentity m)
    (identityProvider m) (sorter m).

(** A call on the engine that may change it. *)
Definition forward {A} (m : ObjectTreeModel) (e : option T)
    (op : IndexTreeModel.t -> list nat -> Result (A * IndexTreeModel.t))
    : Outcome A :=
  match getElementLocation m e with
  | Throw err => (Throw err, m)
  | Ok location =>
      match op (model m) location with
      | Ok (a, engine) => (Ok a, withModel m engine)
      | Throw err => (Throw err, m)
      end
  end.

(** A call on the engine that reads it. *)
Definition query {A} (m : ObjectTreeModel) (e : option T)
    (op : IndexTreeModel.t -> list nat -> Result A) : Result A :=
  let* location := getElementLocation m e in
  op (model m) location.

Definition rerender (m : ObjectTreeModel) (e : option T) : Outcome unit :=
  forward m e engine_rerender.

Definition setCollapsible (m : ObjectTreeModel) (e : option T)
    (collapsible : option bool) : Outcome bool :=
  forward m e (fun engine location =>
    engine_setCollapsible engine location collapsible).

Definition setCollapsed (m : ObjectTreeModel) (e : option T)
    (collapsed recursive : option bool) : Outcome bool :=
  forward m e (fun engine location =>
    engine_setCollapsed engine location collapsed recursive).

Definition expandTo (m : ObjectTreeModel) (e : option T) : Outcome unit :=
  forward m e engine_expandTo.

Definition getListIndex (m : ObjectTreeModel) (e : option T) : Result Z :=
  query m e engine_getListIndex.

Definition getListRenderCount (m : ObjectTreeModel) (e : option T) : Result Z :=
  query m e engine_getListRenderCount.

Definition getFirstElementChild (m : ObjectTreeModel) (e : option T)
    : Result (option (option T)) :=
  query m e engine_getFirstElementChild.

Definition getLastElementAncestor (m : ObjectTreeModel) (e : option T)
    : Result (option (option T)) :=
  query m e engine_getLastElementAncestor.

End Forwarding.



(** ** Auxiliary notions for the properties *)

(** What a node keeps when its children change. *)
Definition shallow (n : Node) : nat * T := (nref n, element n).

(** The node with other children. *)
Definition withKids (n : ITreeNode) (kids : list Node) : ITreeNode :=
  match n with
  | RootNode _ => RootNode kids
  | ElementNode n => ElementNode (IndexTreeModel.withChildren n kids)
  end.

(** Every description of a lazy sequence, parents before their nested
    descriptions. *)
Fixpoint le_subtree {W} (le : LazyElement W) : list (LazyElement W) :=
  le :: flat_map le_subtree (le_children le).

Definition le_flatten {W} (l : list (LazyElement W)) : list (LazyElement W) :=
  flat_map le_subtree l.

(** A comparison a sorter may return: of opposite signs when its arguments
    are swapped, and transitive. *)
Record Consistent {A} (compare : A -> A -> Z) : Prop := {
  compare_swap : forall a b, Z.sgn (compare a b) = (- Z.sgn (compare b a))%Z;
  compare_trans : forall a b c,
    (compare a b <= 0)%Z -> (compare b c <= 0)%Z -> (compare a c <= 0)%Z
}.

Definition nonDecreasing {A} (compare : A -> A -> Z) (l : list A) : Prop :=
  StronglySorted (fun a b => (compare a b <= 0)%Z) l.

(** The elements of [l] that compare equal to [x], in their order in [l]. *)
Definition ties {A} (compare : A -> A -> Z) (x : A) (l : list A) : list A :=
  List.filter (fun y => (compare x y =? 0)%Z) l.

(** The node the engine makes of a description pulled in state [w]. *)
Definition madeOf {W} (m : IndexTreeModel.t) (w : W) (le : LazyElement W)
    (n : Node) : Prop :=
  element n = le_element le /\
  collapsible n = default (IndexTreeModel.collapsibleByDefault m) (le_state le w).1 /\
  collapsed n = default (IndexTreeModel.collapseByDefault m) (le_state le w).2.

Section LazyNotions.
Context {W K : Type} (f : Node -> W -> W) (key : T -> K) (w0 : W) (next0 : nat).

(** The keys of the descriptions of a sequence. *)
Definition keysOf (l : list (LazyElement W)) : list K :=
  map (fun le => key (le_element le)) (le_flatten l).

(** The description reads the same after the reports of new nodes with
    other keys. *)
Definition steady (le : LazyElement W) : Prop :=
  forall ns,
    Forall (fun n => next0 <= nref n /\ key (element n) <> key (le_element le)) ns ->
    le_state le (IndexTreeModel.report f ns w0) = le_state le w0.

(** Nodes already reported, none under a key of the sequence. *)
Definition unseen (ns : list Node) (l : list (LazyElement W)) : Prop :=
  Forall (fun n => next0 <= nref n /\ key (element n) ∉ keysOf l) ns.
End LazyNotions.

(** *** The tables after a splice *)

Section Tables.
Context {K : Type} `{Countable K} (key : Node -> K).

Definition inserting (t : gmap K nat) (l : list Node) : gmap K nat :=
  foldl (fun t n => <[key n := nref n]> t) t l.

Definition deleting (t : gmap K nat) (l : list Node) : gmap K nat :=
  foldl (fun t n => delete (key n) t) t l.

(** Deleting the keys that are not staged. *)
Definition evicting (staged : gset K) (t : gmap K nat) (l : list Node) : gmap K nat :=
  foldl (fun t n => if decide (key n ∈ staged) then t else delete (key n) t) t l.

(** A table after the nodes [deleted] have gone and the nodes [created]
    have come, the later of two nodes with one key winning. *)
Definition updateTable (created deleted : list Node) (t : gmap K nat) : gmap K nat :=
  inserting (deleting t deleted) created.
End Tables.

Definition elementKey (n : Node) : option T := Some (element n).

Definition identityKey (getId : T -> string) (n : Node) : string :=
  getId (element n).

(** The nodes a [_setChildren] call creates. *)
Definition createdNodes {U} (m : ObjectTreeModel)
    (children : list (LazyElement (SpliceState U)))
    (onDidCreateNode : option (ITreeNodeCallback U)) (u : U) : list Node :=
  match IndexTreeModel.order (model m) with
  | CreateThenDelete =>
      (IndexTreeModel.createTreeNodes (model m)
         (_onDidCreateNode (identityProvider m) onDidCreateNode) children
         (IndexTreeModel.next_ref (model m), spliceState m u)).1
  | DeleteThenCreate =>
      (IndexTreeModel.createTreeNodes (model m) silent children
         (IndexTreeModel.next_ref (model m), spliceState m u)).1
  end.

(** The state of the caller after its callbacks have run. *)
Definition calls {U} (callback : option (ITreeNodeCallback U)) (l : list Node)
    (u : U) : U :=
  foldl (fun u n => call callback n u) u l.

Definition callerAfter {U} (order : CallbackOrder)
    (onDidCreateNode onDidDeleteNode : option (ITreeNodeCallback U))
    (created deleted : list Node) (u : U) : U :=
  match order with
  | CreateThenDelete => calls onDidDeleteNode deleted (calls onDidCreateNode created u)
  | DeleteThenCreate => calls onDidCreateNode created (calls onDidDeleteNode deleted u)
  end.

(** The identity table after a splice. *)
Definition updateIdentities (identityProvider : option (T -> string))
    (created deleted : list Node) (t : gmap string nat) : gmap string nat :=
  match identityProvider with
  | Some getId => updateTable (identityKey getId) created deleted t
  | None => t
  end.

(** *** Well-formed models *)

(** The node objects of the tree. *)
Definition liveNodes (m : ObjectTreeModel) : list Node :=
  flatten (IndexTreeModel.root (model m)).

(** The node objects of the tree are distinct and have been allocated. *)
Definition engine_wf (e : IndexTreeModel.t) : Prop :=
  NoDup (map nref (flatten (IndexTreeModel.root e))) /\
  Forall (fun n => nref n < IndexTreeModel.next_ref e)
         (flatten (IndexTreeModel.root e)).

(** Every entry of a table points at a node of the tree under the key of
    that node. *)
Definition pointsAt {K} `{Countable K} (key : Node -> K) (live : list Node)
    (t : gmap K nat) : Prop :=
  forall k r, t !! k = Some r -> exists n, n ∈ live /\ nref n = r /\ key n = k.

(** Every node of the tree has its entry in a table. *)
Definition covers {K} `{Countable K} (key : Node -> K) (live : list Node)
    (t : gmap K nat) : Prop :=
  forall n, n ∈ live -> t !! key n = Some (nref n).

Definition wellFormed (m : ObjectTreeModel) : Prop :=
  engine_wf (model m) /\
  pointsAt elementKey (liveNodes m) (nodes m) /\
  match identityProvider m with
  | Some getId => pointsAt (identityKey getId) (liveNodes m) (nodesByIdentity m)
  | None => True
  end.

(** The invariant of the two tables: they are the nodes of the tree,
    looked up by element and by identity key. *)
Definition indexed (m : ObjectTreeModel) : Prop :=
  wellFormed m /\
  covers elementKey (liveNodes m) (nodes m) /\
  match identityProvider m with
  | Some getId => covers (identityKey getId) (liveNodes m) (nodesByIdentity m)
  | None => True
  end.

(** [this.sorter.compare] on descriptions and on nodes. *)
Definition compareDescriptions (compare : T -> T -> Z) (a b : ITreeElement) : Z :=
  compare (te_element a) (te_element b).

Definition compareNodes (compare : T -> T -> Z) (a b : Node) : Z :=
  compare (element a) (element b).

(** The descriptions in the order in which [preserveCollapseState] maps
    them. *)
Definition sortedDescriptions (sorter : option (T -> T -> Z))
    (l : list ITreeElement) : list ITreeElement :=
  match sorter with
  | Some compare => mergeSort (compareDescriptions compare) l
  | None => l
  end.

(** A node without the identities of the node objects: its element, its
    collapse state and its children in their order, all the way down. *)
Fixpoint unref (n : Node) : Node :=
  mkNode 0 (element n) (collapsible n) (collapsed n) (map unref (children n)).

(** *** One description for one key *)

(** The key under which [preserveCollapseState] can find the node made of
    a description: its identity key when an identity provider is
    configured (two elements with one identity key are one logical item),
    the element itself otherwise. *)
Definition candidateKey (identityProvider : option (T -> string)) (e : T)
    : string + T :=
  match identityProvider with
  | Some getId => inl (getId e)
  | None => inr e
  end.

(** No two descriptions of the call, at any depth, stand for one item. *)
Definition distinctKeys (identityProvider : option (T -> string))
    (l : list ITreeElement) : Prop :=
  NoDup (map (fun te => candidateKey identityProvider (te_element te))
             (te_flatten l)).

(** The node [old] of the model is the one that the description [te]
    stands for: it holds the same element, or the element of [te] is not
    in the element table and [old] has its identity key. *)
Definition matches (m : ObjectTreeModel) (old : Node) (te : ITreeElement) : Prop :=
  element old = te_element te \/
  (nodes m !! Some (te_element te) = None /\
   exists getId, identityProvider m = Some getId /\
     getId (element old) = getId (te_element te)).

(** The nodes below the node of [parent]: the nodes that [setChildren] and
    [resort] on [parent] delete. *)
Definition below (m : ObjectTreeModel) (parent : option T) : list Node :=
  match getElementLocation m parent with
  | Ok location =>
      match IndexTreeModel.nodeAt location (IndexTreeModel.root (model m)) with
      | Some node => flatten (node_children node)
      | None => []
      end
  | Throw _ => []
  end.

(** No description of the call stands for an item that has a node which
    the call leaves in the tree. *)
Definition keysFree (m : ObjectTreeModel) (parent : option T)
    (l : list ITreeElement) : Prop :=
  forall n te, n ∈ liveNodes m -> n ∉ below m parent -> te ∈ te_flatten l ->
    candidateKey (identityProvider m) (element n) <>
    candidateKey (identityProvider m) (te_element te).

(** The key of a node in a table: the table's key of its element. *)
Definition keyOn {K} (key : T -> K) (n : Node) : K := key (element n).

(** *** Resorting through [setChildren] *)

Section ResortBySetChildren.
Context (sorter : option (T -> T -> Z)).

Definition sortDescriptions (l : list ITreeElement) : list ITreeElement :=
  match sorter with
  | Some compare => array_sort (compareDescriptions compare) l
  | None => l
  end.

(** The description of a node on the walk of [resort]: its element, no
    override, and the descriptions of its children, sorted when the
    walk is recursive. *)
Fixpoint describeNode (recursive : bool) (n : Node) : ITreeElement :=
  TreeElement (element n)
    (Some ((if recursive then sortDescriptions else id)
             (map (describeNode recursive) (children n))))
    None None.

Definition describeChildren (node : ITreeNode) (recursive first : bool)
    : list ITreeElement :=
  (if recursive || first then sortDescriptions else id)
    (map (describeNode recursive) (node_children node)).
End ResortBySetChildren.

(** [resort] as the specification describes its implementation: the walk
    over the current node tree sorts the first level, and every level when
    it is recursive, and what it yields is fed through [setChildren], where
    every node is found again by its element and so keeps its collapse
    state. *)
Definition resortBySetChildren (m : ObjectTreeModel) (e : option T)
    (recursive : bool) : Outcome unit :=
  match sorter m with
  | None => (Ok tt, m)
  | Some _ =>
      match getElementLocation m e with
      | Throw err => (Throw err, m)
      | Ok location =>
          match IndexTreeModel.getNode (model m) location with
          | Throw err => (Throw err, m)
          | Ok node =>
              setChildren m e
                (Some (describeChildren (sorter m) node recursive true))
                None None tt
          end
      end
  end.

(** A description with its state as it reads in [w]. *)
Fixpoint evaluated {W} (w : W) (le : LazyElement W) : LazyElement W :=
  Lazy (le_element le) (fun _ => le_state le w)
    (map (evaluated w) (le_children le)).

(** A description that reads the same in every state. *)
Definition constantState {W} (le : LazyElement W) : Prop :=
  forall w w', le_state le w = le_state le w'.

(** Sorting one level of nodes, or leaving it. *)
Definition level (compare : T -> T -> Z) (b : bool) (kids : list Node)
    : list Node :=
  if b then array_sort (compareNodes compare) kids else kids.

(** What a node of the walk needs: [preserveCollapseState] finds the node
    itself for its element, and its children are in order unless the walk
    sorts them. *)
Definition walkable {U} (idp : option (T -> string)) (compare : T -> T -> Z)
    (recursive : bool) (w0 : SpliceState U) (n : Node) : Prop :=
  existingNode idp w0 (element n) = Some n /\
  (recursive = true \/ nonDecreasing (compareNodes compare) (children n)).

(** The elements of the children of the node of an element, in their
    order. *)
Definition siblingOrder (m : ObjectTreeModel) (e : option T) : Result (list T) :=
  let* node := getNode m e in
  Ok (map element (node_children node)).


(** ** Example models *)

(** An engine whose forwarded operations do nothing. *)
#[local] Instance idleEngine : EngineOperations := {|
  engine_rerender e _ := Ok (tt, e);
  engine_setCollapsible e _ _ := Ok (false, e);
  engine_setCollapsed e _ _ _ := Ok (false, e);
  engine_expandTo e _ := Ok (tt, e);
  engine_getListIndex _ _ := Ok 0%Z;
  engine_getListRenderCount _ _ := Ok 0%Z;
  engine_getFirstElementChild _ _ := Ok None;
  engine_getLastElementAncestor _ _ := Ok None
|}.

Definition emptyModel : ObjectTreeModel :=
  create "tree" CreateThenDelete false false None None.


(** A description without nested descriptions and without overrides. *)
Definition leaf (e : T) : ITreeElement := TreeElement e None None None.

(** Identity keys for the examples: the last decimal digit of the
    reference, so that [3] and [13] stand for one logical item. *)
Definition lastDigit (e : T) : string :=
  String (Ascii.ascii_of_nat (48 + e mod 10)) EmptyString.

Definition identityModel : ObjectTreeModel :=
  create "tree" CreateThenDelete false false None (Some lastDigit).

(** The root has the children [1], [2] and [3], the last one collapsed. *)
Definition abc : ObjectTreeModel :=
  (setChildren identityModel None
     (Some [leaf 1; leaf 2; TreeElement 3 None None (Some true)])
     None None tt).2.

(** The children of the root replaced by [13], [2] and [1]: [13] is a new
    object with the identity key of [3]. *)
Definition refreshed : ObjectTreeModel :=
  (setChildren abc None (Some [leaf 13; leaf 2; leaf 1]) None None tt).2.

(** A sorter for the examples: by the tens of the reference, so that [21]
    and [25] compare equal. *)
Definition byTens (a b : T) : Z := (Z.of_nat (a / 10) - Z.of_nat (b / 10))%Z.

Definition tensModel : ObjectTreeModel :=
  create "tree" CreateThenDelete false false (Some byTens) None.

Definition tens : ObjectTreeModel :=
  (setChildren tensModel None (Some [leaf 21; leaf 12; leaf 25; leaf 11])
     None None tt).2.

(** A second sorter: by the last digit of the reference. *)
Definition byUnits (a b : T) : Z := (Z.of_nat (a mod 10) - Z.of_nat (b mod 10))%Z.

(** Elements are mutable objects: what a sorter answers for two of them
    can change while they are in the tree.  The model whose sorter now
    answers as [compare] does. *)
Definition withSorter (m : ObjectTreeModel) (compare : T -> T -> Z)
    : ObjectTreeModel :=
  mkObjectTreeModel (user m) (model m) (nodes m) (nodesByIdentity m)
    (identityProvider m) (Some compare).

(** The root has the children [12] and [30], and [30] the children [15]
    and [21], in the order of the tens. *)
Definition family : ObjectTreeModel :=
  (setChildren tensModel None
     (Some [TreeElement 30 (Some [leaf 21; leaf 15]) None None; leaf 12])
     None None tt).2.

(** The same tree after the elements have changed so that the sorter
    compares their last digits: no level is in order any more. *)
Definition stale : ObjectTreeModel := withSorter family byUnits.

(** Two parents with one child each; the children [3] and [13] have one
    identity key, which is unique among the siblings of either. *)
Definition cousins : ObjectTreeModel :=
  (setChildren identityModel None
     (Some [TreeElement 1 (Some [leaf 3]) None None;
            TreeElement 2 (Some [leaf 13]) None None])
     None None tt).2.

(** The children of [2] removed. *)
Definition orphaned : ObjectTreeModel :=
  (setChildren cousins (Some 2) None None None tt).2.

(** The children of the root of [abc] given again, [1] with the override
    [collapsed = true]. *)
Definition overridden : ObjectTreeModel :=
  (setChildren abc None
     (Some [TreeElement 1 None None (Some true); leaf 2; leaf 3]) None None tt).2.


(** ** Further notions *)

(** The element and the collapse state of a node. *)
Definition flagsOf (n : Node) : T * bool * bool :=
  (element n, collapsible n, collapsed n).

(** What a node keeps when its children change, its collapse state
    included. *)
Definition nodeState (n : Node) : nat * (T * bool * bool) :=
  (nref n, flagsOf n).

(** A description as it reads in state [w]: its element and its two
    optional flags. *)
Definition readIn {W} (w : W) (le : LazyElement W)
    : T * (option bool * option bool) :=
  (le_element le, le_state le w).

(** The description that gives the element of a node and both of its
    flags. *)
Definition asDescribed (n : Node) : T * (option bool * option bool) :=
  (element n, (Some (collapsible n), Some (collapsed n))).

(** The elements of a tree without anything else: an element and the
    outlines of its children in their order. *)
Inductive Outline := outline (e : T) (kids : list Outline).

Fixpoint te_outline (te : ITreeElement) : Outline :=
  outline (te_element te)
    match te_children te with
    | Some l => map te_outline l
    | None => []
    end.

Fixpoint le_outline {W} (le : LazyElement W) : Outline :=
  outline (le_element le) (map le_outline (le_children le)).

Fixpoint node_outline (n : Node) : Outline :=
  outline (element n) (map node_outline (children n)).

(** What a forwarded call makes of the answer of the engine: the value and
    the model around the engine as the call leaves it, or the error and the
    model as it was. *)
Definition answered {A} (m : ObjectTreeModel)
    (r : Result (A * IndexTreeModel.t)) : Outcome A :=
  match r with
  | Ok (a, engine) => (Ok a, withModel m engine)
  | Throw err => (Throw err, m)
  end.

(** The children of [30] in the stale tree replaced by the one child
    [40]. *)
Definition regrown : ObjectTreeModel :=
  (setChildren stale (Some 30) (Some [leaf 40]) None None tt).2.

(** A tree like [stale] in which [30] is collapsed. *)
Definition folded : ObjectTreeModel :=
  withSorter
    (setChildren tensModel None
       (Some [TreeElement 30 (Some [leaf 21; leaf 15]) (Some true) (Some true);
              leaf 12])
       None None tt).2
    byUnits.

(** [location] is a proper beginning of the path [p]. *)
Definition leadsBelow (location p : list nat) : Prop :=
  exists i rest, p = location ++ i :: rest.

(** Two parents with one child each, as in [cousins]: [3] is collapsed
    and [13], which has the identity key of [3], is expanded.  Every
    description gives both flags, so that no default matters. *)
Definition twinsOf (empty : ObjectTreeModel) : ObjectTreeModel :=
  (setChildren empty None
     (Some [TreeElement 1 (Some [TreeElement 3 None (Some true) (Some true)])
              (Some true) (Some false);
            TreeElement 2 (Some [TreeElement 13 None (Some true) (Some false)])
              (Some true) (Some false)])
     None None tt).2.

Definition twins : ObjectTreeModel := twinsOf identityModel.

(** The same tree over an engine that reports deletions first. *)
Definition twinsLate : ObjectTreeModel :=
  twinsOf (create "tree" DeleteThenCreate false false None (Some lastDigit)).

(** The child of [1] given again as the new object [23], which has the
    identity key of [3]. *)
Definition regiven (m : ObjectTreeModel) : ObjectTreeModel :=
  (setChildren m (Some 1) (Some [leaf 23]) None None tt).2.

(** * Properties *)

(** ** Sorting *)

Section SortingFacts.
Context {A : Type} (compare : A -> A -> Z).

Lemma merge_nil_l (r : list A) : merge compare [] r = r.
Proof. destruct r; reflexivity. Qed.

Lemma merge_nil_r (l : list A) : merge compare l [] = l.
Proof. destruct l; reflexivity. Qed.

Lemma merge_cons (a b : A) (l r : list A) :
  merge compare (a :: l) (b :: r) =
    if (compare b a <? 0)%Z then b :: merge compare (a :: l) r
    else a :: merge compare l (b :: r).
Proof. reflexivity. Qed.

Lemma merge_perm (l r : list A) : merge compare l r ≡ₚ l ++ r.
Proof.
  revert r; induction l as [|a l IHl]; intros r.
  { rewrite merge_nil_l. reflexivity. }
  induction r as [|b r IHr].
  - rewrite merge_nil_r, app_nil_r. reflexivity.
  - rewrite merge_cons. destruct (compare b a <? 0)%Z.
    + rewrite IHr. apply (Permutation_middle (a :: l) r b).
    + rewrite IHl. reflexivity.
Qed.

Lemma mergeSortFuel_perm (fuel : nat) (l : list A) :
  mergeSortFuel compare fuel l ≡ₚ l.
Proof.
  revert l; induction fuel as [|fuel IH]; intros l; [reflexivity|].
  destruct l as [|a [|b l]]; [reflexivity..|].
  cbn [mergeSortFuel]. rewrite merge_perm, !IH, take_drop. reflexivity.
Qed.

Lemma mergeSort_perm (l : list A) : mergeSort compare l ≡ₚ l.
Proof. apply mergeSortFuel_perm. Qed.

Lemma sort_insert_perm (x : A) (l : list A) :
  sort_insert compare x l ≡ₚ x :: l.
Proof.
  induction l as [|y l IH]; [reflexivity|]. cbn.
  destruct (compare y x <? 0)%Z; [|reflexivity].
  rewrite IH. apply perm_swap.
Qed.

Lemma array_sort_perm (l : list A) : array_sort compare l ≡ₚ l.
Proof.
  induction l as [|x l IH]; [reflexivity|]. cbn.
  rewrite sort_insert_perm, IH. reflexivity.
Qed.

End SortingFacts.

(** Sorting commutes with a map that keeps the comparison. *)
Section SortingMap.
Context {A B : Type} (compare : A -> A -> Z) (compare' : B -> B -> Z) (f : A -> B).
Hypothesis keeps : forall a b, compare' (f a) (f b) = compare a b.

Lemma merge_map (l r : list A) :
  merge compare' (map f l) (map f r) = map f (merge compare l r).
Proof.
  revert r; induction l as [|a l IHl]; intros r.
  { destruct r; reflexivity. }
  induction r as [|b r IHr]; [reflexivity|].
  cbn [map]. rewrite !merge_cons, keeps.
  destruct (compare b a <? 0)%Z; cbn [map].
  - f_equal. apply IHr.
  - f_equal. apply (IHl (b :: r)).
Qed.

Lemma mergeSortFuel_map (fuel : nat) (l : list A) :
  mergeSortFuel compare' fuel (map f l) = map f (mergeSortFuel compare fuel l).
Proof.
  revert l; induction fuel as [|fuel IH]; intros l; [reflexivity|].
  destruct l as [|a [|b l]]; [reflexivity..|].
  cbn [mergeSortFuel map length].
  change (f a :: f b :: map f l) with (map f (a :: b :: l)).
  rewrite firstn_map, skipn_map, !IH, merge_map, length_map.
  reflexivity.
Qed.

Lemma mergeSort_map (l : list A) :
  mergeSort compare' (map f l) = map f (mergeSort compare l).
Proof. unfold mergeSort. rewrite length_map. apply mergeSortFuel_map. Qed.

Lemma sort_insert_map (x : A) (l : list A) :
  sort_insert compare' (f x) (map f l) = map f (sort_insert compare x l).
Proof.
  induction l as [|y l IH]; [reflexivity|]. cbn. rewrite keeps.
  destruct (compare y x <? 0)%Z; cbn; [f_equal; apply IH|reflexivity].
Qed.

Lemma array_sort_map (l : list A) :
  array_sort compare' (map f l) = map f (array_sort compare l).
Proof.
  unfold array_sort. induction l as [|x l IH]; [reflexivity|].
  cbn [map foldr]. rewrite IH. apply sort_insert_map.
Qed.
End SortingMap.

(** Sorting with a consistent comparison. *)
Section SortedFacts.
Context {A : Type} (compare : A -> A -> Z).
Hypothesis consistent : Consistent compare.

Lemma compare_refl (a : A) : compare a a = 0%Z.
Proof. pose proof (compare_swap _ consistent a a). lia. Qed.

Lemma compare_not_lt (a b : A) :
  (compare b a <? 0)%Z = false -> (compare a b <= 0)%Z.
Proof. intros H. pose proof (compare_swap _ consistent a b). lia. Qed.

Lemma compare_lt_le (a b : A) :
  (compare b a <? 0)%Z = true -> (compare b a <= 0)%Z.
Proof. lia. Qed.

Lemma compare_tie_le (a b : A) : compare a b = 0%Z -> (compare b a <= 0)%Z.
Proof. intros H. pose proof (compare_swap _ consistent a b). lia. Qed.

Lemma compare_lt_not_ge (a b : A) :
  (compare b a <? 0)%Z = true -> ~ (compare a b <= 0)%Z.
Proof. intros H. pose proof (compare_swap _ consistent a b). lia. Qed.

Lemma nonDecreasing_cons (a : A) (l : list A) :
  nonDecreasing compare (a :: l) <->
  nonDecreasing compare l /\ Forall (fun b => (compare a b <= 0)%Z) l.
Proof.
  split.
  - intros H. apply StronglySorted_inv in H. exact H.
  - intros [H1 H2]. constructor; assumption.
Qed.

Lemma merge_sorted (l r : list A) :
  nonDecreasing compare l -> nonDecreasing compare r ->
  nonDecreasing compare (merge compare l r).
Proof.
  revert r; induction l as [|a l IHl]; intros r Hl Hr.
  { rewrite merge_nil_l. exact Hr. }
  induction r as [|b r IHr]; [rewrite merge_nil_r; exact Hl|].
  apply nonDecreasing_cons in Hl as Hl'. destruct Hl' as [Hl1 Hl2].
  apply nonDecreasing_cons in Hr as Hr'. destruct Hr' as [Hr1 Hr2].
  rewrite merge_cons. destruct (compare b a <? 0)%Z eqn:E.
  - apply nonDecreasing_cons. split; [apply IHr; assumption|].
    rewrite merge_perm. apply Forall_app. split; [|exact Hr2].
    apply compare_lt_le in E. constructor; [exact E|].
    eapply Forall_impl; [exact Hl2|]. cbn. intros c Hc.
    eapply compare_trans; eauto.
  - apply nonDecreasing_cons. split; [apply IHl; assumption|].
    rewrite merge_perm. apply Forall_app. split; [exact Hl2|].
    apply compare_not_lt in E. constructor; [exact E|].
    eapply Forall_impl; [exact Hr2|]. cbn. intros c Hc.
    eapply compare_trans; eauto.
Qed.

Lemma ties_nil (x : A) (l : list A) :
  Forall (fun y => compare x y <> 0%Z) l -> ties compare x l = [].
Proof.
  induction 1 as [|y l Hy _ IH]; [reflexivity|].
  unfold ties in *. cbn. rewrite IH.
  destruct (Z.eqb_spec (compare x y) 0); [contradiction|reflexivity].
Qed.

Lemma ties_app (x : A) (l r : list A) :
  ties compare x (l ++ r) = ties compare x l ++ ties compare x r.
Proof. apply List.filter_app. Qed.

Lemma ties_cons (x y : A) (l : list A) :
  ties compare x (y :: l) =
    (if (compare x y =? 0)%Z then [y] else []) ++ ties compare x l.
Proof. unfold ties. cbn. destruct (compare x y =? 0)%Z; reflexivity. Qed.

(** No element after a strictly larger head ties with something below
    the head. *)
Lemma ties_above (x a b : A) (l : list A) :
  nonDecreasing compare (a :: l) ->
  (compare b a <? 0)%Z = true -> compare x b = 0%Z ->
  ties compare x (a :: l) = [].
Proof.
  intros Hl Hba Hxb. apply nonDecreasing_cons in Hl as [_ Hl].
  assert (Ha : forall y, (compare a y <= 0)%Z -> compare x y <> 0%Z).
  { intros y Hay Hxy. apply (compare_lt_not_ge _ _ Hba).
    apply (compare_trans _ consistent a y b); [exact Hay|].
    apply (compare_trans _ consistent y x b).
    - apply compare_tie_le, Hxy.
    - lia. }
  apply ties_nil. constructor.
  - apply Ha. rewrite compare_refl. lia.
  - eapply Forall_impl; [exact Hl|]. exact Ha.
Qed.

Lemma merge_ties (x : A) (l r : list A) :
  nonDecreasing compare l ->
  ties compare x (merge compare l r) = ties compare x l ++ ties compare x r.
Proof.
  revert r; induction l as [|a l IHl]; intros r Hl.
  { rewrite merge_nil_l. reflexivity. }
  induction r as [|b r IHr].
  { rewrite merge_nil_r, app_nil_r. reflexivity. }
  rewrite merge_cons. destruct (compare b a <? 0)%Z eqn:E.
  - rewrite (ties_cons x b), IHr, (ties_cons x b r).
    destruct (Z.eqb_spec (compare x b) 0) as [Hxb|]; [|reflexivity].
    rewrite (ties_above x a b l Hl E Hxb). reflexivity.
  - rewrite (ties_cons x a), (ties_cons x a l), IHl, <- app_assoc; [reflexivity|].
    apply nonDecreasing_cons in Hl. tauto.
Qed.

Lemma mid_bounds (n : nat) : 2 <= n -> 0 < Nat.div2 (S n) < n.
Proof. intros H. rewrite Nat.div2_div. split.
  - apply Nat.div_str_pos. lia.
  - apply Nat.Div0.div_lt_upper_bound. lia.
Qed.

Lemma mergeSortFuel_sorted (fuel : nat) (l : list A) :
  length l <= fuel -> nonDecreasing compare (mergeSortFuel compare fuel l).
Proof.
  revert l; induction fuel as [|fuel IH]; intros l Hlen.
  { destruct l; [constructor|cbn in Hlen; lia]. }
  destruct l as [|a [|b l]]; [constructor|repeat constructor|].
  cbn [mergeSortFuel].
  pose proof (mid_bounds (length (a :: b :: l))) as Hmid.
  cbn [length] in Hlen, Hmid.
  apply merge_sorted; apply IH.
  - rewrite length_take. cbn [length]. lia.
  - rewrite length_drop. cbn [length]. lia.
Qed.

Lemma mergeSortFuel_ties (x : A) (fuel : nat) (l : list A) :
  length l <= fuel ->
  ties compare x (mergeSortFuel compare fuel l) = ties compare x l.
Proof.
  revert l; induction fuel as [|fuel IH]; intros l Hlen; [reflexivity|].
  destruct l as [|a [|b l]]; [reflexivity..|].
  cbn [mergeSortFuel].
  pose proof (mid_bounds (length (a :: b :: l))) as Hmid.
  cbn [length] in Hlen, Hmid.
  rewrite merge_ties, !IH, <- ties_app, take_drop; [reflexivity|..].
  - rewrite length_drop. cbn [length]. lia.
  - rewrite length_take. cbn [length]. lia.
  - apply mergeSortFuel_sorted. rewrite length_take. cbn [length]. lia.
Qed.

Lemma mergeSort_sorted (l : list A) : nonDecreasing compare (mergeSort compare l).
Proof. apply mergeSortFuel_sorted. reflexivity. Qed.

Lemma mergeSort_ties (x : A) (l : list A) :
  ties compare x (mergeSort compare l) = ties compare x l.
Proof. apply mergeSortFuel_ties. reflexivity. Qed.

Lemma sort_insert_sorted (x : A) (l : list A) :
  nonDecreasing compare l -> nonDecreasing compare (sort_insert compare x l).
Proof.
  induction l as [|y l IH]; intros Hl; [repeat constructor|].
  apply nonDecreasing_cons in Hl as Hl'. destruct Hl' as [Hl1 Hl2].
  cbn. destruct (compare y x <? 0)%Z eqn:E.
  - apply nonDecreasing_cons. split; [apply IH, Hl1|].
    rewrite sort_insert_perm. constructor; [lia|exact Hl2].
  - apply compare_not_lt in E. apply nonDecreasing_cons. split; [exact Hl|].
    constructor; [exact E|].
    eapply Forall_impl; [exact Hl2|]. cbn. intros c Hc.
    eapply compare_trans; eauto.
Qed.

Lemma sort_insert_ties (x y : A) (l : list A) :
  ties compare x (sort_insert compare y l) = ties compare x (y :: l).
Proof.
  induction l as [|z l IH]; [reflexivity|].
  cbn [sort_insert]. destruct (compare z y <? 0)%Z eqn:E; [|reflexivity].
  rewrite (ties_cons x z), IH, !ties_cons.
  destruct (Z.eqb_spec (compare x z) 0) as [Hz|]; [|reflexivity].
  destruct (Z.eqb_spec (compare x y) 0) as [Hy|]; [|reflexivity].
  exfalso. apply (compare_lt_not_ge _ _ E).
  apply (compare_trans _ consistent y x z); [|lia].
  apply compare_tie_le, Hy.
Qed.

Lemma array_sort_sorted (l : list A) : nonDecreasing compare (array_sort compare l).
Proof.
  unfold array_sort. induction l as [|x l IH]; [constructor|].
  cbn [foldr]. apply sort_insert_sorted, IH.
Qed.

Lemma array_sort_ties (x : A) (l : list A) :
  ties compare x (array_sort compare l) = ties compare x l.
Proof.
  unfold array_sort. induction l as [|y l IH]; [reflexivity|].
  cbn [foldr]. rewrite sort_insert_ties, !ties_cons, IH. reflexivity.
Qed.

Lemma ties_head_elem (x y : A) (l r : list A) :
  ties compare x l = y :: r -> y ∈ l /\ compare x y = 0%Z.
Proof.
  intros H. assert (Hy : In y (ties compare x l)) by (rewrite H; left; reflexivity).
  apply List.filter_In in Hy as [Hy1 Hy2].
  split; [apply list_elem_of_In, Hy1|lia].
Qed.

Lemma sorted_head_le (a b : A) (l : list A) :
  nonDecreasing compare (a :: l) -> b ∈ a :: l -> (compare a b <= 0)%Z.
Proof.
  intros Hl Hb. apply nonDecreasing_cons in Hl as [_ Hl].
  apply elem_of_cons in Hb as [->|Hb].
  - rewrite compare_refl. lia.
  - rewrite Forall_forall in Hl. apply Hl, Hb.
Qed.

(** A list is determined by being sorted and by the order of its ties. *)
Lemma sorted_ties_unique (l1 l2 : list A) :
  nonDecreasing compare l1 -> nonDecreasing compare l2 ->
  (forall x, ties compare x l1 = ties compare x l2) -> l1 = l2.
Proof.
  revert l2; induction l1 as [|a l1 IH]; intros l2 H1 H2 Ht.
  { destruct l2 as [|b l2]; [reflexivity|].
    specialize (Ht b). rewrite ties_cons, compare_refl in Ht. discriminate. }
  destruct l2 as [|b l2].
  { specialize (Ht a). rewrite ties_cons, compare_refl in Ht. discriminate. }
  assert (Hab : compare a b = 0%Z).
  { pose proof (Ht a) as Ha. rewrite (ties_cons a a), compare_refl in Ha.
    symmetry in Ha. apply ties_head_elem in Ha as [Ha _].
    pose proof (Ht b) as Hb. rewrite (ties_cons b b l2), compare_refl in Hb.
    apply ties_head_elem in Hb as [Hb _].
    pose proof (sorted_head_le _ _ _ H2 Ha).
    pose proof (sorted_head_le _ _ _ H1 Hb).
    pose proof (compare_swap _ consistent a b). lia. }
  pose proof (Ht a) as Ha. rewrite !ties_cons, compare_refl, Hab in Ha.
  injection Ha as -> _. f_equal.
  apply nonDecreasing_cons in H1 as [H1 _].
  apply nonDecreasing_cons in H2 as [H2 _].
  apply IH; [assumption..|].
  intros x. specialize (Ht x). rewrite !ties_cons in Ht.
  eapply app_inv_head, Ht.
Qed.

Lemma array_sort_mergeSort (l : list A) :
  array_sort compare l = mergeSort compare l.
Proof.
  apply sorted_ties_unique.
  - apply array_sort_sorted.
  - apply mergeSort_sorted.
  - intros x. rewrite array_sort_ties, mergeSort_ties. reflexivity.
Qed.

Lemma mergeSort_sorted_id (l : list A) :
  nonDecreasing compare l -> mergeSort compare l = l.
Proof.
  intros Hl. apply sorted_ties_unique; [apply mergeSort_sorted|exact Hl|].
  intros x. apply mergeSort_ties.
Qed.
End SortedFacts.


(** ** The structure of the engine *)

(** Induction on a node with the hypothesis for all its children. *)
Lemma Node_forall_ind (P : Node -> Prop) :
  (forall ref e c1 c2 kids, Forall P kids -> P (mkNode ref e c1 c2 kids)) ->
  forall n, P n.
Proof.
  intros step. fix IH 1. intros [ref e c1 c2 kids]. apply step.
  induction kids as [|c kids IHkids]; constructor; [apply IH|exact IHkids].
Qed.

Lemma flatten_cons (n : Node) (l : list Node) :
  flatten (n :: l) = n :: flatten (children n) ++ flatten l.
Proof. destruct n; reflexivity. Qed.

Lemma flatten_cons_subtree (n : Node) (l : list Node) :
  flatten (n :: l) = subtree n ++ flatten l.
Proof. reflexivity. Qed.

Lemma flatten_app (l r : list Node) : flatten (l ++ r) = flatten l ++ flatten r.
Proof. apply flat_map_app. Qed.

Lemma subtree_eq (n : Node) : subtree n = n :: flatten (children n).
Proof. destruct n; reflexivity. Qed.

Lemma elem_of_flatten (n : Node) (l : list Node) :
  n ∈ flatten l <-> exists c, c ∈ l /\ n ∈ subtree c.
Proof.
  unfold flatten. rewrite list_elem_of_In, in_flat_map.
  split; intros (c & H1 & H2); exists c;
    rewrite ?list_elem_of_In in *; auto.
Qed.

Lemma elem_of_flatten_child (n c : Node) (l : list Node) :
  c ∈ l -> n ∈ subtree c -> n ∈ flatten l.
Proof. intros. apply elem_of_flatten. eauto. Qed.

Lemma elem_of_flatten_top (n : Node) (l : list Node) : n ∈ l -> n ∈ flatten l.
Proof.
  intros H. apply (elem_of_flatten_child n n l H).
  rewrite subtree_eq. left.
Qed.

Section Locate.
Import IndexTreeModel.

Lemma locate_eq (ref : nat) (n : Node) :
  locate ref n =
    if nref n =? ref then Some [] else locateAmong ref 0 (children n).
Proof.
  destruct n as [r e c1 c2 kids]. cbn [locate nref children].
  destruct (r =? ref); [reflexivity|].
  generalize 0. induction kids as [|c kids IH]; intros i; [reflexivity|].
  cbn [locateAmong]. destruct (locate ref c); [reflexivity|]. apply IH.
Qed.

Lemma descend_elem (path : list nat) (n n' : Node) :
  descend path n = Some n' -> n' ∈ subtree n.
Proof.
  revert n; induction path as [|i rest IH]; intros n H; cbn in H.
  - injection H as ->. rewrite subtree_eq. left.
  - destruct (children n !! i) as [c|] eqn:E; [|discriminate]. cbn in H.
    rewrite subtree_eq. right.
    eapply elem_of_flatten_child; [eapply list_elem_of_lookup_2, E|].
    apply IH, H.
Qed.

Lemma locateAmong_sound_with (ref : nat) (l : list Node) :
  Forall (fun c => forall p, locate ref c = Some p ->
            exists n', descend p c = Some n' /\ nref n' = ref) l ->
  forall i p, locateAmong ref i l = Some p ->
    exists j rest n', p = (i + j) :: rest /\
      l !! j ≫= descend rest = Some n' /\ nref n' = ref.
Proof.
  induction 1 as [|c l Hc _ IH]; intros i p H; [discriminate|].
  cbn [locateAmong] in H. destruct (locate ref c) as [q|] eqn:E.
  - injection H as <-. destruct (Hc q eq_refl) as (n' & H1 & H2).
    exists 0, q, n'. rewrite Nat.add_0_r. auto.
  - destruct (IH _ _ H) as (j & rest & n' & -> & H1 & H2).
    exists (S j), rest, n'. split; [f_equal; lia|]. auto.
Qed.

Lemma locate_sound (ref : nat) (n : Node) (p : list nat) :
  locate ref n = Some p -> exists n', descend p n = Some n' /\ nref n' = ref.
Proof.
  revert p. induction n as [r e c1 c2 kids IH] using Node_forall_ind.
  intros p H. rewrite locate_eq in H. cbn [nref children] in H.
  destruct (Nat.eqb_spec r ref) as [->|].
  - injection H as <-. eexists. split; reflexivity.
  - destruct (locateAmong_sound_with ref kids IH 0 p H)
      as (j & rest & n' & -> & H1 & H2).
    exists n'. split; [exact H1|exact H2].
Qed.

Lemma locateAmong_sound (ref i : nat) (l : list Node) (p : list nat) :
  locateAmong ref i l = Some p ->
  exists j rest n', p = (i + j) :: rest /\
    l !! j ≫= descend rest = Some n' /\ nref n' = ref.
Proof.
  apply locateAmong_sound_with. apply Forall_forall.
  intros c _ q. apply locate_sound.
Qed.

Lemma locateAmong_complete_with (ref : nat) (l : list Node) :
  Forall (fun c => (exists n, n ∈ subtree c /\ nref n = ref) ->
            is_Some (locate ref c)) l ->
  forall i, (exists n, n ∈ flatten l /\ nref n = ref) ->
    is_Some (locateAmong ref i l).
Proof.
  induction 1 as [|c l Hc _ IH]; intros i (n & Hn & Hr).
  { cbn in Hn. inversion Hn. }
  cbn [locateAmong]. destruct (locate ref c) as [q|] eqn:E; [eauto|].
  apply IH. rewrite flatten_cons_subtree in Hn.
  apply elem_of_app in Hn as [Hn|Hn]; [|eauto].
  destruct Hc as [? Hs]; [eauto|discriminate].
Qed.

Lemma locate_complete (ref : nat) (n : Node) :
  (exists n', n' ∈ subtree n /\ nref n' = ref) -> is_Some (locate ref n).
Proof.
  induction n as [r e c1 c2 kids IH] using Node_forall_ind.
  intros (n' & Hn & Hr). rewrite locate_eq. cbn [nref children].
  destruct (Nat.eqb_spec r ref); [eauto|].
  apply locateAmong_complete_with; [exact IH|].
  rewrite subtree_eq in Hn. cbn [children] in Hn.
  apply elem_of_cons in Hn as [->|Hn]; [cbn in Hr; contradiction|eauto].
Qed.

Lemma locateAmong_complete (ref i : nat) (l : list Node) (n : Node) :
  n ∈ flatten l -> nref n = ref -> is_Some (locateAmong ref i l).
Proof.
  intros Hn Hr. apply locateAmong_complete_with; [|eauto].
  apply Forall_forall. intros c _. apply locate_complete.
Qed.

Lemma lookup_descend_elem (l : list Node) (j : nat) (rest : list nat) (n : Node) :
  l !! j ≫= descend rest = Some n -> n ∈ flatten l.
Proof.
  destruct (l !! j) as [c|] eqn:E; [|discriminate]. cbn. intros H.
  eapply elem_of_flatten_child; [eapply list_elem_of_lookup_2, E|].
  eapply descend_elem, H.
Qed.
End Locate.


Section SpliceStructure.
Import IndexTreeModel.

Lemma array_splice_parts {A} (l : list A) (i : nat) (c : Count) (ins : list A) :
  let r := array_splice l i c ins in
  let n := clamp c (length l - i) in
  l = take i l ++ r.2 ++ drop (i + n) l /\
  r.1 = take i l ++ ins ++ drop (i + n) l.
Proof.
  cbn. split; [|reflexivity].
  rewrite <- drop_drop, take_drop, take_drop. reflexivity.
Qed.

Lemma array_splice_all {A} (l ins : list A) :
  array_splice l 0 MAX_VALUE ins = (ins, l).
Proof.
  unfold array_splice, clamp. rewrite Nat.sub_0_r. cbn [take drop Nat.add app].
  rewrite drop_all, app_nil_r, firstn_all. reflexivity.
Qed.

Lemma flatten_insert (kids : list Node) (i : nat) (n x : Node) :
  kids !! i = Some n ->
  flatten kids = flatten (take i kids) ++ subtree n ++ flatten (drop (S i) kids) /\
  flatten (<[i := x]> kids) =
    flatten (take i kids) ++ subtree x ++ flatten (drop (S i) kids).
Proof.
  intros H. split.
  - rewrite <- (take_drop_middle kids i n H) at 1.
    rewrite flatten_app. reflexivity.
  - rewrite insert_take_drop by (eapply lookup_lt_Some, H).
    rewrite flatten_app. reflexivity.
Qed.

Lemma spliceBelow_shallow (rest : list nat) :
  forall i c ins kids kids' deleted,
  spliceBelow i rest c ins kids = Some (kids', deleted) ->
  exists surviving,
    map shallow (flatten kids) ≡ₚ surviving ++ map shallow (flatten deleted) /\
    map shallow (flatten kids') ≡ₚ surviving ++ map shallow (flatten ins).
Proof.
  induction rest as [|j rest IH]; intros i c ins kids kids' deleted H;
    cbn [spliceBelow] in H.
  - destruct (i <=? length kids); [|discriminate].
    destruct (array_splice_parts kids i c ins) as [H1 _].
    unfold array_splice in H, H1. cbn [snd] in H1. injection H as <- <-.
    exists (map shallow (flatten (take i kids)) ++
            map shallow (flatten (drop (i + clamp c (length kids - i)) kids))).
    split.
    + rewrite H1 at 1. rewrite !flatten_app, !map_app.
      rewrite <- !app_assoc. apply Permutation_app_head, Permutation_app_comm.
    + rewrite !flatten_app, !map_app.
      rewrite <- !app_assoc. apply Permutation_app_head, Permutation_app_comm.
  - destruct (kids !! i) as [n|] eqn:E; [|discriminate]. cbn in H.
    destruct (spliceBelow j rest c ins (children n)) as [[k d]|] eqn:E';
      [|discriminate].
    cbn in H. injection H as <- <-.
    destruct (IH _ _ _ _ _ _ E') as (s & Hs1 & Hs2).
    destruct (flatten_insert kids i n (withChildren n k) E) as [H1 H2].
    exists (map shallow (flatten (take i kids)) ++ shallow n :: s ++
            map shallow (flatten (drop (S i) kids))).
    split.
    + rewrite H1, subtree_eq, !map_app. cbn [map]. rewrite Hs1.
      rewrite <- !app_assoc. apply Permutation_app_head. cbn.
      constructor. rewrite <- !app_assoc. apply Permutation_app_head.
      apply Permutation_app_comm.
    + rewrite H2, subtree_eq, !map_app. cbn [map children withChildren].
      rewrite Hs2, <- !app_assoc. apply Permutation_app_head. cbn.
      constructor. rewrite <- !app_assoc. apply Permutation_app_head.
      apply Permutation_app_comm.
Qed.

Lemma spliceBelow_inserted (rest : list nat) :
  forall i c ins kids kids' deleted,
  spliceBelow i rest c ins kids = Some (kids', deleted) ->
  forall n, n ∈ flatten ins -> n ∈ flatten kids'.
Proof.
  induction rest as [|j rest IH]; intros i c ins kids kids' deleted H n Hn;
    cbn [spliceBelow] in H.
  - destruct (i <=? length kids); [|discriminate].
    injection H as <- <-. cbn. rewrite !flatten_app.
    apply elem_of_app. right. apply elem_of_app. left. exact Hn.
  - destruct (kids !! i) as [x|] eqn:E; [|discriminate]. cbn in H.
    destruct (spliceBelow j rest c ins (children x)) as [[k d]|] eqn:E';
      [|discriminate].
    cbn in H. injection H as <- <-.
    destruct (flatten_insert kids i x (withChildren x k) E) as [_ ->].
    apply elem_of_app. right. apply elem_of_app. left.
    rewrite subtree_eq. right. cbn. eapply IH; eauto.
Qed.

Lemma spliceAt_cons (i : nat) (rest : list nat) (c : Count)
    (ins kids : list Node) :
  rest <> [] ->
  spliceAt (i :: rest) c ins kids =
    kids !! i ≫= fun n =>
    spliceAt rest c ins (children n) ≫= fun r =>
    Some (<[i := withChildren n r.1]> kids, r.2).
Proof. destruct rest; [contradiction|reflexivity]. Qed.

Lemma descend_splice (path : list nat) :
  forall (n parent : Node) (ins : list Node),
  descend path n = Some parent ->
  exists kids',
    spliceAt (path ++ [0]) MAX_VALUE ins (children n)
      = Some (kids', children parent) /\
    descend path (withChildren n kids') = Some (withChildren parent ins).
Proof.
  induction path as [|i rest IH]; intros n parent ins H; cbn in H.
  - injection H as <-. exists ins. cbn.
    rewrite array_splice_all. auto.
  - destruct (children n !! i) as [c|] eqn:E; [|discriminate]. cbn in H.
    destruct (IH c parent ins H) as (k & H1 & H2).
    exists (<[i := withChildren c k]> (children n)). split.
    + change ((i :: rest) ++ [0]) with (i :: (rest ++ [0])).
      rewrite spliceAt_cons, E by (destruct rest; discriminate).
      cbn [mbind option_bind]. rewrite H1. reflexivity.
    + cbn [descend children withChildren].
      rewrite list_lookup_insert_eq by (eapply lookup_lt_Some, E).
      exact H2.
Qed.

Lemma nodeAt_splice (location : list nat) (kids ins : list Node) (parent : ITreeNode) :
  nodeAt location kids = Some parent ->
  exists kids',
    spliceAt (location ++ [0]) MAX_VALUE ins kids
      = Some (kids', node_children parent) /\
    nodeAt location kids' = Some (withKids parent ins).
Proof.
  intros H.
  pose proof (descend_splice location (mkNode 0 0 false false kids)) as D.
  destruct location as [|i rest].
  - injection H as <-. destruct (D _ ins eq_refl) as (k & H1 & H2).
    cbn in H2. injection H2 as ->. exists ins. split; [exact H1|reflexivity].
  - cbn in H. destruct (kids !! i ≫= descend rest) as [p|] eqn:E; [|discriminate].
    injection H as <-. destruct (D p ins E) as (k & H1 & H2).
    exists k. split; [exact H1|]. cbn in H2. cbn. rewrite H2. reflexivity.
Qed.

Lemma nodeAt_splice_None (location : list nat) (kids ins : list Node) :
  nodeAt location kids = None ->
  spliceAt (location ++ [0]) MAX_VALUE ins kids = None.
Proof.
  destruct location as [|i rest]; [discriminate|]. cbn [nodeAt app spliceAt].
  revert i kids. induction rest as [|j rest IH]; intros i kids H.
  - cbn in *. destruct (kids !! i); [discriminate|reflexivity].
  - cbn [app spliceBelow]. cbn [descend] in H.
    destruct (kids !! i) as [c|]; [|reflexivity]. cbn in *.
    rewrite IH; [reflexivity|].
    destruct (children c !! j ≫= descend rest); [discriminate|reflexivity].
Qed.
End SpliceStructure.


(** ** Creating nodes *)

Lemma LazyElement_forall_ind {W} (P : LazyElement W -> Prop) :
  (forall e st kids, Forall P kids -> P (Lazy e st kids)) -> forall le, P le.
Proof.
  intros step. fix IH 1. intros [e st kids]. apply step.
  induction kids as [|c kids IHkids]; constructor; [apply IH|exact IHkids].
Qed.

Lemma le_subtree_eq {W} (le : LazyElement W) :
  le_subtree le = le :: le_flatten (le_children le).
Proof. destruct le; reflexivity. Qed.

Lemma le_flatten_cons {W} (le : LazyElement W) (l : list (LazyElement W)) :
  le_flatten (le :: l) = le_subtree le ++ le_flatten l.
Proof. reflexivity. Qed.

Lemma postorder_eq (n : Node) :
  IndexTreeModel.postorder n =
    flat_map IndexTreeModel.postorder (children n) ++ [n].
Proof. destruct n; reflexivity. Qed.

Section Creation.
Import IndexTreeModel.
Context {W : Type} (m : IndexTreeModel.t) (f : Node -> W -> W).

Lemma createTreeNode_eq (le : LazyElement W) (s : nat * W) :
  createTreeNode m f le s =
    let r := createTreeNodes m f (le_children le) (S s.1, s.2) in
    let node := newNode m s.1 (le_element le) (le_state le s.2) r.1 in
    (node, (r.2.1, f node r.2.2)).
Proof.
  destruct le as [e st kids]. cbn [createTreeNode le_children le_element le_state].
  cbv zeta.
  set (g := fix createChildren (l : list (LazyElement W)) (s : nat * W) :=
          match l with [] => ([], s) | c :: l' => _ end).
  assert (E : forall l s, g l s = createTreeNodes m f l s).
  { induction l as [|c l IH]; intros s'; [reflexivity|].
    cbn. rewrite IH. reflexivity. }
  rewrite E. reflexivity.
Qed.

Lemma createTreeNodes_cons (le : LazyElement W) (l : list (LazyElement W))
    (s : nat * W) :
  createTreeNodes m f (le :: l) s =
    let r1 := createTreeNode m f le s in
    let r2 := createTreeNodes m f l r1.2 in
    (r1.1 :: r2.1, r2.2).
Proof. reflexivity. Qed.

Lemma report_app (l1 l2 : list Node) (w : W) :
  report f (l1 ++ l2) w = report f l2 (report f l1 w).
Proof. apply foldl_app. Qed.

(** The state after creating nodes is the state after their reports, a
    node after its children. *)
Lemma createTreeNodes_report_with (l : list (LazyElement W)) :
  Forall (fun le => forall s,
    (createTreeNode m f le s).2.2 =
      report f (postorder (createTreeNode m f le s).1) s.2) l ->
  forall s, (createTreeNodes m f l s).2.2 =
    report f (flat_map postorder (createTreeNodes m f l s).1) s.2.
Proof.
  induction 1 as [|le l Hle _ IH]; intros s; [reflexivity|].
  rewrite createTreeNodes_cons. cbn [fst snd flat_map].
  rewrite report_app, IH, Hle. reflexivity.
Qed.

Lemma createTreeNode_report (le : LazyElement W) (s : nat * W) :
  (createTreeNode m f le s).2.2 =
    report f (postorder (createTreeNode m f le s).1) s.2.
Proof.
  revert s. induction le as [e st kids IH] using LazyElement_forall_ind.
  intros s. rewrite createTreeNode_eq. cbn [fst snd le_children].
  rewrite postorder_eq. cbn [children newNode]. rewrite report_app.
  rewrite (createTreeNodes_report_with kids IH). reflexivity.
Qed.

Lemma createTreeNodes_report (l : list (LazyElement W)) (s : nat * W) :
  (createTreeNodes m f l s).2.2 =
    report f (flat_map postorder (createTreeNodes m f l s).1) s.2.
Proof.
  apply createTreeNodes_report_with, Forall_forall.
  intros le _. apply createTreeNode_report.
Qed.

(** Node objects are allocated in the order in which the descriptions
    are pulled. *)
Lemma createTreeNodes_refs_with (l : list (LazyElement W)) :
  Forall (fun le => forall s,
    map nref (subtree (createTreeNode m f le s).1) =
      seq s.1 (length (le_subtree le)) /\
    (createTreeNode m f le s).2.1 = s.1 + length (le_subtree le)) l ->
  forall s,
    map nref (flatten (createTreeNodes m f l s).1) =
      seq s.1 (length (le_flatten l)) /\
    (createTreeNodes m f l s).2.1 = s.1 + length (le_flatten l).
Proof.
  induction 1 as [|le l Hle _ IH]; intros s.
  { cbn. split; [reflexivity|lia]. }
  rewrite createTreeNodes_cons. cbn [fst snd].
  rewrite flatten_cons_subtree, le_flatten_cons, map_app, length_app, seq_app.
  destruct (Hle s) as [H1 H2].
  destruct (IH (createTreeNode m f le s).2) as [H3 H4].
  rewrite H1, H3, H4, H2. split; [reflexivity|lia].
Qed.

Lemma createTreeNode_refs (le : LazyElement W) (s : nat * W) :
  map nref (subtree (createTreeNode m f le s).1) =
    seq s.1 (length (le_subtree le)) /\
  (createTreeNode m f le s).2.1 = s.1 + length (le_subtree le).
Proof.
  revert s. induction le as [e st kids IH] using LazyElement_forall_ind.
  intros s. rewrite createTreeNode_eq. cbn [fst snd le_children].
  rewrite subtree_eq, le_subtree_eq. cbn [children newNode nref map length seq le_children].
  destruct (createTreeNodes_refs_with kids IH (S s.1, s.2)) as [H1 H2].
  cbn [fst] in H1, H2. rewrite H1, H2. split; [reflexivity|lia].
Qed.

Lemma createTreeNodes_refs (l : list (LazyElement W)) (s : nat * W) :
  map nref (flatten (createTreeNodes m f l s).1) =
    seq s.1 (length (le_flatten l)) /\
  (createTreeNodes m f l s).2.1 = s.1 + length (le_flatten l).
Proof.
  apply createTreeNodes_refs_with, Forall_forall.
  intros le _. apply createTreeNode_refs.
Qed.
End Creation.


(** ** What the engine makes of a lazy sequence *)

Section Materialise.
Import IndexTreeModel.
Context {W : Type} (m : IndexTreeModel.t).

Lemma createTreeNodes_silent_with (l : list (LazyElement W)) (w : W) :
  Forall (fun le => forall next,
    (createTreeNode m silent le (next, w)).2.2 = w /\
    Forall2 (madeOf m w) (le_subtree le)
      (subtree (createTreeNode m silent le (next, w)).1)) l ->
  forall next,
    (createTreeNodes m silent l (next, w)).2.2 = w /\
    Forall2 (madeOf m w) (le_flatten l)
      (flatten (createTreeNodes m silent l (next, w)).1).
Proof.
  induction 1 as [|le l Hle _ IH]; intros next.
  { split; [reflexivity|constructor]. }
  rewrite createTreeNodes_cons. cbn [fst snd].
  destruct (Hle next) as [H1 H2].
  destruct (createTreeNode m silent le (next, w)) as [n [next' w']].
  cbn [fst snd] in *. subst w'.
  destruct (IH next') as [H3 H4]. split; [exact H3|].
  rewrite le_flatten_cons, flatten_cons_subtree. apply Forall2_app; assumption.
Qed.

Lemma createTreeNode_silent (le : LazyElement W) (w : W) (next : nat) :
  (createTreeNode m silent le (next, w)).2.2 = w /\
  Forall2 (madeOf m w) (le_subtree le)
    (subtree (createTreeNode m silent le (next, w)).1).
Proof.
  revert next. induction le as [e st kids IH] using LazyElement_forall_ind.
  intros next. rewrite createTreeNode_eq. cbn [fst snd le_children].
  destruct (createTreeNodes_silent_with kids w IH (S next)) as [H1 H2].
  split; [exact H1|].
  rewrite le_subtree_eq, subtree_eq. constructor; [|exact H2].
  repeat split.
Qed.

Lemma createTreeNodes_silent (l : list (LazyElement W)) (w : W) (next : nat) :
  (createTreeNodes m silent l (next, w)).2.2 = w /\
  Forall2 (madeOf m w) (le_flatten l)
    (flatten (createTreeNodes m silent l (next, w)).1).
Proof.
  apply createTreeNodes_silent_with, Forall_forall.
  intros le _. apply createTreeNode_silent.
Qed.

Lemma createTreeNodes_top (f : Node -> W -> W) (l : list (LazyElement W))
    (s : nat * W) :
  map element (createTreeNodes m f l s).1 = map le_element l.
Proof.
  revert s. induction l as [|le l IH]; intros s; [reflexivity|].
  rewrite createTreeNodes_cons. cbn [fst map]. rewrite IH. f_equal.
  rewrite createTreeNode_eq. reflexivity.
Qed.
End Materialise.


Lemma elem_of_map {A B} (f : A -> B) (l : list A) (x : A) :
  x ∈ l -> f x ∈ map f l.
Proof. rewrite !list_elem_of_In. apply in_map. Qed.

Lemma elem_of_map_inv {A B} (f : A -> B) (l : list A) (y : B) :
  y ∈ map f l -> exists x, y = f x /\ x ∈ l.
Proof.
  rewrite list_elem_of_In, in_map_iff. intros (x & <- & H).
  exists x. rewrite list_elem_of_In. auto.
Qed.

Lemma postorder_perm (n : Node) : IndexTreeModel.postorder n ≡ₚ subtree n.
Proof.
  induction n as [r e c1 c2 kids IH] using Node_forall_ind.
  rewrite postorder_eq, subtree_eq. cbn [children].
  rewrite <- Permutation_cons_append. constructor.
  induction IH as [|c kids Hc _ IHk]; [reflexivity|].
  cbn [flat_map]. rewrite flatten_cons_subtree, Hc, IHk. reflexivity.
Qed.

Lemma postorder_flatten (l : list Node) :
  flat_map IndexTreeModel.postorder l ≡ₚ flatten l.
Proof.
  induction l as [|c l IH]; [reflexivity|].
  cbn [flat_map]. rewrite flatten_cons_subtree, postorder_perm, IH. reflexivity.
Qed.

(** *** Pulling lazily or at once

    When no description of the sequence reads what the reports of the
    other descriptions' nodes change, the nodes are those made of the
    sequence in the state before the splice. *)
Section Lazy.
Import IndexTreeModel.
Context {W K : Type} (m : IndexTreeModel.t) (f : Node -> W -> W).
Context (key : T -> K) (w0 : W) (next0 : nat).

Local Abbreviation keys := (keysOf key).
Local Abbreviation stable := (steady f key w0 next0).
Local Abbreviation notSeen := (unseen key next0).

Lemma keysOf_cons (le : LazyElement W) (l : list (LazyElement W)) :
  keys (le :: l) = keys [le] ++ keys l.
Proof.
  unfold keysOf. rewrite !le_flatten_cons, !map_app. cbn.
  rewrite app_nil_r. reflexivity.
Qed.

Lemma keysOf_single (le : LazyElement W) :
  keys [le] = key (le_element le) :: keys (le_children le).
Proof.
  unfold keysOf. rewrite le_flatten_cons, le_subtree_eq. cbn.
  rewrite app_nil_r. reflexivity.
Qed.

Lemma unseen_weaken (ns : list Node) (l l' : list (LazyElement W)) :
  (forall k, k ∈ keys l' -> k ∈ keys l) -> notSeen ns l -> notSeen ns l'.
Proof.
  intros Hsub Hns. eapply Forall_impl; [exact Hns|].
  intros n [H1 H2]. split; [exact H1|].
  intros H. apply H2, Hsub, H.
Qed.

Lemma made_keys (l : list (LazyElement W)) (next : nat) :
  map (fun n => key (element n))
      (flatten (createTreeNodes m silent l (next, w0)).1) = keys l.
Proof.
  destruct (createTreeNodes_silent m l w0 next) as [_ H].
  unfold keysOf. induction H as [|le n ls ns Hm _ IH]; [reflexivity|].
  cbn [map]. rewrite IH. destruct Hm as [-> _]. reflexivity.
Qed.

Lemma createTreeNodes_lazy_with (l : list (LazyElement W)) :
  Forall (fun le =>
    NoDup (keys [le]) -> Forall stable (le_subtree le) ->
    forall next ns, next0 <= next -> notSeen ns [le] ->
      (createTreeNode m f le (next, report f ns w0)).1 =
        (createTreeNode m silent le (next, w0)).1) l ->
  NoDup (keys l) -> Forall stable (le_flatten l) ->
  forall next ns, next0 <= next -> notSeen ns l ->
    (createTreeNodes m f l (next, report f ns w0)).1 =
      (createTreeNodes m silent l (next, w0)).1.
Proof.
  induction 1 as [|le l Hle _ IH]; intros Hnd Hst next ns Hnext Hns;
    [reflexivity|].
  rewrite keysOf_cons in Hnd. apply NoDup_app in Hnd as (Hnd1 & Hdisj & Hnd2).
  rewrite le_flatten_cons in Hst. apply Forall_app in Hst as [Hst1 Hst2].
  rewrite !createTreeNodes_cons. cbn [fst snd].
  assert (E1 : (createTreeNode m f le (next, report f ns w0)).1 =
               (createTreeNode m silent le (next, w0)).1).
  { apply Hle; [assumption..|]. eapply unseen_weaken, Hns.
    intros k Hk. rewrite keysOf_cons. apply elem_of_app. left. exact Hk. }
  rewrite E1. f_equal.
  pose proof (createTreeNode_report m f le (next, report f ns w0)) as Hw.
  destruct (createTreeNode_refs m f le (next, report f ns w0)) as [_ Hn].
  destruct (createTreeNode_refs m silent le (next, w0)) as [Hrefs Hn'].
  destruct (createTreeNode_silent m le w0 next) as [Hw' _].
  rewrite E1 in Hw. cbn [fst snd] in Hw, Hn, Hn', Hrefs.
  destruct (createTreeNode m f le (next, report f ns w0)) as [n1 [next1 w1]].
  destruct (createTreeNode m silent le (next, w0)) as [n2 [next2 w2]] eqn:E2.
  cbn [fst snd] in *. subst n1 next1 next2 w1 w2.
  rewrite <- report_app. apply IH; [assumption..|lia|].
  apply Forall_app. split.
  - eapply unseen_weaken, Hns. intros k Hk. rewrite keysOf_cons.
    apply elem_of_app. right. exact Hk.
  - apply Forall_forall. intros c Hc. rewrite postorder_perm in Hc.
    split.
    + assert (Hr : nref c ∈ map nref (subtree n2)) by (apply elem_of_map, Hc).
      rewrite Hrefs in Hr. apply elem_of_seq in Hr. lia.
    + intros Hk. apply (Hdisj (key (element c))); [|exact Hk].
      pose proof (made_keys [le] next) as Hmk.
      rewrite createTreeNodes_cons, E2 in Hmk.
      cbn [fst snd createTreeNodes] in Hmk.
      rewrite flatten_cons_subtree in Hmk. cbn [flatten flat_map] in Hmk.
      rewrite app_nil_r in Hmk. rewrite <- Hmk.
      apply (elem_of_map (fun n => key (element n))), Hc.
Qed.

Lemma createTreeNode_lazy (le : LazyElement W) :
  NoDup (keys [le]) -> Forall stable (le_subtree le) ->
  forall next ns, next0 <= next -> notSeen ns [le] ->
    (createTreeNode m f le (next, report f ns w0)).1 =
      (createTreeNode m silent le (next, w0)).1.
Proof.
  induction le as [e st kids IH] using LazyElement_forall_ind.
  intros Hnd Hst next ns Hnext Hns.
  rewrite keysOf_single in Hnd. apply NoDup_cons in Hnd as [Hhead Hnd].
  rewrite le_subtree_eq in Hst. apply Forall_cons in Hst as [Hst1 Hst2].
  rewrite !createTreeNode_eq. cbn [fst snd le_children].
  cbn [le_children] in *.
  rewrite (createTreeNodes_lazy_with kids IH Hnd Hst2 (S next) ns); [|lia|].
  - f_equal. rewrite (Hst1 ns); [reflexivity|].
    eapply Forall_impl; [exact Hns|]. intros n [H1 H2]. split; [exact H1|].
    intros Hk. apply H2. rewrite keysOf_single. cbn [le_element].
    rewrite Hk. left.
  - eapply unseen_weaken, Hns. intros k Hk. rewrite keysOf_single. right.
    exact Hk.
Qed.

Theorem createTreeNodes_lazy (l : list (LazyElement W)) :
  NoDup (keys l) -> Forall stable (le_flatten l) ->
  (createTreeNodes m f l (next0, w0)).1 =
    (createTreeNodes m silent l (next0, w0)).1.
Proof.
  intros Hnd Hst.
  apply (createTreeNodes_lazy_with l) with (ns := []);
    [|assumption..|lia|constructor].
  apply Forall_forall. intros le _. apply createTreeNode_lazy.
Qed.
End Lazy.


(** ** The tables after a splice *)

Section TableFacts.
Context {K : Type} `{Countable K} (key : Node -> K).

Lemma inserting_snoc (t : gmap K nat) (l : list Node) (n : Node) :
  inserting key t (l ++ [n]) = <[key n := nref n]> (inserting key t l).
Proof. unfold inserting. rewrite foldl_app. reflexivity. Qed.

Lemma lookup_inserting_notin (t : gmap K nat) (l : list Node) (k : K) :
  k ∉ map key l -> inserting key t l !! k = t !! k.
Proof.
  revert t. induction l as [|n l IH]; intros t Hk; [reflexivity|].
  cbn in Hk. apply not_elem_of_cons in Hk as [H1 H2].
  unfold inserting in *. cbn [foldl]. rewrite IH by exact H2.
  apply lookup_insert_ne. congruence.
Qed.

Lemma lookup_inserting_in (t t' : gmap K nat) (l : list Node) (k : K) :
  k ∈ map key l -> inserting key t l !! k = inserting key t' l !! k.
Proof.
  revert t t'. induction l as [|n l IH]; intros t t' Hk; [inversion Hk|].
  unfold inserting in *. cbn [foldl].
  destruct (decide (k ∈ map key l)) as [Hin|Hout]; [apply IH, Hin|].
  cbn in Hk. apply elem_of_cons in Hk as [->|Hk]; [|contradiction].
  fold (inserting key (<[key n:=nref n]> t) l).
  fold (inserting key (<[key n:=nref n]> t') l).
  rewrite !lookup_inserting_notin by exact Hout.
  rewrite !lookup_insert_eq. reflexivity.
Qed.

(** With one node per key, the entry of a created node points at it. *)
Lemma lookup_inserting_NoDup (t : gmap K nat) (l : list Node) (n : Node) :
  NoDup (map key l) -> n ∈ l -> inserting key t l !! key n = Some (nref n).
Proof.
  revert t. induction l as [|c l IH]; intros t Hnd Hn; [inversion Hn|].
  cbn in Hnd. apply NoDup_cons in Hnd as [Hc Hnd].
  unfold inserting in *. cbn [foldl].
  apply elem_of_cons in Hn as [->|Hn]; [|apply IH; assumption].
  fold (inserting key (<[key c:=nref c]> t) l).
  rewrite lookup_inserting_notin by exact Hc. apply lookup_insert_eq.
Qed.

(** In any case the entry of a created key points at a created node with
    that key. *)
Lemma lookup_inserting_some (t : gmap K nat) (l : list Node) (k : K) :
  k ∈ map key l ->
  exists n, n ∈ l /\ key n = k /\ inserting key t l !! k = Some (nref n).
Proof.
  revert t. induction l as [|c l IH]; intros t Hk; [inversion Hk|].
  unfold inserting in *. cbn [foldl].
  destruct (decide (k ∈ map key l)) as [Hin|Hout].
  - destruct (IH (<[key c:=nref c]> t) Hin) as (n & H1 & H2 & H3).
    exists n. split; [right; exact H1|auto].
  - cbn in Hk. apply elem_of_cons in Hk as [->|Hk]; [|contradiction].
    exists c. split; [left|]. split; [reflexivity|].
    fold (inserting key (<[key c:=nref c]> t) l).
    rewrite lookup_inserting_notin by exact Hout. apply lookup_insert_eq.
Qed.

Lemma lookup_deleting (t : gmap K nat) (l : list Node) (k : K) :
  deleting key t l !! k = if decide (k ∈ map key l) then None else t !! k.
Proof.
  revert t. induction l as [|n l IH]; intros t; [reflexivity|].
  unfold deleting in *. cbn [foldl map]. rewrite IH.
  destruct (decide (k ∈ map key l)) as [Hin|Hout].
  - rewrite decide_True by (right; exact Hin). reflexivity.
  - destruct (decide (k = key n)) as [->|Hne].
    + rewrite decide_True by left. apply lookup_delete_eq.
    + rewrite decide_False.
      * apply lookup_delete_ne. congruence.
      * intros Hk. apply elem_of_cons in Hk as [?|?]; contradiction.
Qed.

Lemma lookup_evicting (staged : gset K) (t : gmap K nat) (l : list Node) (k : K) :
  evicting key staged t l !! k =
    if decide (k ∈ map key l /\ k ∉ staged) then None else t !! k.
Proof.
  revert t. induction l as [|n l IH]; intros t.
  { cbn. rewrite decide_False; [reflexivity|]. intros [Hk _]. inversion Hk. }
  unfold evicting in *. cbn [foldl map]. rewrite IH.
  destruct (decide (k ∈ map key l /\ k ∉ staged)) as [[Hin Hs]|Hout].
  - rewrite decide_True; [reflexivity|]. split; [right; exact Hin|exact Hs].
  - destruct (decide (key n ∈ staged)) as [Hn|Hn].
    + rewrite decide_False; [reflexivity|]. intros [H1 H2].
      apply elem_of_cons in H1 as [->|H1]; [contradiction|auto].
    + destruct (decide (k = key n)) as [->|Hne].
      * rewrite decide_True by (split; [left|exact Hn]). apply lookup_delete_eq.
      * rewrite lookup_delete_ne by congruence.
        rewrite decide_False; [reflexivity|]. intros [H1 H2].
        apply elem_of_cons in H1 as [?|H1]; [contradiction|auto].
Qed.

(** Reporting the created nodes first and sparing the staged keys leaves
    the table that deleting first and creating afterwards leaves. *)
Lemma evicting_inserting (staged : gset K) (t : gmap K nat)
    (created deleted : list Node) :
  (forall k, k ∈ staged <-> k ∈ map key created) ->
  evicting key staged (inserting key t created) deleted =
    updateTable key created deleted t.
Proof.
  intros Hs. apply map_eq. intros k. unfold updateTable.
  rewrite lookup_evicting.
  destruct (decide (k ∈ map key created)) as [Hin|Hout].
  - rewrite decide_False by (intros [_ Hk]; apply Hk, Hs, Hin).
    apply lookup_inserting_in, Hin.
  - rewrite !lookup_inserting_notin by exact Hout. rewrite lookup_deleting.
    apply decide_ext. rewrite Hs. tauto.
Qed.
End TableFacts.


(** ** The state of a call after the reports *)

Section Reports.
Import IndexTreeModel.
Context {U : Type} (idp : option (T -> string)).
Context (onC onD : option (ITreeNodeCallback U)).

Lemma report_cons {W} (f : Node -> W -> W) (n : Node) (l : list Node) (w : W) :
  report f (n :: l) w = report f l (f n w).
Proof. reflexivity. Qed.

Lemma created_nodes (l : list Node) (s : SpliceState U) :
  s_nodes (report (_onDidCreateNode idp onC) l s) =
    inserting elementKey (s_nodes s) l.
Proof.
  revert s. induction l as [|n l IH]; intros s; [reflexivity|].
  rewrite report_cons, IH. unfold _onDidCreateNode.
  destruct idp; reflexivity.
Qed.

Lemma created_identities (l : list Node) (s : SpliceState U) :
  s_nodesByIdentity (report (_onDidCreateNode idp onC) l s) =
    match idp with
    | Some getId => inserting (identityKey getId) (s_nodesByIdentity s) l
    | None => s_nodesByIdentity s
    end.
Proof.
  revert s. induction l as [|n l IH]; intros s.
  { destruct idp; reflexivity. }
  rewrite report_cons, IH. unfold _onDidCreateNode.
  destruct idp; reflexivity.
Qed.

Lemma created_staged (l : list Node) (s : SpliceState U) (k : option T) :
  k ∈ insertedElements (report (_onDidCreateNode idp onC) l s) <->
  k ∈ map elementKey l \/ k ∈ insertedElements s.
Proof.
  revert s. induction l as [|n l IH]; intros s.
  { cbn. split; [auto|]. intros [H|H]; [inversion H|exact H]. }
  rewrite report_cons, IH. cbn [map]. rewrite elem_of_cons.
  assert (E : insertedElements (_onDidCreateNode idp onC n s) =
              {[ elementKey n ]} ∪ insertedElements s).
  { unfold _onDidCreateNode. destruct idp; reflexivity. }
  rewrite E. set_solver.
Qed.

Lemma created_stagedIds (getId : T -> string) (l : list Node)
    (s : SpliceState U) (k : string) :
  idp = Some getId ->
  k ∈ insertedElementIds (report (_onDidCreateNode idp onC) l s) <->
  k ∈ map (identityKey getId) l \/ k ∈ insertedElementIds s.
Proof.
  intros ->. revert s. induction l as [|n l IH]; intros s.
  { cbn. split; [auto|]. intros [H|H]; [inversion H|exact H]. }
  rewrite report_cons, IH. cbn [map]. rewrite elem_of_cons.
  cbn. unfold identityKey at 2. set_solver.
Qed.

Lemma created_heap (l : list Node) (s : SpliceState U) :
  s_heap (report (_onDidCreateNode idp onC) l s) = rev l ++ s_heap s.
Proof.
  revert s. induction l as [|n l IH]; intros s; [reflexivity|].
  rewrite report_cons, IH. cbn [rev]. rewrite <- app_assoc.
  unfold _onDidCreateNode. destruct idp; reflexivity.
Qed.

Lemma created_caller (l : list Node) (s : SpliceState U) :
  s_caller (report (_onDidCreateNode idp onC) l s) = calls onC l (s_caller s).
Proof.
  revert s. induction l as [|n l IH]; intros s; [reflexivity|].
  rewrite report_cons, IH. unfold _onDidCreateNode.
  destruct idp; reflexivity.
Qed.

Lemma deleted_staged (l : list Node) (s : SpliceState U) :
  insertedElements (report (_onDidDeleteNode idp onD) l s) = insertedElements s /\
  insertedElementIds (report (_onDidDeleteNode idp onD) l s) = insertedElementIds s.
Proof.
  revert s. induction l as [|n l IH]; intros s; [auto|].
  rewrite report_cons. destruct (IH (_onDidDeleteNode idp onD n s)) as [-> ->].
  auto.
Qed.

Lemma deleted_nodes (l : list Node) (s : SpliceState U) :
  s_nodes (report (_onDidDeleteNode idp onD) l s) =
    evicting elementKey (insertedElements s) (s_nodes s) l.
Proof.
  revert s. induction l as [|n l IH]; intros s; [reflexivity|].
  rewrite report_cons, IH. cbn. reflexivity.
Qed.

Lemma deleted_identities (l : list Node) (s : SpliceState U) :
  s_nodesByIdentity (report (_onDidDeleteNode idp onD) l s) =
    match idp with
    | Some getId =>
        evicting (identityKey getId) (insertedElementIds s) (s_nodesByIdentity s) l
    | None => s_nodesByIdentity s
    end.
Proof.
  revert s. induction l as [|n l IH]; intros s.
  { destruct idp; reflexivity. }
  rewrite report_cons, IH. cbn. destruct idp; reflexivity.
Qed.

Lemma deleted_caller (l : list Node) (s : SpliceState U) :
  s_caller (report (_onDidDeleteNode idp onD) l s) = calls onD l (s_caller s).
Proof.
  revert s. induction l as [|n l IH]; intros s; [reflexivity|].
  rewrite report_cons, IH. reflexivity.
Qed.

Lemma evicting_nothing {K} `{Countable K} (key : Node -> K) (t : gmap K nat)
    (l : list Node) :
  evicting key ∅ t l = deleting key t l.
Proof.
  revert t. induction l as [|n l IH]; intros t; [reflexivity|].
  unfold evicting, deleting in *. cbn [foldl]. rewrite IH. reflexivity.
Qed.

(** Whatever the order of the reports, the tables are those of
    [updateTable] and the caller has seen every node once. *)
Lemma tables_after (order : CallbackOrder) (created deleted : list Node)
    (nodes0 : gmap (option T) nat) (ids0 : gmap string nat)
    (heap : list Node) (u : U) :
  let s0 := mkSpliceState nodes0 ids0 ∅ ∅ heap u in
  let s := match order with
           | CreateThenDelete =>
               report (_onDidDeleteNode idp onD) deleted
                 (report (_onDidCreateNode idp onC) created s0)
           | DeleteThenCreate =>
               report (_onDidCreateNode idp onC) created
                 (report (_onDidDeleteNode idp onD) deleted s0)
           end in
  s_nodes s = updateTable elementKey created deleted nodes0 /\
  s_nodesByIdentity s = updateIdentities idp created deleted ids0 /\
  s_caller s = callerAfter order onC onD created deleted u.
Proof.
  cbv zeta. destruct order.
  - rewrite deleted_nodes, deleted_identities, deleted_caller.
    rewrite created_nodes, created_identities, created_caller.
    split; [|split; [|reflexivity]].
    + apply evicting_inserting. intros k. rewrite created_staged.
      cbn. set_solver.
    + unfold updateIdentities. destruct idp as [getId|] eqn:E; [|reflexivity].
      apply evicting_inserting. intros k.
      rewrite <- E, (created_stagedIds getId) by exact E. cbn. set_solver.
  - rewrite created_nodes, created_identities, created_caller.
    rewrite deleted_nodes, deleted_identities, deleted_caller.
    split; [|split; [|reflexivity]].
    + cbn. rewrite evicting_nothing. reflexivity.
    + unfold updateIdentities. destruct idp; [|reflexivity].
      cbn. rewrite evicting_nothing. reflexivity.
Qed.
End Reports.


(** ** What [_setChildren] does *)

Section SetChildrenFacts.
Context {U : Type}.

Lemma createdNodes_next (m : ObjectTreeModel)
    (l : list (LazyElement (SpliceState U))) (f : Node -> SpliceState U -> SpliceState U)
    (s : SpliceState U) :
  (IndexTreeModel.createTreeNodes (model m) f l (IndexTreeModel.next_ref (model m), s)).2.1 =
    IndexTreeModel.next_ref (model m) + length (le_flatten l).
Proof. apply createTreeNodes_refs. Qed.

(** The model after replacing the children of the node at [location]. *)
Theorem _setChildren_spec (m : ObjectTreeModel) (location : list nat)
    (l : list (LazyElement (SpliceState U)))
    (onC onD : option (ITreeNodeCallback U)) (u : U) (parent : ITreeNode) :
  IndexTreeModel.nodeAt location (IndexTreeModel.root (model m)) = Some parent ->
  let created := createdNodes m l onC u in
  let deleted := node_children parent in
  exists kids,
    IndexTreeModel.spliceAt (location ++ [0]) MAX_VALUE created (IndexTreeModel.root (model m))
      = Some (kids, deleted) /\
    IndexTreeModel.nodeAt location kids = Some (withKids parent created) /\
    _setChildren m location l onC onD u =
      (Ok (callerAfter (IndexTreeModel.order (model m)) onC onD
             (flat_map IndexTreeModel.postorder created) (flatten deleted) u),
       mkObjectTreeModel (user m)
         (IndexTreeModel.spliced (model m) kids (IndexTreeModel.next_ref (model m) + length (le_flatten l)))
         (updateTable elementKey (flat_map IndexTreeModel.postorder created)
            (flatten deleted) (nodes m))
         (updateIdentities (identityProvider m) (flat_map IndexTreeModel.postorder created)
            (flatten deleted) (nodesByIdentity m))
         (identityProvider m) (sorter m)).
Proof.
  intros Hparent created deleted.
  destruct (nodeAt_splice location (IndexTreeModel.root (model m)) created parent Hparent)
    as (kids & Hsplice & Hat).
  exists kids. split; [exact Hsplice|]. split; [exact Hat|].
  unfold _setChildren, IndexTreeModel.splice. subst created deleted.
  unfold createdNodes in *.
  pose proof (tables_after (identityProvider m) onC onD (IndexTreeModel.order (model m))) as Ht.
  destruct (IndexTreeModel.order (model m)).
  - set (c := IndexTreeModel.createTreeNodes _ _ _ _) in *. rewrite Hsplice.
    pose proof (createTreeNodes_report (model m)
      (_onDidCreateNode (identityProvider m) onC) l
      (IndexTreeModel.next_ref (model m), spliceState m u)) as Hw.
    pose proof (createdNodes_next m l
      (_onDidCreateNode (identityProvider m) onC) (spliceState m u)) as Hn.
    fold c in Hw, Hn. cbn [snd] in Hw. rewrite Hw, Hn.
    destruct (Ht (flat_map IndexTreeModel.postorder c.1) (flatten (node_children parent))
      (nodes m) (nodesByIdentity m) (flatten (IndexTreeModel.root (model m))) u)
      as (H1 & H2 & H3).
    unfold spliceState. rewrite H1, H2, H3. reflexivity.
  - set (c := IndexTreeModel.createTreeNodes _ _ _ _) in *. rewrite Hsplice.
    pose proof (createdNodes_next m l silent (spliceState m u)) as Hn.
    fold c in Hn. rewrite Hn.
    destruct (Ht (flat_map IndexTreeModel.postorder c.1) (flatten (node_children parent))
      (nodes m) (nodesByIdentity m) (flatten (IndexTreeModel.root (model m))) u)
      as (H1 & H2 & H3).
    unfold spliceState. rewrite H1, H2, H3. reflexivity.
Qed.

Lemma _setChildren_invalid (m : ObjectTreeModel) (location : list nat)
    (l : list (LazyElement (SpliceState U)))
    (onC onD : option (ITreeNodeCallback U)) (u : U) :
  IndexTreeModel.nodeAt location (IndexTreeModel.root (model m)) = None ->
  _setChildren m location l onC onD u = (IndexTreeModel.throw (model m), m).
Proof.
  intros H. unfold _setChildren, IndexTreeModel.splice.
  destruct (IndexTreeModel.order (model m)); rewrite nodeAt_splice_None by exact H;
    reflexivity.
Qed.
End SetChildrenFacts.


(** ** Well-formed models stay well-formed *)

Lemma nref_shallow (l : list Node) : map nref l = map fst (map shallow l).
Proof. rewrite map_map. reflexivity. Qed.

Lemma elem_of_shallow (l l' : list Node) (n : Node) :
  n ∈ l -> map shallow l ⊆ map shallow l' ->
  exists n', n' ∈ l' /\ nref n' = nref n /\ element n' = element n.
Proof.
  intros Hn Hsub.
  destruct (elem_of_map_inv shallow l' (shallow n)) as (n' & E & Hn').
  { apply Hsub, elem_of_map, Hn. }
  exists n'. injection E as E1 E2. auto.
Qed.

Section Spliced.
Context (location : list nat) (created kids kids' deleted : list Node).
Context (next : nat).
Hypothesis Hsplice :
  IndexTreeModel.spliceAt location MAX_VALUE created kids = Some (kids', deleted).
Hypothesis Hrefs : map nref (flatten created) = seq next (length (flatten created)).
Hypothesis Hnodup : NoDup (map nref (flatten kids)).
Hypothesis Hbound : Forall (fun n => nref n < next) (flatten kids).

Lemma spliced_shallow :
  exists surviving,
    map shallow (flatten kids) ≡ₚ surviving ++ map shallow (flatten deleted) /\
    map shallow (flatten kids') ≡ₚ surviving ++ map shallow (flatten created).
Proof.
  destruct location as [|i rest]; [discriminate|].
  eapply spliceBelow_shallow, Hsplice.
Qed.

Lemma spliced_created (n : Node) : n ∈ flatten created -> n ∈ flatten kids'.
Proof.
  destruct location as [|i rest]; [discriminate|].
  eapply spliceBelow_inserted, Hsplice.
Qed.

Lemma surviving_not_deleted (surv : list (nat * T)) (x : nat * T) :
  map shallow (flatten kids) ≡ₚ surv ++ map shallow (flatten deleted) ->
  x ∈ surv -> x ∉ map shallow (flatten deleted).
Proof.
  intros H1 Hin Hdel.
  assert (Hnd : NoDup (map fst (surv ++ map shallow (flatten deleted)))).
  { rewrite <- H1, <- nref_shallow. exact Hnodup. }
  rewrite map_app in Hnd. apply NoDup_app in Hnd as (_ & Hdisj & _).
  apply (Hdisj (fst x)); apply (elem_of_map fst); assumption.
Qed.

(** A node of the tree after the splice has the identity and the element
    of a created node, or of a node of the tree before that has not been
    deleted. *)
Lemma spliced_live (n' : Node) :
  n' ∈ flatten kids' ->
  (exists c, c ∈ flatten created /\ shallow c = shallow n') \/
  (exists n, n ∈ flatten kids /\ shallow n = shallow n' /\
     shallow n ∉ map shallow (flatten deleted)).
Proof.
  intros Hn'. destruct spliced_shallow as (surv & H1 & H2).
  assert (Hin : shallow n' ∈ surv ++ map shallow (flatten created)).
  { rewrite <- H2. apply elem_of_map, Hn'. }
  apply elem_of_app in Hin as [Hin|Hin].
  - right.
    assert (Hold : shallow n' ∈ map shallow (flatten kids)).
    { rewrite H1. apply elem_of_app. left. exact Hin. }
    apply elem_of_map_inv in Hold as (n & E & Hn).
    exists n. split; [exact Hn|]. split; [symmetry; exact E|].
    rewrite <- E. eapply surviving_not_deleted; eauto.
  - left. apply elem_of_map_inv in Hin as (c & E & Hc). eauto.
Qed.

(** A node of the tree before the splice has been deleted or is still
    there, with other children perhaps. *)
Lemma spliced_old (n : Node) :
  n ∈ flatten kids ->
  shallow n ∈ map shallow (flatten deleted) \/
  (exists n', n' ∈ flatten kids' /\ shallow n' = shallow n).
Proof.
  intros Hn. destruct spliced_shallow as (surv & H1 & H2).
  assert (Hin : shallow n ∈ surv ++ map shallow (flatten deleted)).
  { rewrite <- H1. apply elem_of_map, Hn. }
  apply elem_of_app in Hin as [Hin|Hin]; [right|left; exact Hin].
  assert (Hnew : shallow n ∈ map shallow (flatten kids')).
  { rewrite H2. apply elem_of_app. left. exact Hin. }
  apply elem_of_map_inv in Hnew as (n' & E & Hn'). eauto.
Qed.

Lemma spliced_NoDup : NoDup (map nref (flatten kids')).
Proof.
  destruct spliced_shallow as (surv & H1 & H2).
  rewrite nref_shallow, H2, map_app, <- nref_shallow.
  assert (Hnd : NoDup (map fst (surv ++ map shallow (flatten deleted)))).
  { rewrite <- H1, <- nref_shallow. exact Hnodup. }
  rewrite map_app in Hnd. apply NoDup_app in Hnd as (Hs & _ & _).
  apply NoDup_app. split; [exact Hs|]. split; [|rewrite Hrefs; apply NoDup_seq].
  intros r Hr Hr'. rewrite Hrefs in Hr'. apply elem_of_seq in Hr'.
  assert (Hold : r ∈ map nref (flatten kids)).
  { rewrite nref_shallow, H1, map_app. apply elem_of_app. left. exact Hr. }
  apply elem_of_map_inv in Hold as (n & -> & Hn).
  rewrite Forall_forall in Hbound. specialize (Hbound n Hn). lia.
Qed.

Lemma spliced_bound :
  Forall (fun n => nref n < next + length (flatten created)) (flatten kids').
Proof.
  apply Forall_forall. intros n' Hn'.
  destruct (spliced_live n' Hn') as [(c & Hc & E)|(n & Hn & E & _)];
    injection E as E _; rewrite <- E.
  - assert (Hr : nref c ∈ map nref (flatten created)) by apply elem_of_map, Hc.
    rewrite Hrefs in Hr. apply elem_of_seq in Hr. lia.
  - rewrite Forall_forall in Hbound. specialize (Hbound n Hn). lia.
Qed.

(** The entries of a table still point at nodes of the tree. *)
Lemma spliced_pointsAt {K} `{Countable K} (key : T -> K) (t : gmap K nat) :
  pointsAt (fun n => key (element n)) (flatten kids) t ->
  pointsAt (fun n => key (element n)) (flatten kids')
    (updateTable (fun n => key (element n))
       (flat_map IndexTreeModel.postorder created) (flatten deleted) t).
Proof.
  intros Hold k r Hk. unfold updateTable in Hk.
  set (key' := fun n => key (element n)) in *.
  destruct (decide (k ∈ map key' (flat_map IndexTreeModel.postorder created)))
    as [Hin|Hout].
  - destruct (lookup_inserting_some key' (deleting key' t (flatten deleted))
                _ k Hin) as (n & Hn & Hkey & Hlook).
    rewrite Hlook in Hk. injection Hk as <-.
    exists n. split; [|auto]. apply spliced_created.
    rewrite <- postorder_flatten. exact Hn.
  - rewrite lookup_inserting_notin, lookup_deleting in Hk by exact Hout.
    destruct (decide (k ∈ map key' (flatten deleted))) as [|Hnd]; [discriminate|].
    destruct (Hold k r Hk) as (n & Hn & Hr & Hkey).
    destruct (spliced_old n Hn) as [Hdel|(n' & Hn' & E)].
    + exfalso. apply Hnd. apply elem_of_map_inv in Hdel as (d & E & Hd).
      injection E as _ E. rewrite <- Hkey. unfold key'. rewrite E.
      apply (elem_of_map key'), Hd.
    + injection E as E1 E2. exists n'. split; [exact Hn'|].
      unfold key' in *. rewrite E1, E2. auto.
Qed.
End Spliced.

Section WellFormed.
Context {U : Type}.

Lemma createdNodes_refs (m : ObjectTreeModel)
    (l : list (LazyElement (SpliceState U)))
    (onC : option (ITreeNodeCallback U)) (u : U) :
  map nref (flatten (createdNodes m l onC u)) =
    seq (IndexTreeModel.next_ref (model m)) (length (le_flatten l)).
Proof.
  unfold createdNodes. destruct (IndexTreeModel.order (model m));
    apply createTreeNodes_refs.
Qed.

Lemma createdNodes_length (m : ObjectTreeModel)
    (l : list (LazyElement (SpliceState U)))
    (onC : option (ITreeNodeCallback U)) (u : U) :
  length (flatten (createdNodes m l onC u)) = length (le_flatten l).
Proof.
  rewrite <- (length_map nref), createdNodes_refs, length_seq. reflexivity.
Qed.

Lemma getElementLocation_node (m : ObjectTreeModel) (e : option T)
    (location : list nat) :
  getElementLocation m e = Ok location ->
  exists parent,
    IndexTreeModel.nodeAt location (IndexTreeModel.root (model m)) = Some parent /\
    match e with
    | None => location = [] /\ parent = RootNode (IndexTreeModel.root (model m))
    | Some el =>
        exists n, parent = ElementNode n /\ n ∈ liveNodes m /\
          nodes m !! Some el = Some (nref n)
    end.
Proof.
  destruct e as [el|]; cbn.
  - destruct (nodes m !! Some el) as [r|] eqn:E; [|discriminate].
    unfold IndexTreeModel.getNodeLocation.
    destruct (IndexTreeModel.locateAmong r 0 _) as [p|] eqn:El; [|discriminate].
    intros [= <-].
    destruct (locateAmong_sound _ _ _ _ El) as (j & rest & n & -> & Hn & Hr).
    exists (ElementNode n). cbn. rewrite Hn. split; [reflexivity|].
    exists n. split; [reflexivity|]. split; [|rewrite Hr; reflexivity].
    eapply lookup_descend_elem, Hn.
  - intros [= <-]. eexists. split; [reflexivity|auto].
Qed.

Theorem wellFormed__setChildren (m m' : ObjectTreeModel) (location : list nat)
    (l : list (LazyElement (SpliceState U)))
    (onC onD : option (ITreeNodeCallback U)) (u : U) (r : Result U) :
  wellFormed m ->
  _setChildren m location l onC onD u = (r, m') -> wellFormed m'.
Proof.
  intros Hwf Hset.
  destruct (IndexTreeModel.nodeAt location (IndexTreeModel.root (model m)))
    as [parent|] eqn:Hat.
  2:{ rewrite _setChildren_invalid in Hset by exact Hat.
      injection Hset as _ <-. exact Hwf. }
  destruct (_setChildren_spec m location l onC onD u parent Hat)
    as (kids & Hsplice & _ & Heq).
  rewrite Heq in Hset. injection Hset as _ <-.
  destruct Hwf as ((Hnd & Hb) & Hp1 & Hp2).
  pose proof (createdNodes_refs m l onC u) as Hrefs.
  rewrite <- (createdNodes_length m l onC u) in Hrefs.
  split; [split|split]; cbn.
  - eapply spliced_NoDup; eauto.
  - rewrite <- (createdNodes_length m l onC u). eapply spliced_bound; eauto.
  - unfold liveNodes. cbn.
    apply (spliced_pointsAt _ _ _ _ _ Hsplice Some _ Hp1).
  - unfold liveNodes, updateIdentities. cbn.
    destruct (identityProvider m) as [getId|]; [|exact I].
    apply (spliced_pointsAt _ _ _ _ _ Hsplice getId _ Hp2).
Qed.

Theorem wellFormed_setChildren (m m' : ObjectTreeModel) (e : option T)
    (children : option (list ITreeElement))
    (onC onD : option (ITreeNodeCallback U)) (u : U) (r : Result U) :
  wellFormed m ->
  setChildren m e children onC onD u = (r, m') -> wellFormed m'.
Proof.
  intros Hwf. unfold setChildren.
  destruct (getElementLocation m e) as [location|err].
  - apply wellFormed__setChildren, Hwf.
  - intros [= _ <-]. exact Hwf.
Qed.

Corollary wellFormed_after_setChildren (m : ObjectTreeModel) (e : option T)
    (children : option (list ITreeElement))
    (onC onD : option (ITreeNodeCallback U)) (u : U) :
  wellFormed m -> wellFormed (setChildren m e children onC onD u).2.
Proof.
  intros Hwf. eapply wellFormed_setChildren; [exact Hwf|].
  apply surjective_pairing.
Qed.
End WellFormed.

Theorem wellFormed_resort (m m' : ObjectTreeModel) (e : option T)
    (recursive : bool) (r : Result unit) :
  wellFormed m -> resort m e recursive = (r, m') -> wellFormed m'.
Proof.
  intros Hwf. unfold resort. destruct (sorter m); [|intros [= _ <-]; exact Hwf].
  destruct (getElementLocation m e) as [location|err];
    [|intros [= _ <-]; exact Hwf].
  destruct (IndexTreeModel.getNode (model m) location) as [node|err];
    [|intros [= _ <-]; exact Hwf].
  apply wellFormed__setChildren, Hwf.
Qed.

Theorem wellFormed_create (user : string) (order : CallbackOrder)
    (collapsibleByDefault collapseByDefault : bool)
    (sorter : option (T -> T -> Z)) (identityProvider : option (T -> string)) :
  wellFormed (create user order collapsibleByDefault collapseByDefault sorter
                identityProvider).
Proof.
  split; [split; cbn; constructor|].
  split; [intros k r H; cbn in H; rewrite lookup_empty in H; discriminate|].
  cbn. destruct identityProvider; [|exact I].
  intros k r H. cbn in H. rewrite lookup_empty in H. discriminate.
Qed.


(** ** Errors *)

Lemma getElementLocation_absent (m : ObjectTreeModel) (e : T) :
  nodes m !! Some e = None -> getElementLocation m (Some e) = TreeNotFound m e.
Proof. intros H. cbn. rewrite H. reflexivity. Qed.

(** C8, as amended: an operation given an element that the element table
    does not hold throws the tree error for that element and leaves the
    model as it was; [getParentNodeLocation] throws on the root sentinel
    too.  [resort] does so when a sorter is configured: without one it
    returns at once, without an error and without a change. *)
Theorem absent_element_throws `{EngineOperations} {U : Type}
    (m : ObjectTreeModel) (e : T) (children : option (list ITreeElement))
    (onDidCreateNode onDidDeleteNode : option (ITreeNodeCallback U)) (u : U)
    (flag recursive : option bool) (deep : bool) :
  nodes m !! Some e = None ->
  let err := mkTreeError (user m) (ElementNotFound e) in
  setChildren m (Some e) children onDidCreateNode onDidDeleteNode u = (Throw err, m) /\
  rerender m (Some e) = (Throw err, m) /\
  (sorter m <> None -> resort m (Some e) deep = (Throw err, m)) /\
  (sorter m = None -> resort m (Some e) deep = (Ok tt, m)) /\
  isCollapsed m (Some e) = Throw err /\
  setCollapsed m (Some e) flag recursive = (Throw err, m) /\
  isCollapsible m (Some e) = Throw err /\
  setCollapsible m (Some e) flag = (Throw err, m) /\
  expandTo m (Some e) = (Throw err, m) /\
  getNode m (Some e) = Throw err /\
  getParentNodeLocation m (Some e) = Throw err /\
  getListIndex m (Some e) = Throw err /\
  getListRenderCount m (Some e) = Throw err /\
  getFirstElementChild m (Some e) = Throw err /\
  getLastElementAncestor m (Some e) = Throw err /\
  getParentNodeLocation m None = Throw (mkTreeError (user m) InvalidParentCall).
Proof.
  intros Habsent err.
  pose proof (getElementLocation_absent m e Habsent) as Hloc.
  unfold setChildren, rerender, setCollapsed, setCollapsible, expandTo,
    forward, isCollapsed, isCollapsible, getListIndex, getListRenderCount,
    getFirstElementChild, getLastElementAncestor, query, resort.
  rewrite Hloc. cbn. rewrite Habsent. cbn.
  repeat split; try reflexivity.
  - destruct (sorter m); [reflexivity|contradiction].
  - intros ->. reflexivity.
Qed.

Lemma absent_element_throws_witness :
  nodes emptyModel !! Some 7 = None /\
  isCollapsed emptyModel (Some 7) =
    Throw (mkTreeError "tree" (ElementNotFound 7)) /\
  getParentNodeLocation emptyModel None =
    Throw (mkTreeError "tree" InvalidParentCall).
Proof.
  pose proof (absent_element_throws (U := unit) emptyModel 7 None None None tt
                None None true) as H.
  cbv zeta in H. specialize (H eq_refl).
  split; [reflexivity|]. split; apply H.
Defined.

(** C8 as stated fails: without a sorter, [resort] of an absent element
    returns without an error. *)
Lemma resort_absent_no_error :
  ~ (forall (m : ObjectTreeModel) (e : T) (recursive : bool),
       nodes m !! Some e = None ->
       exists err, (resort m (Some e) recursive).1 = Throw err).
Proof.
  intros H. destruct (H emptyModel 7 true eq_refl) as [err Herr].
  discriminate Herr.
Qed.


(** ** Looking nodes up *)

Lemma NoDup_nref_eq (l : list Node) (a b : Node) :
  NoDup (map nref l) -> a ∈ l -> b ∈ l -> nref a = nref b -> a = b.
Proof.
  induction l as [|c l IH]; intros Hnd Ha Hb E; [inversion Ha|].
  cbn in Hnd. apply NoDup_cons in Hnd as [Hc Hnd].
  apply elem_of_cons in Ha as [->|Ha]; apply elem_of_cons in Hb as [->|Hb].
  - reflexivity.
  - exfalso. apply Hc. rewrite E. apply elem_of_map, Hb.
  - exfalso. apply Hc. rewrite <- E. apply elem_of_map, Ha.
  - apply IH; assumption.
Qed.

Lemma deref_sound (heap : list Node) (ref : nat) (n : Node) :
  deref heap ref = Some n -> n ∈ heap /\ nref n = ref.
Proof.
  unfold deref. intros H. apply find_some in H as [H1 H2].
  split; [apply list_elem_of_In, H1|]. apply Nat.eqb_eq, H2.
Qed.

Lemma deref_live (heap : list Node) (n : Node) :
  NoDup (map nref heap) -> n ∈ heap -> deref heap (nref n) = Some n.
Proof.
  intros Hnd Hn. destruct (deref heap (nref n)) as [n'|] eqn:E.
  - apply deref_sound in E as [H1 H2]. f_equal.
    apply (NoDup_nref_eq heap); assumption.
  - unfold deref in E. apply list_elem_of_In in Hn.
    pose proof (find_none _ _ E n Hn) as Hf. cbn in Hf.
    rewrite Nat.eqb_refl in Hf. discriminate.
Qed.

(** The location of a node of a well-formed tree leads to that node. *)
Lemma getNodeLocation_live (e : IndexTreeModel.t) (n : Node) :
  engine_wf e -> n ∈ flatten (IndexTreeModel.root e) ->
  exists location,
    IndexTreeModel.getNodeLocation e (nref n) = Ok location /\
    IndexTreeModel.nodeAt location (IndexTreeModel.root e) = Some (ElementNode n).
Proof.
  intros [Hnd _] Hn. unfold IndexTreeModel.getNodeLocation.
  destruct (locateAmong_complete (nref n) 0 _ n Hn eq_refl) as [p Hp].
  rewrite Hp. exists p. split; [reflexivity|].
  destruct (locateAmong_sound _ _ _ _ Hp) as (j & rest & n' & -> & H1 & H2).
  cbn. rewrite H1. cbn. do 2 f_equal.
  apply (NoDup_nref_eq _ _ _ Hnd); [|exact Hn|exact H2].
  eapply lookup_descend_elem, H1.
Qed.

(** The collapse state of an element whose entry points at a node of the
    tree is the state of that node. *)
Lemma collapse_state_of (m : ObjectTreeModel) (e : T) (n : Node) :
  engine_wf (model m) -> n ∈ liveNodes m ->
  nodes m !! Some e = Some (nref n) ->
  isCollapsed m (Some e) = Ok (collapsed n) /\
  isCollapsible m (Some e) = Ok (collapsible n).
Proof.
  intros Hwf Hn He.
  destruct (getNodeLocation_live (model m) n Hwf Hn) as (p & Hp & Hat).
  unfold isCollapsed, isCollapsible, getElementLocation. rewrite He, Hp. cbn.
  unfold IndexTreeModel.isCollapsed, IndexTreeModel.isCollapsible.
  rewrite Hat. auto.
Qed.

(** C10: [getNodeLocation] undoes [getNode]: for an element that the model
    has, and for the root sentinel, the location of the node that
    [getNode] returns is the element again.  The model is well-formed, as
    every model is that [setChildren] and [resort] make of a new one. *)
Theorem getNodeLocation_getNode (m : ObjectTreeModel) :
  wellFormed m ->
  (forall e : T, has m (Some e) = true ->
     exists node, getNode m (Some e) = Ok node /\ getNodeLocation node = Some e) /\
  (exists node, getNode m None = Ok node /\ getNodeLocation node = None).
Proof.
  intros ((Hnd & _) & Hp & _). split.
  - intros e He. unfold has in He. apply bool_decide_eq_true in He as [r Hr].
    destruct (Hp _ _ Hr) as (n & Hn & Href & Hkey).
    exists (ElementNode n). unfold getNode. rewrite Hr. cbn.
    rewrite <- Href, (deref_live _ n Hnd Hn). split; [reflexivity|].
    exact Hkey.
  - eexists. split; reflexivity.
Qed.

Lemma getNodeLocation_getNode_witness :
  wellFormed abc /\
  has abc (Some 3) = true /\
  exists node, getNode abc (Some 3) = Ok node /\ getNodeLocation node = Some 3.
Proof.
  assert (Hwf : wellFormed abc).
  { apply wellFormed_after_setChildren, wellFormed_create. }
  split; [exact Hwf|]. split; [reflexivity|].
  apply (getNodeLocation_getNode abc Hwf). reflexivity.
Defined.


(** ** Clearing the children of a node *)

Lemma preserveCollapseState_undefined {U} (idp : option (T -> string))
    (sorter : option (T -> T -> Z)) :
  preserveCollapseState (U := U) idp sorter None = [].
Proof. unfold preserveCollapseState, sortWith. destruct sorter; reflexivity. Qed.

Lemma createdNodes_nil {U} (m : ObjectTreeModel)
    (onC : option (ITreeNodeCallback U)) (u : U) :
  createdNodes m [] onC u = [].
Proof. unfold createdNodes. destruct (IndexTreeModel.order (model m)); reflexivity. Qed.

Lemma callerAfter_nil {U} (order : CallbackOrder)
    (onC onD : option (ITreeNodeCallback U)) (deleted : list Node) (u : U) :
  callerAfter order onC onD [] deleted u = calls onD deleted u.
Proof. destruct order; reflexivity. Qed.

(** The callback applied to the nodes of a list, one after the other. *)
Lemma calls_eq {U} (callback : option (ITreeNodeCallback U)) (l : list Node)
    (u : U) :
  calls callback l u =
    match callback with
    | Some f => foldl (fun u n => f n u) u l
    | None => u
    end.
Proof.
  unfold calls, call. destruct callback; [reflexivity|].
  revert u. induction l as [|n l IH]; intros u; [reflexivity|apply IH].
Qed.

(** The node objects below a node of the tree are distinct. *)
Lemma NoDup_child (l : list Node) (i : nat) (c : Node) :
  NoDup (map nref (flatten l)) -> l !! i = Some c ->
  NoDup (map nref (subtree c)).
Proof.
  intros Hnd Hi. destruct (flatten_insert l i c c Hi) as [E _].
  rewrite E, !map_app in Hnd.
  apply NoDup_app in Hnd as (_ & _ & Hnd).
  apply NoDup_app in Hnd as (Hnd & _). exact Hnd.
Qed.

Lemma descend_NoDup (path : list nat) :
  forall n a,
    NoDup (map nref (subtree n)) ->
    IndexTreeModel.descend path n = Some a ->
    NoDup (map nref (subtree a)).
Proof.
  induction path as [|i rest IH]; intros n a Hnd H.
  - cbn in H. injection H as <-. exact Hnd.
  - cbn in H. destruct (children n !! i) as [c|] eqn:Hc; [|discriminate].
    cbn in H. apply (IH c a); [|exact H].
    rewrite subtree_eq in Hnd. cbn [map] in Hnd. apply NoDup_cons in Hnd as [_ Hnd].
    apply (NoDup_child _ _ _ Hnd Hc).
Qed.

Lemma nodeAt_NoDup (location : list nat) (kids : list Node) (node : ITreeNode) :
  NoDup (map nref (flatten kids)) ->
  IndexTreeModel.nodeAt location kids = Some node ->
  NoDup (map nref (flatten (node_children node))).
Proof.
  intros Hnd H. destruct location as [|i rest].
  - cbn in H. injection H as <-. exact Hnd.
  - cbn in H. destruct (kids !! i) as [c|] eqn:Hc; [|discriminate].
    cbn in H. destruct (IndexTreeModel.descend rest c) as [a|] eqn:Ha; [|discriminate].
    cbn in H. injection H as <-. cbn [node_children].
    pose proof (descend_NoDup rest c a (NoDup_child _ _ _ Hnd Hc) Ha) as Hs.
    rewrite subtree_eq in Hs. cbn [map] in Hs. apply NoDup_cons in Hs as [_ Hs].
    exact Hs.
Qed.

(** C9: [setChildren(parent, undefined)] on a parent that the model has
    removes every node below the parent, at any depth, and inserts
    nothing.  The caller's deletion callback is applied to the removed
    nodes one after the other, a node before the nodes below it, and to
    nothing else: what the call returns is the caller's state after these
    applications.  In a well-formed model the removed nodes are distinct
    node objects, so the callback is applied once for each.  Afterwards
    the parent has no children, and the model has none of the removed
    elements. *)
Theorem setChildren_undefined_clears {U : Type} (m : ObjectTreeModel)
    (parent : option T) (location : list nat)
    (onDidCreateNode onDidDeleteNode : option (ITreeNodeCallback U)) (u : U) :
  getElementLocation m parent = Ok location ->
  exists node m',
    IndexTreeModel.getNode (model m) location = Ok node /\
    setChildren m parent None onDidCreateNode onDidDeleteNode u =
      (Ok match onDidDeleteNode with
          | Some f => foldl (fun u n => f n u) u (flatten (node_children node))
          | None => u
          end, m') /\
    (wellFormed m -> NoDup (map nref (flatten (node_children node)))) /\
    IndexTreeModel.getNode (model m') location = Ok (withKids node []) /\
    forall c, c ∈ flatten (node_children node) -> has m' (Some (element c)) = false.
Proof.
  intros Hloc.
  destruct (getElementLocation_node _ _ _ Hloc) as (node & Hat & _).
  destruct (_setChildren_spec m location [] onDidCreateNode onDidDeleteNode u
              node Hat) as (kids & _ & Hat' & Heq).
  rewrite createdNodes_nil in Heq, Hat'. cbn [flat_map] in Heq.
  rewrite callerAfter_nil in Heq.
  eexists node, _. split; [|split; [|split; [|split]]].
  - unfold IndexTreeModel.getNode. rewrite Hat. reflexivity.
  - unfold setChildren.
    rewrite Hloc, preserveCollapseState_undefined, Heq, calls_eq. reflexivity.
  - intros (Hwf & _). apply (nodeAt_NoDup location _ node (proj1 Hwf) Hat).
  - unfold IndexTreeModel.getNode. cbn [model IndexTreeModel.spliced IndexTreeModel.root].
    rewrite Hat'. reflexivity.
  - intros c Hc. unfold has. cbn [nodes]. apply bool_decide_eq_false.
    unfold updateTable. cbn [inserting foldl]. rewrite lookup_deleting.
    rewrite decide_True; [intros [? ?]; discriminate|].
    apply (elem_of_map elementKey), Hc.
Qed.

(** On the example: the tree [12], [30] with [15] and [21] below [30] is
    cleared at the root; the callback sees the four nodes once each, a
    parent before its children. *)
Lemma setChildren_undefined_clears_witness :
  getElementLocation family None = Ok [] /\
  wellFormed family /\
  (setChildren family None None None
     (Some (fun n (log : list T) => log ++ [element n])) []).1
    = Ok [12; 30; 15; 21] /\
  (setChildren family (Some 30) None None
     (Some (fun n (log : list T) => log ++ [element n])) []).1
    = Ok [15; 21] /\
  exists node m',
    IndexTreeModel.getNode (model family) [] = Ok node /\
    setChildren family None None None
      (Some (fun n (log : list T) => log ++ [element n])) [] =
      (Ok (foldl (fun (log : list T) n => log ++ [element n]) []
             (flatten (node_children node))), m') /\
    (wellFormed family -> NoDup (map nref (flatten (node_children node)))) /\
    IndexTreeModel.getNode (model m') [] = Ok (withKids node []) /\
    forall c, c ∈ flatten (node_children node) -> has m' (Some (element c)) = false.
Proof.
  split; [reflexivity|].
  split; [apply wellFormed_after_setChildren, wellFormed_create|].
  split; [vm_compute; reflexivity|]. split; [vm_compute; reflexivity|].
  apply (setChildren_undefined_clears family None [] None
           (Some (fun n (log : list T) => log ++ [element n])) []).
  reflexivity.
Defined.


(** ** The descriptions of a call and the nodes made of them *)

Lemma ITreeElement_forall_ind (P : ITreeElement -> Prop) :
  (forall e kids c1 c2, Forall P (sequence kids) -> P (TreeElement e kids c1 c2)) ->
  forall te, P te.
Proof.
  intros step. fix IH 1. intros [e kids c1 c2]. apply step.
  destruct kids as [l|]; [|constructor].
  induction l as [|c l IHl]; constructor; [apply IH|exact IHl].
Qed.

Lemma te_subtree_eq (te : ITreeElement) :
  te_subtree te = te :: te_flatten (sequence (te_children te)).
Proof. destruct te as [e [l|] c1 c2]; reflexivity. Qed.

Section Elements.
Context {W : Type} (m : IndexTreeModel.t) (f : Node -> W -> W).

Lemma createTreeNodes_elements_with (l : list (LazyElement W)) :
  Forall (fun le => forall s,
    map element (subtree (IndexTreeModel.createTreeNode m f le s).1) =
      map le_element (le_subtree le)) l ->
  forall s, map element (flatten (IndexTreeModel.createTreeNodes m f l s).1) =
    map le_element (le_flatten l).
Proof.
  induction 1 as [|le l Hle _ IH]; intros s; [reflexivity|].
  rewrite createTreeNodes_cons. cbn [fst].
  rewrite flatten_cons_subtree, le_flatten_cons, !map_app, Hle, IH.
  reflexivity.
Qed.

Lemma createTreeNode_elements (le : LazyElement W) (s : nat * W) :
  map element (subtree (IndexTreeModel.createTreeNode m f le s).1) =
    map le_element (le_subtree le).
Proof.
  revert s. induction le as [e st kids IH] using LazyElement_forall_ind.
  intros s. rewrite createTreeNode_eq. cbn [fst].
  rewrite subtree_eq, le_subtree_eq. cbn [map]. f_equal.
  apply (createTreeNodes_elements_with kids IH).
Qed.

Lemma createTreeNodes_elements (l : list (LazyElement W)) (s : nat * W) :
  map element (flatten (IndexTreeModel.createTreeNodes m f l s).1) =
    map le_element (le_flatten l).
Proof.
  apply createTreeNodes_elements_with, Forall_forall.
  intros le _. apply createTreeNode_elements.
Qed.
End Elements.

Section Descriptions.
Context {U : Type} (idp : option (T -> string)) (sorter : option (T -> T -> Z)).

Lemma sortWith_mergeSort_perm {W} (l : list (LazyElement W)) :
  sortWith sorter mergeSort l ≡ₚ l.
Proof. unfold sortWith. destruct sorter; [apply mergeSort_perm|reflexivity]. Qed.

Lemma le_flatten_perm {W} (l l' : list (LazyElement W)) :
  l ≡ₚ l' -> le_flatten l ≡ₚ le_flatten l'.
Proof. apply Permutation_flat_map. Qed.

Lemma preserveElement_eq (te : ITreeElement) :
  preserveElement (U := U) idp sorter te =
    Lazy (te_element te) (preservedState idp te)
      (preserveCollapseState idp sorter (te_children te)).
Proof. destruct te as [e [l|] c1 c2]; reflexivity. Qed.

Lemma preserve_flatten_with (l : list ITreeElement) :
  Forall (fun te =>
    le_subtree (preserveElement (U := U) idp sorter te) ≡ₚ
      map (preserveElement idp sorter) (te_subtree te)) l ->
  le_flatten (sortWith sorter mergeSort (map (preserveElement (U := U) idp sorter) l))
    ≡ₚ map (preserveElement idp sorter) (te_flatten l).
Proof.
  intros H.
  rewrite (le_flatten_perm _ _
             (sortWith_mergeSort_perm (map (preserveElement idp sorter) l))).
  induction H as [|te l Hte _ IH]; [reflexivity|].
  cbn [map]. rewrite le_flatten_cons. unfold te_flatten. cbn [flat_map].
  rewrite map_app, Hte, IH. reflexivity.
Qed.

Lemma preserveElement_subtree (te : ITreeElement) :
  le_subtree (preserveElement (U := U) idp sorter te) ≡ₚ
    map (preserveElement idp sorter) (te_subtree te).
Proof.
  induction te as [e kids c1 c2 IH] using ITreeElement_forall_ind.
  rewrite le_subtree_eq, te_subtree_eq, preserveElement_eq.
  cbn [le_children te_children map]. rewrite <- preserveElement_eq.
  apply perm_skip. apply (preserve_flatten_with _ IH).
Qed.

Lemma preserveCollapseState_flatten (children : option (list ITreeElement)) :
  le_flatten (preserveCollapseState (U := U) idp sorter children) ≡ₚ
    map (preserveElement idp sorter) (te_flatten (sequence children)).
Proof.
  apply preserve_flatten_with, Forall_forall.
  intros te _. apply preserveElement_subtree.
Qed.

Lemma preserveCollapseState_keys {K} (key : T -> K)
    (children : option (list ITreeElement)) :
  keysOf key (preserveCollapseState (U := U) idp sorter children) ≡ₚ
    map (fun te => key (te_element te)) (te_flatten (sequence children)).
Proof.
  unfold keysOf. rewrite preserveCollapseState_flatten, map_map.
  erewrite map_ext; [reflexivity|]. intros te.
  rewrite preserveElement_eq. reflexivity.
Qed.
End Descriptions.


(** ** The entries of recreated keys *)

Section Recreated.
Context {U : Type}.

Lemma createdNodes_elements (m : ObjectTreeModel)
    (l : list (LazyElement (SpliceState U)))
    (onC : option (ITreeNodeCallback U)) (u : U) :
  map element (flatten (createdNodes m l onC u)) = map le_element (le_flatten l).
Proof.
  unfold createdNodes. destruct (IndexTreeModel.order (model m));
    apply createTreeNodes_elements.
Qed.

(** Every description of the call has a created node under its key. *)
Lemma created_key {K} (key : T -> K) (m : ObjectTreeModel)
    (children : option (list ITreeElement))
    (onC : option (ITreeNodeCallback U)) (u : U) (te : ITreeElement) :
  te ∈ te_flatten (sequence children) ->
  key (te_element te) ∈
    map (fun n => key (element n))
      (flat_map IndexTreeModel.postorder
         (createdNodes m
            (preserveCollapseState (identityProvider m) (sorter m) children)
            onC u)).
Proof.
  intros Hte. rewrite postorder_flatten.
  rewrite <- (map_map element key), createdNodes_elements, map_map.
  change (map (fun le => key (le_element le)) (le_flatten ?l)) with (keysOf key l).
  rewrite preserveCollapseState_keys.
  apply (elem_of_map (fun te => key (te_element te))), Hte.
Qed.

(** The entry of a key that the call creates points at a node that the
    call has created under that key and that is in the tree. *)
Lemma recreated_entry {K} `{Countable K} (key : T -> K) (m : ObjectTreeModel)
    (location : list nat) (parent : ITreeNode)
    (children : option (list ITreeElement))
    (onC : option (ITreeNodeCallback U)) (u : U) (kids : list Node)
    (t : gmap K nat) (te : ITreeElement) :
  let created :=
    createdNodes m
      (preserveCollapseState (identityProvider m) (sorter m) children) onC u in
  engine_wf (model m) ->
  IndexTreeModel.spliceAt (location ++ [0]) MAX_VALUE created
    (IndexTreeModel.root (model m)) = Some (kids, node_children parent) ->
  te ∈ te_flatten (sequence children) ->
  exists n,
    updateTable (fun n => key (element n))
      (flat_map IndexTreeModel.postorder created)
      (flatten (node_children parent)) t !! key (te_element te)
      = Some (nref n) /\
    deref (flatten kids) (nref n) = Some n /\
    key (element n) = key (te_element te) /\
    IndexTreeModel.next_ref (model m) <= nref n.
Proof.
  intros created [Hnd Hb] Hsplice Hte.
  destruct (lookup_inserting_some (fun n => key (element n))
              (deleting (fun n => key (element n)) t
                 (flatten (node_children parent)))
              (flat_map IndexTreeModel.postorder created)
              (key (te_element te)))
    as (n & Hn & Hkey & Hlook).
  { apply created_key, Hte. }
  rewrite postorder_flatten in Hn.
  set (l := preserveCollapseState (identityProvider m) (sorter m) children) in *.
  pose proof (createdNodes_refs m l onC u) as Hrefs.
  rewrite <- (createdNodes_length m l onC u) in Hrefs. fold created in Hrefs.
  exists n. split; [exact Hlook|]. split; [|split; [exact Hkey|]].
  - apply deref_live.
    + eapply spliced_NoDup; eauto.
    + eapply spliced_created; eauto.
  - assert (Hr : nref n ∈ map nref (flatten created)) by apply elem_of_map, Hn.
    rewrite Hrefs in Hr. apply elem_of_seq in Hr. lia.
Qed.
End Recreated.

(** C3: the deletion callback spares the entries of the keys that the
    call has staged, in both tables.  So after a [setChildren] call the
    entry of the element of every description, and the entry of its
    identity key when an identity provider is configured, points at a node
    that this call has created under that key and that is in the tree:
    also when the call has deleted a node with that element or that
    identity key. *)
Theorem staged_keys_point_at_new_nodes {U : Type} (m m' : ObjectTreeModel)
    (parent : option T) (children : option (list ITreeElement))
    (onDidCreateNode onDidDeleteNode : option (ITreeNodeCallback U)) (u u' : U) :
  wellFormed m ->
  setChildren m parent children onDidCreateNode onDidDeleteNode u = (Ok u', m') ->
  (forall node (s : SpliceState U),
     elementKey node ∈ insertedElements s ->
     s_nodes (_onDidDeleteNode (identityProvider m) onDidDeleteNode node s) = s_nodes s) /\
  (forall getId node (s : SpliceState U),
     identityProvider m = Some getId ->
     identityKey getId node ∈ insertedElementIds s ->
     s_nodesByIdentity (_onDidDeleteNode (identityProvider m) onDidDeleteNode node s)
       = s_nodesByIdentity s) /\
  (forall te, te ∈ te_flatten (sequence children) ->
     exists n,
       nodes m' !! Some (te_element te) = Some (nref n) /\
       deref (liveNodes m') (nref n) = Some n /\
       element n = te_element te /\
       IndexTreeModel.next_ref (model m) <= nref n) /\
  (forall getId te,
     identityProvider m = Some getId ->
     te ∈ te_flatten (sequence children) ->
     exists n,
       nodesByIdentity m' !! getId (te_element te) = Some (nref n) /\
       deref (liveNodes m') (nref n) = Some n /\
       getId (element n) = getId (te_element te) /\
       IndexTreeModel.next_ref (model m) <= nref n).
Proof.
  intros Hwf Hset. split; [|split].
  - intros node s Hin. cbn. rewrite decide_True by exact Hin. reflexivity.
  - intros getId node s -> Hin. cbn. rewrite decide_True by exact Hin.
    reflexivity.
  - unfold setChildren in Hset.
    destruct (getElementLocation m parent) as [location|] eqn:Hloc;
      [|discriminate].
    destruct (getElementLocation_node _ _ _ Hloc) as (node & Hat & _).
    destruct (_setChildren_spec m location
                (preserveCollapseState (identityProvider m) (sorter m) children)
                onDidCreateNode onDidDeleteNode u node Hat)
      as (kids & Hsplice & _ & Heq).
    rewrite Heq in Hset. injection Hset as _ <-.
    destruct Hwf as (Hwf & _). unfold liveNodes. cbn. split.
    + intros te Hte.
      destruct (recreated_entry Some m location node children onDidCreateNode u
                  kids (nodes m) te Hwf Hsplice Hte) as (n & H1 & H2 & H3 & H4).
      exists n. injection H3 as H3. auto.
    + intros getId te E Hte.
      pose proof (recreated_entry getId m location node children
                    onDidCreateNode u kids (nodesByIdentity m) te Hwf Hsplice Hte)
        as R.
      cbv zeta in R. unfold updateIdentities.
      set (created := createdNodes m _ onDidCreateNode u) in *.
      rewrite E. exact R.
Qed.

Lemma staged_keys_point_at_new_nodes_witness :
  wellFormed abc /\
  setChildren abc None (Some [leaf 13; leaf 2; leaf 1]) None None tt
    = (Ok tt, refreshed) /\
  exists n,
    nodesByIdentity refreshed !! lastDigit 13 = Some (nref n) /\
    deref (liveNodes refreshed) (nref n) = Some n /\
    lastDigit (element n) = lastDigit 13 /\
    IndexTreeModel.next_ref (model abc) <= nref n.
Proof.
  assert (Hwf : wellFormed abc)
    by apply wellFormed_after_setChildren, wellFormed_create.
  assert (Hset : setChildren abc None (Some [leaf 13; leaf 2; leaf 1]) None None tt
                 = (Ok tt, refreshed)) by reflexivity.
  split; [exact Hwf|]. split; [exact Hset|].
  destruct (staged_keys_point_at_new_nodes abc refreshed None _ None None tt tt
              Hwf Hset) as (_ & _ & _ & Hids).
  apply (Hids lastDigit (leaf 13)); [reflexivity|left].
Defined.


(** ** The order of the new siblings *)

Lemma Consistent_on {A B} (compare : B -> B -> Z) (f : A -> B) :
  Consistent compare -> Consistent (fun a b => compare (f a) (f b)).
Proof.
  intros [Hs Ht]. split.
  - intros a b. apply Hs.
  - intros a b c. apply Ht.
Qed.

Lemma nonDecreasing_map {A B} (compare : B -> B -> Z) (f : A -> B) (l : list A) :
  nonDecreasing (fun a b => compare (f a) (f b)) l ->
  nonDecreasing compare (map f l).
Proof.
  induction 1 as [|a l _ IH Ha]; [constructor|].
  cbn. constructor; [exact IH|].
  apply Forall_forall. intros b Hb.
  apply elem_of_map_inv in Hb as (x & -> & Hx).
  rewrite Forall_forall in Ha. apply Ha, Hx.
Qed.

Section SortedFirst.
Context {U : Type} (idp : option (T -> string)) (sorter : option (T -> T -> Z)).

(** The sequence of [preserveCollapseState] as the source computes it:
    the descriptions are sorted, then mapped. *)
Lemma preserveCollapseState_sorted_first (children : option (list ITreeElement)) :
  preserveCollapseState (U := U) idp sorter children =
    map (preserveElement idp sorter) (sortedDescriptions sorter (sequence children)).
Proof.
  unfold preserveCollapseState, sortWith, sortedDescriptions.
  destruct sorter as [compare|]; [|reflexivity].
  apply mergeSort_map. intros a b. rewrite !preserveElement_eq. reflexivity.
Qed.

Lemma createdNodes_top (m : ObjectTreeModel)
    (l : list (LazyElement (SpliceState U)))
    (onC : option (ITreeNodeCallback U)) (u : U) :
  map element (createdNodes m l onC u) = map le_element l.
Proof.
  unfold createdNodes. destruct (IndexTreeModel.order (model m));
    apply createTreeNodes_top.
Qed.
End SortedFirst.

Lemma node_children_withKids (node : ITreeNode) (kids : list Node) :
  node_children (withKids node kids) = kids.
Proof. destruct node; reflexivity. Qed.

(** C5: with a sorter configured, the children of the parent after
    [setChildren] are the descriptions in the order of the merge sort:
    their elements are in non-decreasing order of the sorter's
    comparison, and descriptions that compare equal keep the order in
    which they were given.  The comparison is one a sorter may return
    (consistent). *)
Theorem setChildren_sorts_stably {U : Type} (m m' : ObjectTreeModel)
    (compare : T -> T -> Z) (parent : option T) (location : list nat)
    (children : option (list ITreeElement))
    (onDidCreateNode onDidDeleteNode : option (ITreeNodeCallback U)) (u : U)
    (r : Result U) :
  sorter m = Some compare -> Consistent compare ->
  getElementLocation m parent = Ok location ->
  setChildren m parent children onDidCreateNode onDidDeleteNode u = (r, m') ->
  exists node,
    IndexTreeModel.getNode (model m') location = Ok node /\
    let sorted := mergeSort (compareDescriptions compare) (sequence children) in
    map element (node_children node) = map te_element sorted /\
    nonDecreasing compare (map element (node_children node)) /\
    forall x, ties (compareDescriptions compare) x sorted =
              ties (compareDescriptions compare) x (sequence children).
Proof.
  intros Hsorter Hc Hloc Hset.
  destruct (getElementLocation_node _ _ _ Hloc) as (node & Hat & _).
  unfold setChildren in Hset. rewrite Hloc in Hset.
  destruct (_setChildren_spec m location
              (preserveCollapseState (identityProvider m) (sorter m) children)
              onDidCreateNode onDidDeleteNode u node Hat)
    as (kids & _ & Hat' & Heq).
  rewrite Heq in Hset. injection Hset as _ <-.
  eexists. unfold IndexTreeModel.getNode.
  cbn [model IndexTreeModel.spliced IndexTreeModel.root]. rewrite Hat'.
  split; [reflexivity|]. cbv zeta. rewrite node_children_withKids.
  assert (E : map element
                (createdNodes m
                   (preserveCollapseState (identityProvider m) (sorter m) children)
                   onDidCreateNode u) =
              map te_element
                (mergeSort (compareDescriptions compare) (sequence children))).
  { rewrite createdNodes_top, preserveCollapseState_sorted_first, map_map.
    rewrite Hsorter. cbn [sortedDescriptions]. apply map_ext. intros te.
    rewrite preserveElement_eq. reflexivity. }
  pose proof (Consistent_on compare te_element Hc) as Hc'.
  split; [exact E|]. split.
  - rewrite E. apply nonDecreasing_map. apply (mergeSort_sorted _ Hc').
  - intros x. apply (mergeSort_ties _ Hc').
Qed.

Lemma byTens_consistent : Consistent byTens.
Proof.
  unfold byTens. split.
  - intros a b. lia.
  - intros a b c. lia.
Qed.

Lemma byUnits_consistent : Consistent byUnits.
Proof.
  unfold byUnits. split.
  - intros a b. lia.
  - intros a b c. lia.
Qed.

Lemma setChildren_sorts_stably_witness :
  sorter tensModel = Some byTens /\ Consistent byTens /\
  getElementLocation tensModel None = Ok [] /\
  exists node,
    IndexTreeModel.getNode (model tens) [] = Ok node /\
    let sorted := mergeSort (compareDescriptions byTens)
                    [leaf 21; leaf 12; leaf 25; leaf 11] in
    map element (node_children node) = map te_element sorted /\
    nonDecreasing byTens (map element (node_children node)) /\
    forall x, ties (compareDescriptions byTens) x sorted =
              ties (compareDescriptions byTens) x [leaf 21; leaf 12; leaf 25; leaf 11].
Proof.
  split; [reflexivity|]. split; [exact byTens_consistent|].
  split; [reflexivity|].
  apply (setChildren_sorts_stably tensModel tens byTens None []
           (Some [leaf 21; leaf 12; leaf 25; leaf 11]) None None tt (Ok tt)).
  - reflexivity.
  - exact byTens_consistent.
  - reflexivity.
  - reflexivity.
Defined.


(** ** Resorting *)

Lemma unit_eq (x y : unit) : x = y.
Proof. destruct x, y. reflexivity. Qed.

Lemma unref_eq (n : Node) :
  unref n = mkNode 0 (element n) (collapsible n) (collapsed n)
              (map unref (children n)).
Proof. destruct n; reflexivity. Qed.

Section Resort.
Context {U : Type} (m : IndexTreeModel.t).
Context (f : Node -> SpliceState U -> SpliceState U).
Context (sorter : option (T -> T -> Z)).

Lemma resortNode_eq (recursive : bool) (n : Node) :
  resortNode (U := U) sorter recursive n =
    Lazy (element n)
      (fun _ => (Some (collapsible n), Some (collapsed n)))
      (resortChildren sorter (ElementNode n) recursive false).
Proof.
  destruct n as [r e c1 c2 kids]. cbn [resortNode].
  unfold resortChildren. cbn [node_children children element collapsible collapsed].
  rewrite orb_false_r. reflexivity.
Qed.

(** Without recursion the nodes made of the descriptions of nodes are
    those nodes again, as new node objects. *)
Lemma createTreeNodes_resortNode_with (kids : list Node) :
  Forall (fun n => forall s,
    unref (IndexTreeModel.createTreeNode m f (resortNode sorter false n) s).1
      = unref n) kids ->
  forall s,
    map unref (IndexTreeModel.createTreeNodes m f
                 (map (resortNode sorter false) kids) s).1 = map unref kids.
Proof.
  induction 1 as [|n kids Hn _ IH]; intros s; [reflexivity|].
  cbn [map]. rewrite createTreeNodes_cons. cbn [fst map].
  rewrite Hn, IH. reflexivity.
Qed.

Lemma createTreeNode_resortNode (n : Node) (s : nat * SpliceState U) :
  unref (IndexTreeModel.createTreeNode m f (resortNode sorter false n) s).1
    = unref n.
Proof.
  revert s. induction n as [r e c1 c2 kids IH] using Node_forall_ind.
  intros s. rewrite createTreeNode_eq, resortNode_eq. cbn [fst].
  rewrite !unref_eq.
  cbn [le_element le_state le_children IndexTreeModel.newNode element
       collapsible collapsed children fst snd default].
  f_equal. unfold resortChildren. cbn [orb node_children children id].
  unfold id. apply (createTreeNodes_resortNode_with kids IH).
Qed.

Lemma createTreeNodes_resortNode (kids : list Node) (s : nat * SpliceState U) :
  map unref (IndexTreeModel.createTreeNodes m f
               (map (resortNode sorter false) kids) s).1 = map unref kids.
Proof.
  apply createTreeNodes_resortNode_with, Forall_forall.
  intros n _. apply createTreeNode_resortNode.
Qed.

End Resort.

(** The first level as the source computes it: the nodes are sorted, then
    described. *)
Lemma resortChildren_first {U} (compare : T -> T -> Z) (node : ITreeNode)
    (recursive : bool) :
  resortChildren (U := U) (Some compare) node recursive true =
    map (resortNode (Some compare) recursive)
      (array_sort (compareNodes compare) (node_children node)).
Proof.
  unfold resortChildren, sortWith. rewrite orb_true_r.
  apply array_sort_map. intros a b. rewrite !resortNode_eq. reflexivity.
Qed.


(** C6: [resort(parent, false)] replaces the children of the parent by
    the same children in another order: every one of them comes with its
    subtree as it was, the deeper levels in their old order, and the rest
    of the tree is not touched.  When the comparison of the sorter is
    consistent, the new order is that of the sorter, and children that
    compare equal keep their order. *)
Theorem resort_first_level_only (m : ObjectTreeModel) (compare : T -> T -> Z)
    (parent : option T) (location : list nat) :
  sorter m = Some compare ->
  getElementLocation m parent = Ok location ->
  exists node created m',
    IndexTreeModel.getNode (model m) location = Ok node /\
    resort m parent false = (Ok tt, m') /\
    IndexTreeModel.spliceAt (location ++ [0]) MAX_VALUE created
      (IndexTreeModel.root (model m))
      = Some (IndexTreeModel.root (model m'), node_children node) /\
    IndexTreeModel.getNode (model m') location = Ok (withKids node created) /\
    map unref created ≡ₚ map unref (node_children node) /\
    (Consistent compare ->
     nonDecreasing compare (map element created) /\
     forall x, ties compare x (map element created) =
               ties compare x (map element (node_children node))).
Proof.
  intros Hsorter Hloc.
  destruct (getElementLocation_node _ _ _ Hloc) as (node & Hat & _).
  destruct (_setChildren_spec m location
              (resortChildren (sorter m) node false true) None None tt node Hat)
    as (kids & Hsplice & Hat' & Heq).
  eexists node, _, _. unfold resort, IndexTreeModel.getNode.
  rewrite Hsorter, Hloc, Hat. rewrite Hsorter in Heq, Hsplice, Hat'.
  split; [reflexivity|]. split.
  { rewrite Heq. f_equal. f_equal. apply unit_eq. }
  cbn [model IndexTreeModel.spliced IndexTreeModel.root].
  split; [exact Hsplice|]. rewrite Hat'. split; [reflexivity|].
  set (created := createdNodes m (resortChildren (Some compare) node false true)
                    None tt).
  assert (E : map unref created =
              map unref (array_sort (compareNodes compare) (node_children node))).
  { unfold created, createdNodes. rewrite resortChildren_first.
    destruct (IndexTreeModel.order (model m)); apply createTreeNodes_resortNode. }
  assert (Eu : forall l : list Node, map element (map unref l) = map element l).
  { intros l. rewrite map_map. apply map_ext. intros []; reflexivity. }
  assert (Ee : map element created =
               array_sort compare (map element (node_children node))).
  { rewrite <- (Eu created), E, Eu. symmetry. apply array_sort_map.
    intros a b. reflexivity. }
  split.
  - rewrite E. apply Permutation_map, array_sort_perm.
  - intros Hc. rewrite Ee. split.
    + apply array_sort_sorted, Hc.
    + intros x. apply array_sort_ties, Hc.
Qed.

Lemma resort_first_level_only_witness :
  sorter stale = Some byUnits /\
  getElementLocation stale None = Ok [] /\
  Consistent byUnits /\
  siblingOrder stale None = Ok [12; 30] /\
  siblingOrder (resort stale None false).2 None = Ok [30; 12] /\
  exists node created m',
    IndexTreeModel.getNode (model stale) [] = Ok node /\
    resort stale None false = (Ok tt, m') /\
    IndexTreeModel.spliceAt ([] ++ [0]) MAX_VALUE created
      (IndexTreeModel.root (model stale))
      = Some (IndexTreeModel.root (model m'), node_children node) /\
    IndexTreeModel.getNode (model m') [] = Ok (withKids node created) /\
    map unref created ≡ₚ map unref (node_children node) /\
    (Consistent byUnits ->
     nonDecreasing byUnits (map element created) /\
     forall x, ties byUnits x (map element created) =
               ties byUnits x (map element (node_children node))).
Proof.
  split; [reflexivity|]. split; [reflexivity|].
  split; [exact byUnits_consistent|].
  split; [vm_compute; reflexivity|]. split; [vm_compute; reflexivity|].
  apply (resort_first_level_only stale byUnits None []); reflexivity.
Defined.

(** On the example: the root's children [12] and [30] change places, the
    children [15] and [21] of [30] stay as they are. *)
Example resort_first_level_only_example :
  map unref (IndexTreeModel.root (model (resort stale None false).2)) =
    [mkNode 0 30 false false
       [mkNode 0 15 false false []; mkNode 0 21 false false []];
     mkNode 0 12 false false []].
Proof. reflexivity. Qed.


(** ** The descriptions read the state before the call *)

Lemma candidateKey_element (idp : option (T -> string)) (a b : T) :
  candidateKey idp a <> candidateKey idp b -> a <> b.
Proof. intros H ->. apply H. reflexivity. Qed.

Lemma deref_app_fresh (new heap : list Node) (ref : nat) :
  Forall (fun n => nref n <> ref) new -> deref (new ++ heap) ref = deref heap ref.
Proof.
  induction 1 as [|n new Hn _ IH]; [reflexivity|].
  unfold deref in *. cbn. destruct (Nat.eqb_spec (nref n) ref); [contradiction|].
  exact IH.
Qed.

Section Steady.
Context {U : Type} (m : ObjectTreeModel).
Context (onC : option (ITreeNodeCallback U)) (u : U).
Hypothesis Hwf : wellFormed m.

Local Abbreviation idp := (identityProvider m).
Local Abbreviation next := (IndexTreeModel.next_ref (model m)).

Lemma table_refs_allocated {K} `{Countable K} (key : Node -> K)
    (t : gmap K nat) (k : K) (r : nat) :
  pointsAt key (liveNodes m) t -> t !! k = Some r -> r < next.
Proof.
  intros Hp Hk. destruct (Hp k r Hk) as (n & Hn & <- & _).
  destruct Hwf as ((_ & Hb) & _). rewrite Forall_forall in Hb. apply Hb, Hn.
Qed.

Lemma existingNode_steady (ns : list Node) (e : T) :
  Forall (fun n => next <= nref n /\
            candidateKey idp (element n) <> candidateKey idp e) ns ->
  existingNode idp
    (IndexTreeModel.report (_onDidCreateNode idp onC) ns (spliceState m u)) e =
  existingNode idp (spliceState m u) e.
Proof.
  intros Hns. unfold existingNode.
  rewrite created_nodes, created_identities, created_heap.
  cbn [spliceState s_nodes s_nodesByIdentity s_heap].
  assert (Hold : forall r, r < next ->
            deref (rev ns ++ flatten (IndexTreeModel.root (model m))) r =
            deref (flatten (IndexTreeModel.root (model m))) r).
  { intros r Hr. apply deref_app_fresh. apply Forall_forall. intros n Hn.
    apply list_elem_of_In, in_rev, list_elem_of_In in Hn.
    rewrite Forall_forall in Hns.
    destruct (Hns n Hn) as [Hfresh _]. lia. }
  destruct Hwf as (_ & Hp1 & Hp2).
  rewrite lookup_inserting_notin.
  2:{ intros Hin. apply elem_of_map_inv in Hin as (n & E & Hn).
      rewrite Forall_forall in Hns. destruct (Hns n Hn) as [_ Hkey].
      injection E as E. apply Hkey. rewrite E. reflexivity. }
  destruct (nodes m !! Some e) as [r|] eqn:Er.
  { apply Hold. eapply table_refs_allocated; eauto. }
  destruct (identityProvider m) as [getId|] eqn:Ei; [|reflexivity].
  rewrite lookup_inserting_notin.
  2:{ intros Hin. apply elem_of_map_inv in Hin as (n & E & Hn).
      rewrite Forall_forall in Hns. destruct (Hns n Hn) as [_ Hkey].
      apply Hkey. cbn. unfold identityKey in E. rewrite E. reflexivity. }
  destruct (nodesByIdentity m !! getId e) as [r|] eqn:Er'; [|reflexivity].
  cbn. apply Hold. eapply table_refs_allocated; eauto.
Qed.

Lemma preserveElement_steady (srt : option (T -> T -> Z)) (te : ITreeElement) :
  steady (_onDidCreateNode idp onC) (candidateKey idp) (spliceState m u) next
    (preserveElement idp srt te).
Proof.
  intros ns Hns. rewrite preserveElement_eq in *. cbn [le_state le_element] in *.
  unfold preservedState. rewrite existingNode_steady by exact Hns.
  reflexivity.
Qed.

(** With one description for one key, the nodes are those made of the
    descriptions in the state before the call, whatever the order of the
    reports. *)
Lemma createdNodes_preserve (children : option (list ITreeElement)) :
  distinctKeys idp (sequence children) ->
  createdNodes m (preserveCollapseState idp (sorter m) children) onC u =
    (IndexTreeModel.createTreeNodes (model m) silent
       (preserveCollapseState idp (sorter m) children)
       (next, spliceState m u)).1.
Proof.
  intros Hd. unfold createdNodes.
  destruct (IndexTreeModel.order (model m)); [|reflexivity].
  apply (createTreeNodes_lazy (model m) _ (candidateKey idp)).
  - rewrite preserveCollapseState_keys. exact Hd.
  - apply Forall_forall. intros le Hle.
    rewrite preserveCollapseState_flatten in Hle.
    apply elem_of_map_inv in Hle as (te & -> & _).
    apply preserveElement_steady.
Qed.
End Steady.


(** ** The nodes made of distinct descriptions *)

Lemma Forall2_elem_l {A B} (R : A -> B -> Prop) (l : list A) (k : list B) (x : A) :
  Forall2 R l k -> x ∈ l -> exists y, y ∈ k /\ R x y.
Proof.
  induction 1 as [|a b l k Hab _ IH]; intros Hx; [inversion Hx|].
  apply elem_of_cons in Hx as [->|Hx].
  - exists b. split; [left|exact Hab].
  - destruct (IH Hx) as (y & Hy & Hr). exists y. split; [right; exact Hy|exact Hr].
Qed.

Lemma distinctKeys_elements (idp : option (T -> string)) (l : list ITreeElement) :
  distinctKeys idp l -> NoDup (map te_element (te_flatten l)).
Proof.
  unfold distinctKeys. rewrite <- (map_map te_element (candidateKey idp)).
  apply (NoDup_fmap_1 (candidateKey idp)).
Qed.

Lemma distinctKeys_identities (getId : T -> string) (l : list ITreeElement) :
  distinctKeys (Some getId) l ->
  NoDup (map (fun te => getId (te_element te)) (te_flatten l)).
Proof.
  unfold distinctKeys. cbn [candidateKey].
  rewrite <- (map_map (fun te => getId (te_element te)) inl).
  apply (NoDup_fmap_1 inl).
Qed.

Section CreatedState.
Context {U : Type} (m : ObjectTreeModel).
Context (onC : option (ITreeNodeCallback U)) (u : U).
Context (children : option (list ITreeElement)).
Hypothesis Hwf : wellFormed m.
Hypothesis Hdistinct : distinctKeys (identityProvider m) (sequence children).

Local Abbreviation created :=
  (createdNodes m
     (preserveCollapseState (identityProvider m) (sorter m) children) onC u).

Lemma created_of_description (te : ITreeElement) :
  te ∈ te_flatten (sequence children) ->
  exists n, n ∈ flatten created /\
    madeOf (model m) (spliceState m u)
      (preserveElement (identityProvider m) (sorter m) te) n.
Proof.
  intros Hte. rewrite (createdNodes_preserve m onC u Hwf children Hdistinct).
  destruct (createTreeNodes_silent (model m)
              (preserveCollapseState (identityProvider m) (sorter m) children)
              (spliceState m u) (IndexTreeModel.next_ref (model m))) as [_ Hall].
  apply (Forall2_elem_l _ _ _ _ Hall).
  rewrite preserveCollapseState_flatten. apply elem_of_map, Hte.
Qed.

Lemma created_elements_NoDup :
  NoDup (map elementKey (flat_map IndexTreeModel.postorder created)).
Proof.
  rewrite postorder_flatten.
  unfold elementKey. rewrite <- (map_map element Some).
  apply (NoDup_fmap_2 Some).
  rewrite createdNodes_elements.
  change (map le_element (le_flatten ?l)) with (keysOf (fun e : T => e) l).
  rewrite preserveCollapseState_keys.
  apply (distinctKeys_elements _ _ Hdistinct).
Qed.

Lemma created_identities_NoDup (getId : T -> string) :
  identityProvider m = Some getId ->
  NoDup (map (identityKey getId) (flat_map IndexTreeModel.postorder created)).
Proof.
  intros E. rewrite postorder_flatten.
  unfold identityKey. rewrite <- (map_map element getId).
  rewrite createdNodes_elements, map_map.
  change (map (fun le => getId (le_element le)) (le_flatten ?l))
    with (keysOf getId l).
  rewrite preserveCollapseState_keys.
  apply distinctKeys_identities. rewrite <- E. exact Hdistinct.
Qed.
End CreatedState.



(** ** Indexed models stay indexed *)

Lemma subtree_trans (n c x : Node) :
  c ∈ subtree n -> x ∈ subtree c -> x ∈ subtree n.
Proof.
  revert c x. induction n as [r e c1 c2 kids IH] using Node_forall_ind.
  intros c x Hc Hx. rewrite subtree_eq in Hc. cbn [children] in Hc.
  apply elem_of_cons in Hc as [->|Hc]; [exact Hx|].
  rewrite subtree_eq. cbn [children]. right.
  apply elem_of_flatten in Hc as (k & Hk & Hc).
  rewrite Forall_forall in IH.
  apply elem_of_flatten. exists k. split; [exact Hk|].
  eapply IH; eauto.
Qed.

Lemma flatten_children_live (kids : list Node) (n x : Node) :
  n ∈ flatten kids -> x ∈ flatten (children n) -> x ∈ flatten kids.
Proof.
  intros Hn Hx. apply elem_of_flatten in Hn as (k & Hk & Hn).
  apply elem_of_flatten. exists k. split; [exact Hk|].
  apply (subtree_trans k n x Hn). rewrite subtree_eq. right. exact Hx.
Qed.

Lemma nodeAt_children_live (location : list nat) (kids : list Node)
    (node : ITreeNode) (x : Node) :
  IndexTreeModel.nodeAt location kids = Some node ->
  x ∈ flatten (node_children node) -> x ∈ flatten kids.
Proof.
  destruct location as [|i rest]; cbn.
  - intros [= <-]. auto.
  - destruct (kids !! i ≫= IndexTreeModel.descend rest) as [n|] eqn:E;
      [|discriminate].
    intros [= <-]. cbn. apply flatten_children_live.
    eapply lookup_descend_elem, E.
Qed.

Section SplicedCovers.
Context (location : list nat) (created kids kids' deleted : list Node).
Context (next : nat).
Hypothesis Hsplice :
  IndexTreeModel.spliceAt location MAX_VALUE created kids = Some (kids', deleted).
Hypothesis Hnodup : NoDup (map nref (flatten kids)).
Hypothesis Hdeleted : forall d, d ∈ flatten deleted -> d ∈ flatten kids.
Context {K : Type} `{Countable K} (key : T -> K) (t : gmap K nat).

Local Abbreviation keyOf := (keyOn key).

Hypothesis Hcovers : covers keyOf (flatten kids) t.
Hypothesis Hnew : NoDup (map keyOf (flat_map IndexTreeModel.postorder created)).
Hypothesis Hfree : forall n, n ∈ flatten kids -> n ∉ flatten deleted ->
  keyOf n ∉ map keyOf (flat_map IndexTreeModel.postorder created).

Lemma spliced_covers :
  covers keyOf (flatten kids')
    (updateTable keyOf (flat_map IndexTreeModel.postorder created)
       (flatten deleted) t).
Proof.
  intros n' Hn'. unfold updateTable.
  destruct (spliced_live _ _ _ _ _ Hsplice Hnodup n' Hn')
    as [(c & Hc & E)|(n & Hn & E & Hnd)]; injection E as E1 E2.
  - replace (keyOf n') with (keyOf c) by (unfold keyOn; rewrite E2; reflexivity).
    rewrite <- E1. apply lookup_inserting_NoDup; [exact Hnew|].
    rewrite postorder_flatten. exact Hc.
  - assert (Hnot : n ∉ flatten deleted).
    { intros Hd. apply Hnd. apply elem_of_map, Hd. }
    replace (keyOf n') with (keyOf n) by (unfold keyOn; rewrite E2; reflexivity).
    rewrite <- E1.
    rewrite lookup_inserting_notin by (apply Hfree; assumption).
    rewrite lookup_deleting, decide_False; [apply Hcovers, Hn|].
    intros Hin. apply elem_of_map_inv in Hin as (d & Ek & Hd).
    apply Hnot. replace n with d; [exact Hd|].
    apply (NoDup_nref_eq (flatten kids)); [exact Hnodup|auto|exact Hn|].
    pose proof (Hcovers d (Hdeleted d Hd)) as H1.
    pose proof (Hcovers n Hn) as H2.
    rewrite Ek, H1 in H2. injection H2 as H2. exact H2.
Qed.
End SplicedCovers.

(** In an indexed model no two nodes have one key. *)
Lemma covers_injective {K} `{Countable K} (key : Node -> K) (live : list Node)
    (t : gmap K nat) (a b : Node) :
  NoDup (map nref live) -> covers key live t ->
  a ∈ live -> b ∈ live -> key a = key b -> a = b.
Proof.
  intros Hnd Hc Ha Hb E. apply (NoDup_nref_eq live); [assumption..|].
  pose proof (Hc a Ha) as H1. pose proof (Hc b Hb) as H2.
  rewrite E, H2 in H1. injection H1 as H1. symmetry. exact H1.
Qed.

Section IndexedSetChildren.
Context {U : Type}.

Lemma created_key_inv {K} (key : T -> K) (m : ObjectTreeModel)
    (children : option (list ITreeElement))
    (onC : option (ITreeNodeCallback U)) (u : U) (k : K) :
  k ∈ map (keyOn key)
        (flat_map IndexTreeModel.postorder
           (createdNodes m
              (preserveCollapseState (identityProvider m) (sorter m) children)
              onC u)) ->
  exists te, te ∈ te_flatten (sequence children) /\ key (te_element te) = k.
Proof.
  rewrite postorder_flatten. unfold keyOn.
  rewrite <- (map_map element key), createdNodes_elements, map_map.
  change (map (fun le => key (le_element le)) (le_flatten ?l)) with (keysOf key l).
  rewrite preserveCollapseState_keys.
  intros Hk. apply elem_of_map_inv in Hk as (te & -> & Hte). eauto.
Qed.

Lemma below_eq (m : ObjectTreeModel) (parent : option T) (location : list nat)
    (node : ITreeNode) :
  getElementLocation m parent = Ok location ->
  IndexTreeModel.nodeAt location (IndexTreeModel.root (model m)) = Some node ->
  below m parent = flatten (node_children node).
Proof. intros H1 H2. unfold below. rewrite H1, H2. reflexivity. Qed.

Theorem indexed_setChildren (m m' : ObjectTreeModel) (parent : option T)
    (children : option (list ITreeElement))
    (onC onD : option (ITreeNodeCallback U)) (u : U) (r : Result U) :
  indexed m ->
  distinctKeys (identityProvider m) (sequence children) ->
  keysFree m parent (sequence children) ->
  setChildren m parent children onC onD u = (r, m') -> indexed m'.
Proof.
  intros Hi Hd Hfree Hset.
  pose proof (wellFormed_setChildren _ _ _ _ _ _ _ _ (proj1 Hi) Hset) as Hwf'.
  split; [exact Hwf'|]. destruct Hi as (Hwf & Hc1 & Hc2).
  unfold setChildren in Hset.
  destruct (getElementLocation m parent) as [location|] eqn:Hloc.
  2:{ injection Hset as _ <-. auto. }
  destruct (getElementLocation_node _ _ _ Hloc) as (node & Hat & _).
  destruct (_setChildren_spec m location
              (preserveCollapseState (identityProvider m) (sorter m) children)
              onC onD u node Hat) as (kids & Hsplice & _ & Heq).
  rewrite Heq in Hset. injection Hset as _ <-.
  pose proof (below_eq m parent location node Hloc Hat) as Hbelow.
  pose proof (proj1 (proj1 Hwf)) as Hnd.
  unfold liveNodes in *. cbn [model nodes nodesByIdentity identityProvider
    IndexTreeModel.spliced IndexTreeModel.root].
  split.
  - eapply (spliced_covers _ _ _ _ _ Hsplice Hnd) with (key := Some).
    + intros d. apply (nodeAt_children_live _ _ _ d Hat).
    + exact Hc1.
    + apply created_elements_NoDup; assumption.
    + intros n Hn Hnot Hin.
      apply created_key_inv in Hin as (te & Hte & E).
      rewrite <- Hbelow in Hnot.
      apply (Hfree n te Hn Hnot Hte). injection E as ->. reflexivity.
  - unfold updateIdentities.
    destruct (identityProvider m) as [getId|] eqn:Ei; [|exact I].
    eapply (spliced_covers _ _ _ _ _ Hsplice Hnd) with (key := getId).
    + intros d. apply (nodeAt_children_live _ _ _ d Hat).
    + exact Hc2.
    + rewrite <- Ei. apply created_identities_NoDup; try assumption.
      rewrite Ei. exact Hd.
    + intros n Hn Hnot Hin. rewrite <- Ei in Hin.
      apply created_key_inv in Hin as (te & Hte & E).
      rewrite <- Hbelow in Hnot.
      apply (Hfree n te Hn Hnot Hte). rewrite Ei. cbn. rewrite E. reflexivity.
Qed.
End IndexedSetChildren.

(** *** Resorting keeps the index *)

Lemma NoDup_map_by {A B C} (f : A -> B) (g : A -> C) (l : list A) :
  NoDup (map f l) ->
  (forall a b, a ∈ l -> b ∈ l -> g a = g b -> f a = f b) ->
  NoDup (map g l).
Proof.
  induction l as [|x l IH]; intros Hnd Hinj; [constructor|].
  cbn in *. apply NoDup_cons in Hnd as [Hx Hnd]. apply NoDup_cons. split.
  - intros Hin. apply elem_of_map_inv in Hin as (y & E & Hy).
    apply Hx. rewrite (Hinj x y); [apply elem_of_map, Hy|left|right; exact Hy|exact E].
  - apply IH; [exact Hnd|]. intros a b Ha Hb. apply Hinj; right; assumption.
Qed.

Section ResortKeys.
Context {U : Type} (sorter : option (T -> T -> Z)) (recursive : bool).

Lemma sortWith_array_sort_perm {W} (l : list (LazyElement W)) :
  sortWith sorter array_sort l ≡ₚ l.
Proof. unfold sortWith. destruct sorter; [apply array_sort_perm|reflexivity]. Qed.

Lemma resort_level_perm (b : bool) (l : list (LazyElement (SpliceState U))) :
  (if b then sortWith sorter array_sort else id) l ≡ₚ l.
Proof. destruct b; [apply sortWith_array_sort_perm|reflexivity]. Qed.

Lemma resortNodes_elements_with (b : bool) (kids : list Node) :
  Forall (fun n =>
    map le_element (le_subtree (resortNode (U := U) sorter recursive n)) ≡ₚ
      map element (subtree n)) kids ->
  map le_element
    (le_flatten ((if b then sortWith sorter array_sort else id)
                   (map (resortNode (U := U) sorter recursive) kids)))
    ≡ₚ map element (flatten kids).
Proof.
  intros H. rewrite (le_flatten_perm _ _ (resort_level_perm b _)).
  induction H as [|n kids Hn _ IH]; [reflexivity|].
  cbn [map]. rewrite le_flatten_cons, flatten_cons_subtree, !map_app, Hn, IH.
  reflexivity.
Qed.

Lemma resortNode_elements (n : Node) :
  map le_element (le_subtree (resortNode (U := U) sorter recursive n)) ≡ₚ
    map element (subtree n).
Proof.
  induction n as [r e c1 c2 kids IH] using Node_forall_ind.
  rewrite le_subtree_eq, subtree_eq. cbn [resortNode le_children map le_element
    element children].
  apply perm_skip. apply (resortNodes_elements_with recursive kids IH).
Qed.

Lemma resortChildren_elements (node : ITreeNode) (first : bool) :
  map le_element (le_flatten (resortChildren (U := U) sorter node recursive first))
    ≡ₚ map element (flatten (node_children node)).
Proof.
  unfold resortChildren. apply resortNodes_elements_with, Forall_forall.
  intros n _. apply resortNode_elements.
Qed.
End ResortKeys.

Lemma covers_NoDup {K} `{Countable K} (key : Node -> K) (live : list Node)
    (t : gmap K nat) :
  NoDup (map nref live) -> covers key live t -> NoDup (map key live).
Proof.
  intros Hnd Hc. apply (NoDup_map_by nref key live Hnd).
  intros a b Ha Hb E. pose proof (Hc a Ha) as H1. pose proof (Hc b Hb) as H2.
  rewrite E, H2 in H1. injection H1 as H1. symmetry. exact H1.
Qed.

Lemma deleted_NoDup (location : list nat) (created kids kids' deleted : list Node) :
  IndexTreeModel.spliceAt location MAX_VALUE created kids = Some (kids', deleted) ->
  NoDup (map nref (flatten kids)) -> NoDup (map nref (flatten deleted)).
Proof.
  intros Hsplice Hnd.
  destruct (spliced_shallow _ _ _ _ _ Hsplice) as (surv & H1 & _).
  rewrite nref_shallow, H1, map_app in Hnd.
  apply NoDup_app in Hnd as (_ & _ & Hnd). rewrite nref_shallow. exact Hnd.
Qed.

Theorem indexed_resort (m m' : ObjectTreeModel) (parent : option T)
    (recursive : bool) (r : Result unit) :
  indexed m -> resort m parent recursive = (r, m') -> indexed m'.
Proof.
  intros Hi Hres.
  pose proof (wellFormed_resort _ _ _ _ _ (proj1 Hi) Hres) as Hwf'.
  split; [exact Hwf'|]. destruct Hi as (Hwf & Hc1 & Hc2).
  unfold resort in Hres.
  destruct (sorter m) as [compare|] eqn:Hs; [|injection Hres as _ <-; auto].
  destruct (getElementLocation m parent) as [location|] eqn:Hloc;
    [|injection Hres as _ <-; auto].
  destruct (getElementLocation_node _ _ _ Hloc) as (node & Hat & _).
  unfold IndexTreeModel.getNode in Hres. rewrite Hat in Hres.
  destruct (_setChildren_spec m location
              (resortChildren (Some compare) node recursive true)
              None None tt node Hat) as (kids & Hsplice & _ & Heq).
  rewrite Heq in Hres. injection Hres as _ <-.
  pose proof (proj1 (proj1 Hwf)) as Hnd.
  pose proof (deleted_NoDup _ _ _ _ _ Hsplice Hnd) as Hndd.
  assert (Hdl : forall d, d ∈ flatten (node_children node) ->
                  d ∈ flatten (IndexTreeModel.root (model m))).
  { intros d. apply (nodeAt_children_live _ _ _ d Hat). }
  set (created := createdNodes m _ None tt) in *.
  assert (Hkeys : forall {K} (key : T -> K),
            map (keyOn key) (flat_map IndexTreeModel.postorder created) ≡ₚ
            map (keyOn key) (flatten (node_children node))).
  { intros K key. rewrite postorder_flatten. unfold keyOn.
    rewrite <- !(map_map element key). apply Permutation_map.
    unfold created. rewrite createdNodes_elements.
    apply resortChildren_elements. }
  assert (Hgen : forall {K} `{Countable K} (key : T -> K) (t : gmap K nat),
            covers (keyOn key) (flatten (IndexTreeModel.root (model m))) t ->
            covers (keyOn key) (flatten kids)
              (updateTable (keyOn key)
                 (flat_map IndexTreeModel.postorder created)
                 (flatten (node_children node)) t)).
  { intros K ? ? key t Hc.
    eapply (spliced_covers _ _ _ _ _ Hsplice Hnd Hdl key t Hc).
    - rewrite Hkeys. apply (NoDup_map_by nref _ _ Hndd).
      intros a b Ha Hb E.
      rewrite (covers_injective _ _ _ a b Hnd Hc (Hdl a Ha) (Hdl b Hb) E).
      reflexivity.
    - intros n Hn Hnot Hin. rewrite Hkeys in Hin.
      apply elem_of_map_inv in Hin as (d & E & Hd). apply Hnot.
      rewrite (covers_injective _ _ _ n d Hnd Hc Hn (Hdl d Hd) E). exact Hd. }
  unfold liveNodes in *. cbn [model nodes nodesByIdentity identityProvider
    IndexTreeModel.spliced IndexTreeModel.root].
  split; [apply (Hgen _ _ _ Some), Hc1|].
  unfold updateIdentities. destruct (identityProvider m) as [getId|]; [|exact I].
  apply (Hgen _ _ _ getId), Hc2.
Qed.

Theorem indexed_create (user : string) (order : CallbackOrder)
    (collapsibleByDefault collapseByDefault : bool)
    (sorter : option (T -> T -> Z)) (identityProvider : option (T -> string)) :
  indexed (create user order collapsibleByDefault collapseByDefault sorter
             identityProvider).
Proof.
  split; [apply wellFormed_create|].
  split; [intros n Hn; inversion Hn|].
  cbn. destruct identityProvider; [|exact I]. intros n Hn. inversion Hn.
Qed.

(** The element table of an indexed model has one entry for every node of
    the tree. *)
Lemma indexed_size (m : ObjectTreeModel) :
  indexed m -> size m = length (liveNodes m).
Proof.
  intros (((Hnd & _) & Hp & _) & Hc & _).
  pose proof (covers_NoDup elementKey _ _ Hnd Hc) as Hkeys.
  set (entries := (fun n => (elementKey n, nref n)) <$> liveNodes m).
  assert (Hfst : entries.*1 = map elementKey (liveNodes m)).
  { unfold entries. rewrite <- list_fmap_compose. reflexivity. }
  assert (E : nodes m = list_to_map entries).
  { apply map_eq. intros k. destruct (nodes m !! k) as [r|] eqn:Ek.
    - symmetry. apply elem_of_list_to_map; [rewrite Hfst; exact Hkeys|].
      destruct (Hp k r Ek) as (n & Hn & <- & <-).
      apply (list_elem_of_fmap_2 (fun n => (elementKey n, nref n))), Hn.
    - symmetry. apply not_elem_of_list_to_map. rewrite Hfst. intros Hin.
      apply elem_of_map_inv in Hin as (n & -> & Hn).
      rewrite (Hc n Hn) in Ek. discriminate. }
  unfold size. rewrite E, map_size_list_to_map by (rewrite Hfst; exact Hkeys).
  unfold entries. apply length_fmap.
Qed.


(** ** The nodes made of descriptions, whenever they are read *)

Section MadeAnyhow.
Context {W : Type} (m : IndexTreeModel.t) (f : Node -> W -> W).

(** Every created node is made of its description as the description
    reads in the state in which the engine has pulled it. *)
Lemma createTreeNodes_made_with (l : list (LazyElement W)) :
  Forall (fun le => forall s,
    Forall2 (fun le n => exists w, madeOf m w le n) (le_subtree le)
      (subtree (IndexTreeModel.createTreeNode m f le s).1)) l ->
  forall s,
    Forall2 (fun le n => exists w, madeOf m w le n) (le_flatten l)
      (flatten (IndexTreeModel.createTreeNodes m f l s).1).
Proof.
  induction 1 as [|le l Hle _ IH]; intros s; [constructor|].
  rewrite createTreeNodes_cons. cbn [fst].
  rewrite le_flatten_cons, flatten_cons_subtree.
  apply Forall2_app; [apply Hle|apply IH].
Qed.

Lemma createTreeNode_made (le : LazyElement W) (s : nat * W) :
  Forall2 (fun le n => exists w, madeOf m w le n) (le_subtree le)
    (subtree (IndexTreeModel.createTreeNode m f le s).1).
Proof.
  revert s. induction le as [e st kids IH] using LazyElement_forall_ind.
  intros s. rewrite createTreeNode_eq. cbn [fst le_children].
  rewrite le_subtree_eq, subtree_eq. constructor.
  - exists s.2. repeat split.
  - apply (createTreeNodes_made_with kids IH).
Qed.

Lemma createTreeNodes_made (l : list (LazyElement W)) (s : nat * W) :
  Forall2 (fun le n => exists w, madeOf m w le n) (le_flatten l)
    (flatten (IndexTreeModel.createTreeNodes m f l s).1).
Proof.
  apply createTreeNodes_made_with, Forall_forall.
  intros le _. apply createTreeNode_made.
Qed.
End MadeAnyhow.

Section MadeOfDistinctElements.
Context {U : Type} (m : ObjectTreeModel).
Context (onC : option (ITreeNodeCallback U)) (u : U).
Context (children : option (list ITreeElement)).
Hypothesis Helements : NoDup (map te_element (te_flatten (sequence children))).

Local Abbreviation made :=
  (createdNodes m
     (preserveCollapseState (identityProvider m) (sorter m) children) onC u).

(** The node made of a description, whenever the engine has pulled it. *)
Lemma made_of_description (te : ITreeElement) :
  te ∈ te_flatten (sequence children) ->
  exists (n : Node) (w : SpliceState U), n ∈ flatten made /\
    madeOf (model m) w (preserveElement (identityProvider m) (sorter m) te) n.
Proof.
  intros Hte.
  assert (Hall : Forall2
            (fun le n => exists w : SpliceState U, madeOf (model m) w le n)
            (le_flatten (preserveCollapseState (identityProvider m) (sorter m)
                            children))
            (flatten made)).
  { unfold createdNodes. destruct (IndexTreeModel.order (model m));
      apply createTreeNodes_made. }
  destruct (Forall2_elem_l _ _ _
              (preserveElement (identityProvider m) (sorter m) te) Hall)
    as (n & Hn & w & Hw).
  { rewrite preserveCollapseState_flatten. apply elem_of_map, Hte. }
  eauto.
Qed.

Lemma made_elements_NoDup :
  NoDup (map elementKey (flat_map IndexTreeModel.postorder made)).
Proof.
  rewrite postorder_flatten.
  unfold elementKey. rewrite <- (map_map element Some).
  apply (NoDup_fmap_2 Some).
  rewrite createdNodes_elements.
  change (map le_element (le_flatten ?l)) with (keysOf (fun e : T => e) l).
  rewrite preserveCollapseState_keys. exact Helements.
Qed.
End MadeOfDistinctElements.

(** The flags of the element of a description after the call are those of
    the node made of it; no two descriptions of the call have one
    element. *)
Lemma made_state {U : Type} (m m' : ObjectTreeModel) (parent : option T)
    (children : option (list ITreeElement))
    (onC onD : option (ITreeNodeCallback U)) (u u' : U) (te : ITreeElement) :
  wellFormed m ->
  NoDup (map te_element (te_flatten (sequence children))) ->
  setChildren m parent children onC onD u = (Ok u', m') ->
  te ∈ te_flatten (sequence children) ->
  exists w : SpliceState U,
    let state := preservedState (identityProvider m) te w in
    isCollapsed m' (Some (te_element te)) =
      Ok (default (IndexTreeModel.collapseByDefault (model m)) state.2) /\
    isCollapsible m' (Some (te_element te)) =
      Ok (default (IndexTreeModel.collapsibleByDefault (model m)) state.1).
Proof.
  intros Hwf Hd Hset Hte.
  pose proof (wellFormed_setChildren _ _ _ _ _ _ _ _ Hwf Hset) as (Hwf' & _).
  unfold setChildren in Hset.
  destruct (getElementLocation m parent) as [location|] eqn:Hloc; [|discriminate].
  destruct (getElementLocation_node _ _ _ Hloc) as (node & Hat & _).
  destruct (_setChildren_spec m location
              (preserveCollapseState (identityProvider m) (sorter m) children)
              onC onD u node Hat) as (kids & Hsplice & _ & Heq).
  rewrite Heq in Hset. injection Hset as _ <-.
  destruct (made_of_description m onC u children te Hte)
    as (n & w & Hn & Hel & Hc1 & Hc2).
  rewrite preserveElement_eq in Hel, Hc1, Hc2. cbn [le_element le_state] in *.
  exists w. cbv zeta. rewrite <- Hc1, <- Hc2, <- Hel.
  apply collapse_state_of.
  - exact Hwf'.
  - unfold liveNodes. cbn. eapply spliced_created; eauto.
  - cbn [nodes]. unfold updateTable.
    apply (lookup_inserting_NoDup elementKey).
    + apply made_elements_NoDup; assumption.
    + rewrite postorder_flatten. exact Hn.
Qed.

(** An explicit flag of a description is the flag that the description
    has, whichever node is found for it and whenever it is read. *)
Lemma preservedState_override {U : Type} (idp : option (T -> string))
    (te : ITreeElement) (w : SpliceState U) (d : bool) :
  (forall b, te_collapsed te = Some b ->
     default d (preservedState idp te w).2 = b) /\
  (forall b, te_collapsible te = Some b ->
     default d (preservedState idp te w).1 = b).
Proof.
  unfold preservedState.
  split; intros b Hb; rewrite Hb; destruct (existingNode idp w (te_element te));
    reflexivity.
Qed.


(** ** The collapse state after the call *)

(** The collapse state of the element of a description after the call is
    the state that the description has when it is read in the state
    before the call, or the engine's default. *)
Lemma created_state {U : Type} (m m' : ObjectTreeModel) (parent : option T)
    (children : option (list ITreeElement))
    (onC onD : option (ITreeNodeCallback U)) (u u' : U) (te : ITreeElement) :
  wellFormed m ->
  distinctKeys (identityProvider m) (sequence children) ->
  setChildren m parent children onC onD u = (Ok u', m') ->
  te ∈ te_flatten (sequence children) ->
  let state := preservedState (identityProvider m) te (spliceState m u) in
  isCollapsed m' (Some (te_element te)) =
    Ok (default (IndexTreeModel.collapseByDefault (model m)) state.2) /\
  isCollapsible m' (Some (te_element te)) =
    Ok (default (IndexTreeModel.collapsibleByDefault (model m)) state.1).
Proof.
  intros Hwf Hd Hset Hte state.
  pose proof (wellFormed_setChildren _ _ _ _ _ _ _ _ Hwf Hset) as (Hwf' & _).
  unfold setChildren in Hset.
  destruct (getElementLocation m parent) as [location|] eqn:Hloc; [|discriminate].
  destruct (getElementLocation_node _ _ _ Hloc) as (node & Hat & _).
  destruct (_setChildren_spec m location
              (preserveCollapseState (identityProvider m) (sorter m) children)
              onC onD u node Hat) as (kids & Hsplice & _ & Heq).
  rewrite Heq in Hset. injection Hset as _ <-.
  destruct (created_of_description m onC u children Hwf Hd te Hte)
    as (n & Hn & Hel & Hc1 & Hc2).
  rewrite preserveElement_eq in Hel, Hc1, Hc2. cbn [le_element le_state] in *.
  fold state in Hc1, Hc2. rewrite <- Hc1, <- Hc2, <- Hel.
  apply collapse_state_of.
  - exact Hwf'.
  - unfold liveNodes. cbn. eapply spliced_created; eauto.
  - cbn [nodes]. unfold updateTable.
    apply (lookup_inserting_NoDup elementKey).
    + apply created_elements_NoDup; assumption.
    + rewrite postorder_flatten. exact Hn.
Qed.

(** The node that [preserveCollapseState] finds for a description in an
    indexed model is the node that the description stands for. *)
Lemma existingNode_matches {U : Type} (m : ObjectTreeModel) (u : U)
    (old : Node) (te : ITreeElement) :
  indexed m -> old ∈ liveNodes m -> matches m old te ->
  existingNode (identityProvider m) (spliceState m u) (te_element te) = Some old.
Proof.
  intros (((Hnd & _) & _) & Hc1 & Hc2) Hold Hm. unfold existingNode. cbn.
  destruct Hm as [E|(Hnone & getId & Ei & E)].
  - pose proof (Hc1 old Hold) as H1. unfold elementKey in H1.
    rewrite <- E, H1. apply deref_live; assumption.
  - rewrite Ei in Hc2. pose proof (Hc2 old Hold) as H2.
    unfold identityKey in H2. rewrite Hnone, Ei, <- E, H2. cbn.
    apply deref_live; assumption.
Qed.

(** The collapse state of the element of a node of an indexed model is
    the state of that node. *)
Lemma state_before (m : ObjectTreeModel) (old : Node) :
  indexed m -> old ∈ liveNodes m ->
  isCollapsed m (Some (element old)) = Ok (collapsed old) /\
  isCollapsible m (Some (element old)) = Ok (collapsible old).
Proof.
  intros ((Hwf & _) & Hc & _) Hold.
  apply collapse_state_of; [exact Hwf|exact Hold|apply (Hc old Hold)].
Qed.

(** C1, as amended: in an indexed model, where every node of the tree has
    its own entry in both tables, and for a call in which no two
    descriptions stand for one item, a description that overrides neither
    [collapsible] nor [collapsed] and stands for a node of the model, by
    its element or, with another object as its element, by its identity
    key, has after [setChildren] the collapse state that the element of
    that node had before. *)
Theorem collapse_state_preserved {U : Type} (m m' : ObjectTreeModel)
    (parent : option T) (children : option (list ITreeElement))
    (onDidCreateNode onDidDeleteNode : option (ITreeNodeCallback U)) (u u' : U)
    (te : ITreeElement) (old : Node) :
  indexed m ->
  distinctKeys (identityProvider m) (sequence children) ->
  setChildren m parent children onDidCreateNode onDidDeleteNode u = (Ok u', m') ->
  te ∈ te_flatten (sequence children) ->
  te_collapsible te = None -> te_collapsed te = None ->
  old ∈ liveNodes m -> matches m old te ->
  isCollapsed m' (Some (te_element te)) = isCollapsed m (Some (element old)) /\
  isCollapsible m' (Some (te_element te)) = isCollapsible m (Some (element old)) /\
  isCollapsed m (Some (element old)) = Ok (collapsed old) /\
  isCollapsible m (Some (element old)) = Ok (collapsible old).
Proof.
  intros Hi Hd Hset Hte Hno1 Hno2 Hold Hm.
  destruct (state_before m old Hi Hold) as [Hb1 Hb2].
  destruct (created_state m m' parent children _ _ u u' te (proj1 Hi) Hd Hset Hte)
    as [Ha1 Ha2].
  unfold preservedState in Ha1, Ha2.
  rewrite (existingNode_matches m u old te Hi Hold Hm) in Ha1, Ha2.
  rewrite Hno1 in Ha2. rewrite Hno2 in Ha1. cbn in Ha1, Ha2.
  rewrite Ha1, Ha2, Hb1, Hb2. auto.
Qed.

(** C2: an override of a description decides.  A description with
    [collapsed = true] is collapsed after [setChildren], whatever the
    node was that it stands for, whatever the other descriptions of the
    call are and whatever their identity keys; the same holds of every
    explicit [collapsed] and [collapsible].  All that is asked of the call
    is that no two of its descriptions have one element, since the state
    of an element is the state of one node.  Where there is no override
    the value of the existing node is taken: for a description that stands
    for a node of an indexed model, in a call with one description for one
    item, each flag is the override when there is one and the value of
    that node otherwise. *)
Theorem override_takes_precedence {U : Type} (m m' : ObjectTreeModel)
    (parent : option T) (children : option (list ITreeElement))
    (onDidCreateNode onDidDeleteNode : option (ITreeNodeCallback U)) (u u' : U)
    (te : ITreeElement) :
  wellFormed m ->
  NoDup (map te_element (te_flatten (sequence children))) ->
  setChildren m parent children onDidCreateNode onDidDeleteNode u = (Ok u', m') ->
  te ∈ te_flatten (sequence children) ->
  (forall b, te_collapsed te = Some b ->
     isCollapsed m' (Some (te_element te)) = Ok b) /\
  (forall b, te_collapsible te = Some b ->
     isCollapsible m' (Some (te_element te)) = Ok b) /\
  (forall old, indexed m ->
     distinctKeys (identityProvider m) (sequence children) ->
     old ∈ liveNodes m -> matches m old te ->
     isCollapsed m' (Some (te_element te)) =
       Ok (default (collapsed old) (te_collapsed te)) /\
     isCollapsible m' (Some (te_element te)) =
       Ok (default (collapsible old) (te_collapsible te))).
Proof.
  intros Hwf Hd Hset Hte.
  destruct (made_state m m' parent children _ _ u u' te Hwf Hd Hset Hte)
    as (w & Ha1 & Ha2).
  split; [|split].
  - intros b Hb. rewrite Ha1. f_equal.
    apply (proj1 (preservedState_override _ te w _)), Hb.
  - intros b Hb. rewrite Ha2. f_equal.
    apply (proj2 (preservedState_override _ te w _)), Hb.
  - intros old Hi Hk Hold Hm.
    destruct (created_state m m' parent children _ _ u u' te Hwf Hk Hset Hte)
      as [Hb1 Hb2].
    unfold preservedState in Hb1, Hb2.
    rewrite (existingNode_matches m u old te Hi Hold Hm) in Hb1, Hb2.
    auto.
Qed.


(** ** The examples are indexed *)

Lemma indexed_after_setChildren {U : Type} (m : ObjectTreeModel)
    (parent : option T) (children : option (list ITreeElement))
    (onC onD : option (ITreeNodeCallback U)) (u : U) :
  indexed m ->
  distinctKeys (identityProvider m) (sequence children) ->
  keysFree m parent (sequence children) ->
  indexed (setChildren m parent children onC onD u).2.
Proof.
  intros Hi Hd Hf. eapply indexed_setChildren; [exact Hi|exact Hd|exact Hf|].
  apply surjective_pairing.
Qed.

Lemma keysFree_root (m : ObjectTreeModel) (l : list ITreeElement) :
  keysFree m None l.
Proof.
  intros n te Hn Hnot. exfalso. apply Hnot. exact Hn.
Qed.

Lemma indexed_abc : indexed abc.
Proof.
  apply indexed_after_setChildren.
  - apply indexed_create.
  - unfold distinctKeys. apply (bool_decide_unpack _). vm_compute. exact I.
  - apply keysFree_root.
Qed.

Lemma orphaned_not_indexed : ~ indexed orphaned.
Proof.
  intros (_ & _ & Hc). cbn in Hc.
  specialize (Hc (mkNode 1 3 false false [])).
  assert (Hin : mkNode 1 3 false false [] ∈ liveNodes orphaned).
  { vm_compute. repeat constructor. }
  specialize (Hc Hin). vm_compute in Hc. discriminate.
Qed.

Lemma indexed_stale : indexed stale.
Proof.
  change (indexed family). apply indexed_after_setChildren.
  - apply indexed_create.
  - unfold distinctKeys. apply (bool_decide_unpack _). vm_compute. exact I.
  - apply keysFree_root.
Qed.

Lemma collapse_state_preserved_witness :
  indexed abc /\
  distinctKeys (identityProvider abc) [leaf 13; leaf 2; leaf 1] /\
  setChildren abc None (Some [leaf 13; leaf 2; leaf 1]) None None tt
    = (Ok tt, refreshed) /\
  mkNode 2 3 false true [] ∈ liveNodes abc /\
  matches abc (mkNode 2 3 false true []) (leaf 13) /\
  isCollapsed refreshed (Some 13) = isCollapsed abc (Some 3) /\
  isCollapsible refreshed (Some 13) = isCollapsible abc (Some 3) /\
  isCollapsed abc (Some 3) = Ok true /\
  isCollapsible abc (Some 3) = Ok false.
Proof.
  assert (Hd : distinctKeys (identityProvider abc) [leaf 13; leaf 2; leaf 1]).
  { unfold distinctKeys. apply (bool_decide_unpack _). vm_compute. exact I. }
  assert (Hset : setChildren abc None (Some [leaf 13; leaf 2; leaf 1]) None None tt
                 = (Ok tt, refreshed)) by reflexivity.
  assert (Hold : mkNode 2 3 false true [] ∈ liveNodes abc).
  { vm_compute. repeat constructor. }
  assert (Hm : matches abc (mkNode 2 3 false true []) (leaf 13)).
  { right. split; [reflexivity|]. exists lastDigit. split; reflexivity. }
  split; [exact indexed_abc|]. split; [exact Hd|]. split; [exact Hset|].
  split; [exact Hold|]. split; [exact Hm|].
  apply (collapse_state_preserved abc refreshed None
           (Some [leaf 13; leaf 2; leaf 1]) None None tt tt (leaf 13)
           (mkNode 2 3 false true []) indexed_abc Hd Hset).
  - left.
  - reflexivity.
  - reflexivity.
  - exact Hold.
  - exact Hm.
Defined.

(** C1 as stated fails.  Identity keys are unique among siblings: [3] is
    the one child of [1] and is collapsed, [13] is the one child of [2],
    has the identity key of [3] and is expanded.  The child of [1] is
    given again as the new object [23] with the key of [3] and without an
    override: it is found by its key in the identity table, whose one
    entry for that key points at the node of [13], and so it is expanded
    although the item was collapsed.  It is so for either order of the
    engine's reports. *)
Lemma collapse_state_lost :
  wellFormed twins /\ wellFormed twinsLate /\
  map element (IndexTreeModel.root (model twins)) = [1; 2] /\
  siblingOrder twins (Some 1) = Ok [3] /\
  siblingOrder twins (Some 2) = Ok [13] /\
  lastDigit 23 = lastDigit 3 /\
  isCollapsed twins (Some 3) = Ok true /\
  setChildren twins (Some 1) (Some [leaf 23]) None None tt
    = (Ok tt, regiven twins) /\
  siblingOrder (regiven twins) (Some 1) = Ok [23] /\
  isCollapsed (regiven twins) (Some 23) = Ok false /\
  isCollapsed twinsLate (Some 3) = Ok true /\
  setChildren twinsLate (Some 1) (Some [leaf 23]) None None tt
    = (Ok tt, regiven twinsLate) /\
  isCollapsed (regiven twinsLate) (Some 23) = Ok false /\
  ~ (forall (m m' : ObjectTreeModel) (parent : option T)
       (children : option (list ITreeElement)) (te : ITreeElement) (old : Node),
       wellFormed m ->
       setChildren m parent children None None tt = (Ok tt, m') ->
       te ∈ te_flatten (sequence children) ->
       te_collapsible te = None -> te_collapsed te = None ->
       old ∈ below m parent ->
       has m (Some (element old)) = true ->
       matches m old te ->
       isCollapsed m' (Some (te_element te)) = isCollapsed m (Some (element old))).
Proof.
  assert (Hwf : wellFormed twins).
  { apply wellFormed_after_setChildren, wellFormed_create. }
  assert (Hwf' : wellFormed twinsLate).
  { apply wellFormed_after_setChildren, wellFormed_create. }
  assert (Hset : setChildren twins (Some 1) (Some [leaf 23]) None None tt
                 = (Ok tt, regiven twins)) by (vm_compute; reflexivity).
  split; [exact Hwf|]. split; [exact Hwf'|].
  do 5 (split; [vm_compute; reflexivity|]). split; [exact Hset|].
  do 5 (split; [vm_compute; reflexivity|]).
  intros H.
  specialize (H twins (regiven twins) (Some 1) (Some [leaf 23]) (leaf 23)
                (mkNode 1 3 true true []) Hwf Hset).
  assert (E : isCollapsed (regiven twins) (Some 23) = isCollapsed twins (Some 3)).
  { apply H.
    - cbn. left.
    - reflexivity.
    - reflexivity.
    - vm_compute. left.
    - vm_compute. reflexivity.
    - right. split; [vm_compute; reflexivity|].
      exists lastDigit. split; vm_compute; reflexivity. }
  vm_compute in E. discriminate.
Qed.

Lemma override_takes_precedence_witness :
  wellFormed cousins /\
  NoDup (map te_element
           (te_flatten
              [TreeElement 1 (Some [TreeElement 3 None None (Some true)]) None None;
               TreeElement 2 (Some [leaf 13]) None None])) /\
  lastDigit 3 = lastDigit 13 /\
  isCollapsed cousins (Some 3) = Ok false /\
  isCollapsed
    (setChildren cousins None
       (Some [TreeElement 1 (Some [TreeElement 3 None None (Some true)]) None None;
              TreeElement 2 (Some [leaf 13]) None None])
       None None tt).2
    (Some 3) = Ok true.
Proof.
  set (call := [TreeElement 1 (Some [TreeElement 3 None None (Some true)]) None None;
                TreeElement 2 (Some [leaf 13]) None None]).
  assert (Hwf : wellFormed cousins).
  { apply wellFormed_after_setChildren, wellFormed_create. }
  assert (Hd : NoDup (map te_element (te_flatten (sequence (Some call))))).
  { apply (bool_decide_unpack _). vm_compute. exact I. }
  assert (Hset : setChildren cousins None (Some call) None None tt
                 = (Ok tt, (setChildren cousins None (Some call) None None tt).2))
    by (vm_compute; reflexivity).
  assert (Hte : TreeElement 3 None None (Some true)
                ∈ te_flatten (sequence (Some call))).
  { cbn. right. left. }
  split; [exact Hwf|]. split; [exact Hd|]. split; [vm_compute; reflexivity|].
  split; [vm_compute; reflexivity|].
  exact (proj1 (override_takes_precedence cousins _ None (Some call) None None
                  tt tt (TreeElement 3 None None (Some true)) Hwf Hd Hset Hte)
           true eq_refl).
Defined.

(** ** The invariant of the tables *)

(** C4, as amended.  A model is indexed when every node of the tree has
    its entry in the element table, and in the identity table when an
    identity provider is configured, and there is no other entry.  A new
    model is indexed.  When the model is indexed before the call, it is
    indexed after [resort], and after [setChildren] when no two
    descriptions of the call stand for one item and none stands for an
    item that has a node which the call leaves in the tree.  In an indexed
    model [size] is the number of nodes of the tree. *)
Theorem index_invariant {U : Type} :
  (forall (user : string) (order : CallbackOrder)
     (collapsibleByDefault collapseByDefault : bool)
     (sorter : option (T -> T -> Z)) (identityProvider : option (T -> string)),
     indexed (create user order collapsibleByDefault collapseByDefault sorter
                identityProvider)) /\
  forall m : ObjectTreeModel,
    indexed m ->
    (forall (parent : option T) (children : option (list ITreeElement))
       (onDidCreateNode onDidDeleteNode : option (ITreeNodeCallback U)) (u : U)
       (r : Result U) (m' : ObjectTreeModel),
       distinctKeys (identityProvider m) (sequence children) ->
       keysFree m parent (sequence children) ->
       setChildren m parent children onDidCreateNode onDidDeleteNode u = (r, m') ->
       indexed m') /\
    (forall (parent : option T) (recursive : bool) (r : Result unit)
       (m' : ObjectTreeModel),
       resort m parent recursive = (r, m') -> indexed m') /\
    (forall n, n ∈ liveNodes m -> nodes m !! Some (element n) = Some (nref n)) /\
    (forall e r, nodes m !! Some e = Some r ->
       exists n, n ∈ liveNodes m /\ nref n = r /\ element n = e) /\
    (forall getId, identityProvider m = Some getId ->
       forall n, n ∈ liveNodes m ->
         nodesByIdentity m !! getId (element n) = Some (nref n)) /\
    (forall getId k r, identityProvider m = Some getId ->
       nodesByIdentity m !! k = Some r ->
       exists n, n ∈ liveNodes m /\ nref n = r /\ getId (element n) = k) /\
    size m = length (liveNodes m).
Proof.
  split; [intros; apply indexed_create|].
  intros m Hi. split; [|split; [|split; [|split; [|split; [|split]]]]].
  - intros parent children onC onD u r m' Hd Hf Hset.
    eapply indexed_setChildren; eauto.
  - intros parent recursive r m' Hres. eapply indexed_resort; eauto.
  - destruct Hi as (_ & Hc & _). exact Hc.
  - destruct Hi as ((_ & Hp & _) & _). intros e r He.
    destruct (Hp _ _ He) as (n & Hn & Hr & [= Hk]). eauto.
  - destruct Hi as (_ & _ & Hc). intros getId E. rewrite E in Hc. exact Hc.
  - destruct Hi as ((_ & _ & Hp) & _). intros getId k r E Hk.
    rewrite E in Hp. destruct (Hp _ _ Hk) as (n & Hn & Hr & Hkey). eauto.
  - apply indexed_size, Hi.
Qed.

(** On the example: the stale tree is indexed, [resort] changes the order
    of both of its levels, and the tree is indexed afterwards. *)
Lemma index_invariant_witness :
  indexed stale /\
  siblingOrder stale None = Ok [12; 30] /\
  siblingOrder stale (Some 30) = Ok [15; 21] /\
  resort stale None true = (Ok tt, (resort stale None true).2) /\
  siblingOrder (resort stale None true).2 None = Ok [30; 12] /\
  siblingOrder (resort stale None true).2 (Some 30) = Ok [21; 15] /\
  indexed (resort stale None true).2 /\
  size (resort stale None true).2 = 4.
Proof.
  destruct (proj2 (index_invariant (U := unit)) stale indexed_stale)
    as (_ & Hres & _).
  assert (Hr : resort stale None true = (Ok tt, (resort stale None true).2))
    by (vm_compute; reflexivity).
  split; [exact indexed_stale|].
  do 2 (split; [vm_compute; reflexivity|]). split; [exact Hr|].
  do 2 (split; [vm_compute; reflexivity|]).
  split; [exact (Hres None true (Ok tt) _ Hr)|].
  vm_compute. reflexivity.
Defined.

(** C4 as stated fails: identity keys are unique among siblings, and yet a
    node of the tree is left without an entry in the identity table. *)
Lemma index_invariant_lost :
  indexed identityModel /\
  setChildren identityModel None
    (Some [TreeElement 1 (Some [leaf 3]) None None;
           TreeElement 2 (Some [leaf 13]) None None]) None None tt
    = (Ok tt, cousins) /\
  setChildren cousins (Some 2) None None None tt = (Ok tt, orphaned) /\
  mkNode 1 3 false false [] ∈ liveNodes orphaned /\
  nodesByIdentity orphaned !! lastDigit 3 = None /\
  ~ indexed orphaned.
Proof.
  split; [apply indexed_create|].
  split; [vm_compute; reflexivity|]. split; [vm_compute; reflexivity|].
  split; [vm_compute; repeat constructor|]. split; [vm_compute; reflexivity|].
  exact orphaned_not_indexed.
Qed.


(** ** [resort] and the route through [setChildren] *)

Lemma evaluated_eq {W} (w : W) (le : LazyElement W) :
  evaluated w le =
    Lazy (le_element le) (fun _ => le_state le w)
      (map (evaluated w) (le_children le)).
Proof. destruct le; reflexivity. Qed.

Section Evaluated.
Context {W : Type} (m : IndexTreeModel.t).

(** What the engine makes of a sequence in one state depends on what
    the descriptions read in that state only. *)
Lemma createTreeNodes_evaluated_with (w : W) (l : list (LazyElement W)) :
  Forall (fun le => forall next,
    IndexTreeModel.createTreeNode m silent (evaluated w le) (next, w) =
      IndexTreeModel.createTreeNode m silent le (next, w)) l ->
  forall next,
    IndexTreeModel.createTreeNodes m silent (map (evaluated w) l) (next, w) =
      IndexTreeModel.createTreeNodes m silent l (next, w).
Proof.
  induction 1 as [|le l Hle _ IH]; intros next; [reflexivity|].
  cbn [map]. rewrite !createTreeNodes_cons, Hle. cbv zeta.
  destruct (createTreeNode_silent m le w next) as [Hw _].
  destruct (IndexTreeModel.createTreeNode m silent le (next, w))
    as [n [next' w']]. cbn [fst snd] in *. subst w'.
  rewrite IH. reflexivity.
Qed.

Lemma createTreeNode_evaluated (w : W) (le : LazyElement W) (next : nat) :
  IndexTreeModel.createTreeNode m silent (evaluated w le) (next, w) =
    IndexTreeModel.createTreeNode m silent le (next, w).
Proof.
  revert next. induction le as [e st kids IH] using LazyElement_forall_ind.
  intros next. rewrite evaluated_eq, !createTreeNode_eq.
  cbn [le_children le_element le_state fst snd].
  rewrite (createTreeNodes_evaluated_with w kids IH). reflexivity.
Qed.

Lemma createTreeNodes_evaluated (w : W) (l : list (LazyElement W)) (next : nat) :
  IndexTreeModel.createTreeNodes m silent (map (evaluated w) l) (next, w) =
    IndexTreeModel.createTreeNodes m silent l (next, w).
Proof.
  apply createTreeNodes_evaluated_with, Forall_forall.
  intros le _. apply createTreeNode_evaluated.
Qed.

(** Descriptions that read the same in every state are made into the
    same nodes whenever they are pulled. *)
Lemma createTreeNodes_constant_with (f : Node -> W -> W) (w0 : W)
    (l : list (LazyElement W)) :
  Forall (fun le => Forall constantState (le_subtree le) ->
    forall next w,
      (IndexTreeModel.createTreeNode m f le (next, w)).1 =
        (IndexTreeModel.createTreeNode m silent le (next, w0)).1) l ->
  Forall constantState (le_flatten l) ->
  forall next w,
    (IndexTreeModel.createTreeNodes m f l (next, w)).1 =
      (IndexTreeModel.createTreeNodes m silent l (next, w0)).1.
Proof.
  induction 1 as [|le l Hle _ IH]; intros Hc next w; [reflexivity|].
  rewrite le_flatten_cons in Hc. apply Forall_app in Hc as [Hc1 Hc2].
  rewrite !createTreeNodes_cons. cbn [fst snd].
  rewrite (Hle Hc1 next w). f_equal.
  destruct (createTreeNode_refs m f le (next, w)) as [_ Hn].
  destruct (createTreeNode_refs m silent le (next, w0)) as [_ Hn'].
  destruct (createTreeNode_silent m le w0 next) as [Hw' _].
  destruct (IndexTreeModel.createTreeNode m f le (next, w)) as [n1 [next1 w1]].
  destruct (IndexTreeModel.createTreeNode m silent le (next, w0))
    as [n2 [next2 w2]].
  cbn [fst snd] in *. subst. apply IH, Hc2.
Qed.

Lemma createTreeNode_constant (f : Node -> W -> W) (w0 : W)
    (le : LazyElement W) :
  Forall constantState (le_subtree le) ->
  forall next w,
    (IndexTreeModel.createTreeNode m f le (next, w)).1 =
      (IndexTreeModel.createTreeNode m silent le (next, w0)).1.
Proof.
  induction le as [e st kids IH] using LazyElement_forall_ind.
  intros Hc next w. rewrite le_subtree_eq in Hc.
  apply Forall_cons in Hc as [Hc1 Hc2].
  rewrite !createTreeNode_eq. cbn [fst snd le_children] in *.
  rewrite (createTreeNodes_constant_with f w0 kids IH Hc2 (S next) w).
  rewrite (Hc1 w w0). reflexivity.
Qed.

Lemma createTreeNodes_constant (f : Node -> W -> W) (w0 : W)
    (l : list (LazyElement W)) (next : nat) (w : W) :
  Forall constantState (le_flatten l) ->
  (IndexTreeModel.createTreeNodes m f l (next, w)).1 =
    (IndexTreeModel.createTreeNodes m silent l (next, w0)).1.
Proof.
  intros Hc. apply createTreeNodes_constant_with; [|exact Hc].
  apply Forall_forall. intros le _. apply createTreeNode_constant.
Qed.
End Evaluated.

Section SameSequence.
Context {U : Type} (idp : option (T -> string)) (compare : T -> T -> Z).
Context (recursive : bool) (w0 : SpliceState U).
Hypothesis Hconsistent : Consistent compare.

Local Abbreviation srt := (Some compare).
Local Abbreviation dn := (describeNode srt recursive).
Local Abbreviation rn := (resortNode (U := U) srt recursive).
Local Abbreviation pe := (preserveElement (U := U) idp srt).
Local Abbreviation level := (level compare).
Local Abbreviation walkable := (walkable idp compare recursive w0).

Lemma level_perm (b : bool) (kids : list Node) : level b kids ≡ₚ kids.
Proof. destruct b; [apply array_sort_perm|reflexivity]. Qed.

Lemma describe_level (b : bool) (kids : list Node) :
  (if b then sortDescriptions srt else id) (map dn kids) = map dn (level b kids).
Proof.
  destruct b; [|reflexivity]. unfold level. cbn [sortDescriptions].
  apply array_sort_map. intros x y. destruct x, y. reflexivity.
Qed.

Lemma resort_level (b : bool) (kids : list Node) :
  (if b then sortWith srt array_sort else id) (map rn kids) = map rn (level b kids).
Proof.
  destruct b; [|reflexivity]. cbn [sortWith level].
  apply array_sort_map. intros x y. rewrite !resortNode_eq. reflexivity.
Qed.

Lemma level_sorted (b : bool) (kids : list Node) :
  b = true \/ nonDecreasing (compareNodes compare) kids ->
  nonDecreasing (compareNodes compare) (level b kids).
Proof.
  intros [->|H].
  - apply array_sort_sorted, (Consistent_on compare element Hconsistent).
  - destruct b; [|exact H].
    apply array_sort_sorted, (Consistent_on compare element Hconsistent).
Qed.

(** One level fed through [preserveCollapseState] is the level that
    [resortChildren] yields, when the descriptions of its nodes are. *)
Lemma same_level (b : bool) (kids : list Node) :
  b = true \/ nonDecreasing (compareNodes compare) kids ->
  Forall (fun n => evaluated w0 (pe (dn n)) = evaluated w0 (rn n)) kids ->
  map (evaluated w0)
    (preserveCollapseState idp srt
       (Some ((if b then sortDescriptions srt else id) (map dn kids)))) =
  map (evaluated w0) ((if b then sortWith srt array_sort else id) (map rn kids)).
Proof.
  intros Hb Hkids.
  rewrite preserveCollapseState_sorted_first, describe_level, resort_level.
  cbn [sequence sortedDescriptions].
  rewrite (mergeSort_map (compareNodes compare) (compareDescriptions compare) dn)
    by (intros x y; destruct x, y; reflexivity).
  rewrite (mergeSort_sorted_id _ (Consistent_on compare element Hconsistent))
    by apply level_sorted, Hb.
  rewrite !map_map. apply map_ext_in. intros n Hn.
  rewrite Forall_forall in Hkids. apply Hkids.
  rewrite <- (level_perm b kids). apply list_elem_of_In, Hn.
Qed.

Lemma same_description (n : Node) :
  Forall walkable (subtree n) ->
  evaluated w0 (pe (dn n)) = evaluated w0 (rn n).
Proof.
  induction n as [r e c1 c2 kids IH] using Node_forall_ind.
  intros Hw. rewrite subtree_eq in Hw. apply Forall_cons in Hw as [[Hn Hs] Hw].
  cbn [children element] in *.
  rewrite !evaluated_eq, preserveElement_eq, resortNode_eq.
  cbn [le_element le_state le_children describeNode te_element te_children].
  f_equal.
  - unfold preservedState.
    cbn [te_element te_collapsible te_collapsed element collapsible collapsed].
    rewrite Hn. reflexivity.
  - unfold resortChildren. cbn [node_children children]. rewrite orb_false_r.
    apply same_level.
    + destruct Hs as [->|Hs]; auto.
    + rewrite Forall_forall in IH. apply Forall_forall. intros k Hk.
      apply IH; [exact Hk|]. apply Forall_forall. intros x Hx.
      rewrite Forall_forall in Hw. apply Hw.
      apply elem_of_flatten. eauto.
Qed.

Lemma same_sequence (node : ITreeNode) :
  Forall walkable (flatten (node_children node)) ->
  map (evaluated w0)
    (preserveCollapseState idp srt
       (Some (describeChildren srt node recursive true))) =
  map (evaluated w0) (resortChildren srt node recursive true).
Proof.
  intros Hw. unfold describeChildren, resortChildren. rewrite orb_true_r.
  apply (same_level true); [auto|].
  apply Forall_forall. intros k Hk. apply same_description.
  apply Forall_forall. intros x Hx. rewrite Forall_forall in Hw. apply Hw.
  apply elem_of_flatten. eauto.
Qed.
End SameSequence.

Section Routes.
Context {U : Type}.

Lemma _setChildren_same (m : ObjectTreeModel) (location : list nat)
    (l1 l2 : list (LazyElement (SpliceState U)))
    (onC onD : option (ITreeNodeCallback U)) (u : U) (node : ITreeNode) :
  IndexTreeModel.nodeAt location (IndexTreeModel.root (model m)) = Some node ->
  createdNodes m l1 onC u = createdNodes m l2 onC u ->
  _setChildren m location l1 onC onD u = _setChildren m location l2 onC onD u.
Proof.
  intros Hat Hc.
  destruct (_setChildren_spec m location l1 onC onD u node Hat)
    as (kids1 & Hs1 & _ & ->).
  destruct (_setChildren_spec m location l2 onC onD u node Hat)
    as (kids2 & Hs2 & _ & ->).
  rewrite <- (createdNodes_length m l1 onC u), <- (createdNodes_length m l2 onC u).
  rewrite Hc in Hs1 |- *. rewrite Hs1 in Hs2. injection Hs2 as ->.
  reflexivity.
Qed.

Lemma resortNode_constant (sorter : option (T -> T -> Z)) (recursive : bool)
    (n : Node) :
  Forall constantState (le_subtree (resortNode (U := U) sorter recursive n)).
Proof.
  induction n as [r e c1 c2 kids IH] using Node_forall_ind.
  rewrite le_subtree_eq, resortNode_eq. cbn [le_children].
  apply Forall_cons. split; [intros w w'; reflexivity|].
  unfold resortChildren. cbn [node_children children].
  rewrite (le_flatten_perm _ _ (resort_level_perm sorter (recursive || false) _)).
  induction IH as [|k kids Hk _ IHk]; [constructor|].
  cbn [map]. rewrite le_flatten_cons. apply Forall_app. auto.
Qed.

Lemma resortChildren_constant (sorter : option (T -> T -> Z)) (node : ITreeNode)
    (recursive first : bool) :
  Forall constantState
    (le_flatten (resortChildren (U := U) sorter node recursive first)).
Proof.
  unfold resortChildren.
  rewrite (le_flatten_perm _ _ (resort_level_perm sorter (recursive || first) _)).
  induction (node_children node) as [|k kids IH]; [constructor|].
  cbn [map]. rewrite le_flatten_cons. apply Forall_app.
  split; [apply resortNode_constant|exact IH].
Qed.

Lemma createdNodes_resort (m : ObjectTreeModel) (node : ITreeNode)
    (recursive : bool) (onC : option (ITreeNodeCallback U)) (u : U) :
  createdNodes m (resortChildren (sorter m) node recursive true) onC u =
    (IndexTreeModel.createTreeNodes (model m) silent
       (resortChildren (sorter m) node recursive true)
       (IndexTreeModel.next_ref (model m), spliceState m u)).1.
Proof.
  unfold createdNodes. destruct (IndexTreeModel.order (model m)); [|reflexivity].
  apply createTreeNodes_constant, resortChildren_constant.
Qed.
End Routes.

Section DescribedKeys.
Context (sorter : option (T -> T -> Z)) (recursive : bool).

Lemma sortDescriptions_perm (l : list ITreeElement) : sortDescriptions sorter l ≡ₚ l.
Proof. unfold sortDescriptions. destruct sorter; [apply array_sort_perm|reflexivity]. Qed.

Lemma describe_level_perm (b : bool) (l : list ITreeElement) :
  (if b then sortDescriptions sorter else id) l ≡ₚ l.
Proof. destruct b; [apply sortDescriptions_perm|reflexivity]. Qed.

Lemma te_flatten_perm (l l' : list ITreeElement) :
  l ≡ₚ l' -> te_flatten l ≡ₚ te_flatten l'.
Proof. apply Permutation_flat_map. Qed.

Lemma describeNodes_elements_with (b : bool) (kids : list Node) :
  Forall (fun n =>
    map te_element (te_subtree (describeNode sorter recursive n)) ≡ₚ
      map element (subtree n)) kids ->
  map te_element
    (te_flatten ((if b then sortDescriptions sorter else id)
                   (map (describeNode sorter recursive) kids)))
    ≡ₚ map element (flatten kids).
Proof.
  intros H. rewrite (te_flatten_perm _ _ (describe_level_perm b _)).
  induction H as [|n kids Hn _ IH]; [reflexivity|].
  cbn [map]. unfold te_flatten in *. cbn [flat_map].
  rewrite flatten_cons_subtree, !map_app, Hn, IH. reflexivity.
Qed.

Lemma describeNode_elements (n : Node) :
  map te_element (te_subtree (describeNode sorter recursive n)) ≡ₚ
    map element (subtree n).
Proof.
  induction n as [r e c1 c2 kids IH] using Node_forall_ind.
  rewrite te_subtree_eq, subtree_eq.
  cbn [describeNode te_children te_element sequence map element children].
  apply perm_skip. apply (describeNodes_elements_with recursive kids IH).
Qed.

Lemma describeChildren_elements (node : ITreeNode) (first : bool) :
  map te_element (te_flatten (describeChildren sorter node recursive first))
    ≡ₚ map element (flatten (node_children node)).
Proof.
  unfold describeChildren. apply describeNodes_elements_with, Forall_forall.
  intros n _. apply describeNode_elements.
Qed.
End DescribedKeys.

Lemma described_distinct (m : ObjectTreeModel) (location : list nat)
    (node : ITreeNode) (recursive : bool) :
  indexed m ->
  IndexTreeModel.nodeAt location (IndexTreeModel.root (model m)) = Some node ->
  distinctKeys (identityProvider m)
    (describeChildren (sorter m) node recursive true).
Proof.
  intros (((Hnd & _) & _) & Hc1 & Hc2) Hat. unfold distinctKeys.
  rewrite <- (map_map te_element (candidateKey (identityProvider m))).
  rewrite describeChildren_elements, map_map.
  destruct (nodeAt_splice location _ [] node Hat) as (kids & Hsplice & _).
  pose proof (deleted_NoDup _ _ _ _ _ Hsplice Hnd) as Hndd.
  assert (Hdl : forall d, d ∈ flatten (node_children node) ->
                  d ∈ flatten (IndexTreeModel.root (model m))).
  { intros d. apply (nodeAt_children_live _ _ _ d Hat). }
  apply (NoDup_map_by nref _ _ Hndd). intros a b Ha Hb E.
  unfold candidateKey in E.
  destruct (identityProvider m) as [getId|] eqn:Ei; injection E as E.
  - rewrite (covers_injective (identityKey getId) _ _ a b Hnd Hc2
               (Hdl a Ha) (Hdl b Hb) E). reflexivity.
  - rewrite (covers_injective elementKey _ _ a b Hnd Hc1 (Hdl a Ha) (Hdl b Hb));
      [reflexivity|]. unfold elementKey. rewrite E. reflexivity.
Qed.

(** C7, as amended: [resort] leaves the model that feeding the walk over
    the current node tree through [setChildren] leaves, when the model is
    indexed, the comparison of the sorter is consistent, and the resort is
    recursive or every level below the first is in order already. *)
Theorem resort_as_setChildren (m : ObjectTreeModel) (e : option T)
    (recursive : bool) :
  indexed m ->
  (forall compare, sorter m = Some compare ->
     Consistent compare /\
     (recursive = true \/
      forall n, n ∈ below m e ->
        nonDecreasing (compareNodes compare) (children n))) ->
  resort m e recursive = resortBySetChildren m e recursive.
Proof.
  intros Hi Hs. unfold resort, resortBySetChildren.
  destruct (sorter m) as [compare|] eqn:Hsorter; [|reflexivity].
  destruct (Hs compare eq_refl) as [Hc Hlevels].
  destruct (getElementLocation m e) as [location|] eqn:Hloc; [|reflexivity].
  destruct (getElementLocation_node _ _ _ Hloc) as (node & Hat & _).
  unfold IndexTreeModel.getNode. rewrite Hat.
  unfold setChildren. rewrite Hloc, Hsorter.
  apply (_setChildren_same m location _ _ None None tt node Hat).
  pose proof (createdNodes_resort (U := unit) m node recursive None tt) as E1.
  pose proof (createdNodes_preserve (U := unit) m None tt (proj1 Hi)
                (Some (describeChildren (sorter m) node recursive true))
                (described_distinct m location node recursive Hi Hat)) as E2.
  rewrite Hsorter in E1, E2. rewrite E1, E2.
  rewrite <- (createTreeNodes_evaluated (model m) (spliceState m tt)
                (resortChildren (Some compare) node recursive true)).
  rewrite <- (createTreeNodes_evaluated (model m) (spliceState m tt)
                (preserveCollapseState (identityProvider m) (Some compare) _)).
  rewrite (same_sequence (identityProvider m) compare recursive
             (spliceState m tt) Hc node); [reflexivity|].
  apply Forall_forall. intros x Hx. split.
  - apply (existingNode_matches m tt x (TreeElement (element x) None None None) Hi).
    + apply (nodeAt_children_live _ _ _ x Hat Hx).
    + left. reflexivity.
  - destruct Hlevels as [->|Hlevels]; [auto|]. right. apply Hlevels.
    rewrite (below_eq m e location node Hloc Hat). exact Hx.
Qed.

Lemma resort_as_setChildren_witness :
  indexed stale /\
  sorter stale = Some byUnits /\ Consistent byUnits /\
  resort stale None true = resortBySetChildren stale None true.
Proof.
  split; [exact indexed_stale|]. split; [reflexivity|].
  split; [exact byUnits_consistent|].
  apply (resort_as_setChildren stale None true indexed_stale).
  intros compare [= <-]. split; [exact byUnits_consistent|left; reflexivity].
Defined.

(** C7 as stated fails: [resort(null, false)] leaves the children of [30]
    as they are, the route through [setChildren] sorts them. *)
Lemma resort_differs_from_setChildren :
  indexed stale /\ Consistent byUnits /\
  (resort stale None false).1 = Ok tt /\
  (resortBySetChildren stale None false).1 = Ok tt /\
  siblingOrder (resort stale None false).2 (Some 30) = Ok [15; 21] /\
  siblingOrder (resortBySetChildren stale None false).2 (Some 30) = Ok [21; 15] /\
  resort stale None false <> resortBySetChildren stale None false.
Proof.
  split; [exact indexed_stale|]. split; [exact byUnits_consistent|].
  split; [reflexivity|]. split; [reflexivity|].
  split; [reflexivity|]. split; [reflexivity|].
  intros E.
  assert (H : siblingOrder (resort stale None false).2 (Some 30) =
              siblingOrder (resortBySetChildren stale None false).2 (Some 30))
    by (rewrite E; reflexivity).
  vm_compute in H. discriminate H.
Qed.


(** ** Elements, nodes and locations *)

Lemma has_entry (m : ObjectTreeModel) (e : option T) :
  has m e = true <-> is_Some (nodes m !! e).
Proof.
  unfold has. apply bool_decide_eq_true.
Qed.

Lemma entry_node (m : ObjectTreeModel) (e : T) (r : nat) :
  wellFormed m -> nodes m !! Some e = Some r ->
  exists n, n ∈ liveNodes m /\ nref n = r /\ element n = e /\
    deref (liveNodes m) r = Some n.
Proof.
  intros ((Hnd & _) & Hp & _) Hr.
  destruct (Hp _ _ Hr) as (n & Hn & Href & [= Hkey]).
  exists n. repeat split; try assumption.
  rewrite <- Href. apply deref_live; assumption.
Qed.

(** An element that a well-formed model has: its node is in the tree, at
    the location that the engine gives for it. *)
Lemma present_node (m : ObjectTreeModel) (e : T) :
  wellFormed m -> has m (Some e) = true ->
  exists location n,
    n ∈ liveNodes m /\ element n = e /\
    nodes m !! Some e = Some (nref n) /\
    getElementLocation m (Some e) = Ok location /\
    getNode m (Some e) = Ok (ElementNode n) /\
    IndexTreeModel.nodeAt location (IndexTreeModel.root (model m))
      = Some (ElementNode n).
Proof.
  intros Hwf He. apply has_entry in He as [r Hr].
  destruct (entry_node m e r Hwf Hr) as (n & Hn & Href & Hel & Hd).
  destruct (getNodeLocation_live (model m) n (proj1 Hwf) Hn) as (p & Hp & Hat).
  exists p, n. unfold getElementLocation, getNode. rewrite Hr. cbn.
  fold (liveNodes m). rewrite Hd, <- Href, Hp. repeat split; assumption.
Qed.

Lemma valid_location (m : ObjectTreeModel) (e : option T) :
  wellFormed m -> e = None \/ has m e = true ->
  exists location, getElementLocation m e = Ok location.
Proof.
  intros Hwf [->|He]; [exists []; reflexivity|].
  destruct e as [e|]; [|exists []; reflexivity].
  destruct (present_node m e Hwf He) as (location & _ & _ & _ & _ & H & _).
  eauto.
Qed.

Lemma descend_snoc (path : list nat) (i : nat) (n : Node) :
  IndexTreeModel.descend (path ++ [i]) n =
  IndexTreeModel.descend path n ≫= fun p => children p !! i.
Proof.
  revert n. induction path as [|j path IH]; intros n; cbn.
  - destruct (children n !! i); reflexivity.
  - destruct (children n !! j) as [c|]; cbn; [apply IH|reflexivity].
Qed.

(** The node at a location is a child of the node at the location without
    its last index. *)
Lemma nodeAt_parent (location : list nat) (kids : list Node) (n : Node) :
  IndexTreeModel.nodeAt location kids = Some (ElementNode n) ->
  exists parent,
    IndexTreeModel.nodeAt (removelast location) kids = Some parent /\
    n ∈ node_children parent /\
    match parent with
    | RootNode l => l = kids
    | ElementNode p => p ∈ flatten kids
    end.
Proof.
  destruct location as [|i rest]; [discriminate|].
  destruct (exists_last (l := i :: rest) ltac:(discriminate)) as (path & j & E).
  rewrite E, removelast_last. clear E. intros H.
  destruct path as [|k path].
  - cbn in H. destruct (kids !! j) as [c|] eqn:Ej; [|discriminate].
    cbn in H. injection H as ->. exists (RootNode kids). split; [reflexivity|].
    split; [|reflexivity]. cbn. eapply list_elem_of_lookup_2, Ej.
  - cbn in H. destruct (kids !! k) as [c|] eqn:Ek; [|discriminate].
    cbn in H. rewrite descend_snoc in H.
    destruct (IndexTreeModel.descend path c) as [p|] eqn:Ep; [|discriminate].
    cbn in H. destruct (children p !! j) as [x|] eqn:Ej; [|discriminate].
    injection H as ->. exists (ElementNode p). cbn. rewrite Ek. cbn.
    rewrite Ep. split; [reflexivity|]. split.
    + eapply list_elem_of_lookup_2, Ej.
    + eapply (lookup_descend_elem kids k path). rewrite Ek. cbn. exact Ep.
Qed.

Lemma wellFormed_abc : wellFormed abc.
Proof. exact (proj1 indexed_abc). Qed.

(** X1: the root sentinel is not an entry of the element table, so
    [has(null)] is false although [getNode(null)] returns the root; and
    [getNode] of an element returns a node only when [has] is true of the
    element, and then a node of the tree that holds the element. *)
Theorem getNode_only_live (m : ObjectTreeModel) :
  wellFormed m ->
  has m None = false /\
  getNode m None = Ok (RootNode (IndexTreeModel.root (model m))) /\
  forall (e : T) (node : ITreeNode),
    getNode m (Some e) = Ok node ->
    has m (Some e) = true /\
    exists n, node = ElementNode n /\ element n = e /\ n ∈ liveNodes m.
Proof.
  intros Hwf. split; [|split].
  - destruct (has m None) eqn:E; [|reflexivity].
    apply has_entry in E as [r Hr].
    destruct Hwf as (_ & Hp & _). destruct (Hp _ _ Hr) as (n & _ & _ & Hk).
    discriminate.
  - reflexivity.
  - intros e node H. unfold getNode in H.
    destruct (nodes m !! Some e) as [r|] eqn:Hr; [|discriminate].
    split; [apply has_entry; rewrite Hr; eauto|].
    destruct (entry_node m e r Hwf Hr) as (n & Hn & _ & He & Hd).
    cbn in H. fold (liveNodes m) in H. rewrite Hd in H. injection H as <-.
    eauto.
Qed.

Lemma getNode_only_live_witness :
  wellFormed abc /\
  has abc None = false /\
  getNode abc None = Ok (RootNode (IndexTreeModel.root (model abc))).
Proof.
  split; [exact wellFormed_abc|].
  destruct (getNode_only_live abc wellFormed_abc) as (H1 & H2 & _).
  split; [exact H1|exact H2].
Defined.

(** X2: the location of the root, and of an element that the model has,
    leads in the engine to the node that [getNode] returns for it. *)
Theorem getElementLocation_getNode (m : ObjectTreeModel) (e : option T) :
  wellFormed m -> e = None \/ has m e = true ->
  exists location node,
    getElementLocation m e = Ok location /\
    getNode m e = Ok node /\
    IndexTreeModel.getNode (model m) location = Ok node.
Proof.
  intros Hwf He.
  assert (Hroot : exists location node,
            getElementLocation m None = Ok location /\
            getNode m None = Ok node /\
            IndexTreeModel.getNode (model m) location = Ok node).
  { exists [], (RootNode (IndexTreeModel.root (model m))). repeat split. }
  destruct e as [e|]; [|exact Hroot].
  destruct He as [He|He]; [discriminate|].
  destruct (present_node m e Hwf He) as (location & n & _ & _ & _ & H1 & H2 & H3).
  exists location, (ElementNode n). unfold IndexTreeModel.getNode.
  rewrite H3. auto.
Qed.

Lemma getElementLocation_getNode_witness :
  wellFormed abc /\ has abc (Some 2) = true /\
  exists location node,
    getElementLocation abc (Some 2) = Ok location /\
    getNode abc (Some 2) = Ok node /\
    IndexTreeModel.getNode (model abc) location = Ok node.
Proof.
  split; [exact wellFormed_abc|]. split; [vm_compute; reflexivity|].
  apply (getElementLocation_getNode abc (Some 2) wellFormed_abc).
  right. vm_compute; reflexivity.
Defined.

(** X3: [isCollapsed] and [isCollapsible] of an element are the two flags
    of the node that [getNode] returns for it. *)
Theorem isCollapsed_of_node (m : ObjectTreeModel) (e : T) (n : Node) :
  wellFormed m -> getNode m (Some e) = Ok (ElementNode n) ->
  isCollapsed m (Some e) = Ok (collapsed n) /\
  isCollapsible m (Some e) = Ok (collapsible n).
Proof.
  intros Hwf H. unfold getNode in H.
  destruct (nodes m !! Some e) as [r|] eqn:Hr; [|discriminate].
  destruct (entry_node m e r Hwf Hr) as (n' & Hn & Href & _ & Hd).
  cbn in H. fold (liveNodes m) in H. rewrite Hd in H. injection H as <-.
  apply collapse_state_of; [apply Hwf|exact Hn|]. rewrite Href. exact Hr.
Qed.

Lemma isCollapsed_of_node_witness :
  wellFormed abc /\
  getNode abc (Some 3) = Ok (ElementNode (mkNode 2 3 false true [])) /\
  isCollapsed abc (Some 3) = Ok true /\
  isCollapsible abc (Some 3) = Ok false.
Proof.
  split; [exact wellFormed_abc|]. split; [vm_compute; reflexivity|].
  apply (isCollapsed_of_node abc 3 (mkNode 2 3 false true []) wellFormed_abc).
  vm_compute; reflexivity.
Defined.

(** X4: the parent location of an element that the model has is the
    element of the node among whose children the node of the element is,
    and null when that node is the root. *)
Theorem getParentNodeLocation_child (m : ObjectTreeModel) (e : T) :
  indexed m -> has m (Some e) = true ->
  exists n p parent,
    getNode m (Some e) = Ok (ElementNode n) /\
    getParentNodeLocation m (Some e) = Ok p /\
    getNode m p = Ok parent /\
    n ∈ node_children parent.
Proof.
  intros (Hwf & Hc & _) He.
  destruct (present_node m e Hwf He) as (loc & n & Hn & _ & Hr & Hloc & Hnode & Hat).
  destruct (nodeAt_parent _ _ _ Hat) as (parent & Hpar & Hin & Hkind).
  exists n, (node_element parent), parent. split; [exact Hnode|].
  unfold getParentNodeLocation. unfold getElementLocation in Hloc.
  rewrite Hr in *. rewrite Hloc. cbn [bind].
  unfold IndexTreeModel.getParentNodeLocation.
  destruct loc as [|i rest]; [discriminate|]. cbn [bind].
  unfold IndexTreeModel.getNode at 1. rewrite Hpar. cbn [bind].
  split; [reflexivity|]. split; [|exact Hin].
  destruct parent as [l|p]; cbn.
  - subst l. reflexivity.
  - unfold getNode. pose proof (Hc p Hkind) as Hcp. unfold elementKey in Hcp.
    rewrite Hcp. cbn. fold (liveNodes m).
    rewrite deref_live; [reflexivity|apply Hwf|exact Hkind].
Qed.

Lemma getParentNodeLocation_child_witness :
  indexed stale /\ has stale (Some 15) = true /\
  getParentNodeLocation stale (Some 15) = Ok (Some 30) /\
  exists n p parent,
    getNode stale (Some 15) = Ok (ElementNode n) /\
    getParentNodeLocation stale (Some 15) = Ok p /\
    getNode stale p = Ok parent /\
    n ∈ node_children parent.
Proof.
  split; [exact indexed_stale|]. split; [vm_compute; reflexivity|]. split; [vm_compute; reflexivity|].
  apply (getParentNodeLocation_child stale 15 indexed_stale). vm_compute; reflexivity.
Defined.


(** ** The model after [setChildren] *)

Lemma setChildren_spec {U : Type} (m : ObjectTreeModel) (parent : option T)
    (children : option (list ITreeElement))
    (onC onD : option (ITreeNodeCallback U)) (u : U) (location : list nat) :
  getElementLocation m parent = Ok location ->
  let created :=
    createdNodes m
      (preserveCollapseState (identityProvider m) (sorter m) children) onC u in
  exists node kids,
    IndexTreeModel.nodeAt location (IndexTreeModel.root (model m)) = Some node /\
    below m parent = flatten (node_children node) /\
    IndexTreeModel.spliceAt (location ++ [0]) MAX_VALUE created
      (IndexTreeModel.root (model m)) = Some (kids, node_children node) /\
    IndexTreeModel.nodeAt location kids = Some (withKids node created) /\
    setChildren m parent children onC onD u =
      (Ok (callerAfter (IndexTreeModel.order (model m)) onC onD
             (flat_map IndexTreeModel.postorder created) (below m parent) u),
       mkObjectTreeModel (user m)
         (IndexTreeModel.spliced (model m) kids
            (IndexTreeModel.next_ref (model m) + length (flatten created)))
         (updateTable elementKey (flat_map IndexTreeModel.postorder created)
            (below m parent) (nodes m))
         (updateIdentities (identityProvider m)
            (flat_map IndexTreeModel.postorder created) (below m parent)
            (nodesByIdentity m))
         (identityProvider m) (sorter m)).
Proof.
  intros Hloc created.
  destruct (getElementLocation_node m parent location Hloc) as (node & Hat & _).
  destruct (_setChildren_spec m location
              (preserveCollapseState (identityProvider m) (sorter m) children)
              onC onD u node Hat) as (kids & Hsp & Hat' & Hset).
  exists node, kids. rewrite (below_eq m parent location node Hloc Hat).
  split; [exact Hat|]. split; [reflexivity|]. split; [exact Hsp|].
  split; [exact Hat'|]. unfold setChildren. rewrite Hloc.
  subst created. rewrite createdNodes_length. exact Hset.
Qed.

Lemma setChildren_Ok {U : Type} (m m' : ObjectTreeModel) (parent : option T)
    (children : option (list ITreeElement))
    (onC onD : option (ITreeNodeCallback U)) (u u' : U) :
  setChildren m parent children onC onD u = (Ok u', m') ->
  exists location, getElementLocation m parent = Ok location.
Proof.
  unfold setChildren. destruct (getElementLocation m parent); [eauto|discriminate].
Qed.

(** The created nodes hold the elements of the descriptions. *)
Lemma created_elements {U : Type} (m : ObjectTreeModel)
    (children : option (list ITreeElement))
    (onC : option (ITreeNodeCallback U)) (u : U) :
  map element
    (flat_map IndexTreeModel.postorder
       (createdNodes m
          (preserveCollapseState (identityProvider m) (sorter m) children) onC u))
  ≡ₚ map te_element (te_flatten (sequence children)).
Proof.
  rewrite postorder_flatten, createdNodes_elements.
  change (map le_element (le_flatten ?l)) with (keysOf (fun e : T => e) l).
  apply (preserveCollapseState_keys _ _ (fun e : T => e)).
Qed.

Lemma lookup_updateTable {K} `{Countable K} (key : Node -> K)
    (created deleted : list Node) (t : gmap K nat) (k : K) :
  (k ∈ map key created -> is_Some (updateTable key created deleted t !! k)) /\
  (k ∉ map key created ->
   updateTable key created deleted t !! k =
     if decide (k ∈ map key deleted) then None else t !! k).
Proof.
  unfold updateTable. split.
  - intros Hk.
    destruct (lookup_inserting_some key (deleting key t deleted) created k Hk)
      as (n & _ & _ & ->). eauto.
  - intros Hk. rewrite lookup_inserting_notin by exact Hk. apply lookup_deleting.
Qed.

Lemma elementKey_elem (x : T) (l : list Node) :
  Some x ∈ map elementKey l <-> x ∈ map element l.
Proof.
  split; intros H.
  - apply elem_of_map_inv in H as (n & [= ->] & Hn). apply elem_of_map, Hn.
  - apply elem_of_map_inv in H as (n & -> & Hn).
    apply (elem_of_map elementKey), Hn.
Qed.

(** X6: after [setChildren] the model has exactly the elements that the
    call describes, at any depth, and the elements it had before whose
    nodes were not below the element whose children are replaced. *)
Theorem has_after_setChildren {U : Type} (m m' : ObjectTreeModel)
    (parent : option T) (children : option (list ITreeElement))
    (onDidCreateNode onDidDeleteNode : option (ITreeNodeCallback U))
    (u u' : U) (x : T) :
  setChildren m parent children onDidCreateNode onDidDeleteNode u = (Ok u', m') ->
  has m' (Some x) = true <->
    x ∈ map te_element (te_flatten (sequence children)) \/
    (has m (Some x) = true /\ x ∉ map element (below m parent)).
Proof.
  intros Hset. destruct (setChildren_Ok _ _ _ _ _ _ _ _ Hset) as (location & Hloc).
  destruct (setChildren_spec m parent children onDidCreateNode onDidDeleteNode u
              location Hloc) as (node & kids & _ & _ & _ & _ & E).
  rewrite E in Hset. injection Hset as _ <-.
  set (created := flat_map IndexTreeModel.postorder _).
  pose proof (created_elements m children onDidCreateNode u) as Hperm.
  fold created in Hperm.
  destruct (lookup_updateTable elementKey created (below m parent) (nodes m) (Some x))
    as [Hin Hout].
  rewrite !has_entry. cbn [nodes].
  destruct (decide (Some x ∈ map elementKey created)) as [Hc|Hc].
  - split; [intros _|intros _; apply Hin, Hc].
    left. rewrite <- Hperm. apply elementKey_elem, Hc.
  - rewrite (Hout Hc).
    destruct (decide (Some x ∈ map elementKey (below m parent))) as [Hd|Hd].
    + split; [intros [? ?]; discriminate|].
      intros [H|[_ H]].
      * exfalso. apply Hc, elementKey_elem. rewrite Hperm. exact H.
      * exfalso. apply H, elementKey_elem, Hd.
    + split; [intros H; right; split; [exact H|]|].
      * intros Hx. apply Hd, elementKey_elem, Hx.
      * intros [H|[H _]]; [|exact H].
        exfalso. apply Hc, elementKey_elem. rewrite Hperm. exact H.
Qed.

Lemma has_after_setChildren_witness :
  setChildren abc None (Some [leaf 13; leaf 2; leaf 1]) None None tt
    = (Ok tt, refreshed) /\
  has abc (Some 3) = true /\
  has refreshed (Some 3) = false /\
  (has refreshed (Some 3) = true <->
     3 ∈ map te_element (te_flatten [leaf 13; leaf 2; leaf 1]) \/
     (has abc (Some 3) = true /\ 3 ∉ map element (below abc None))).
Proof.
  split; [vm_compute; reflexivity|]. split; [vm_compute; reflexivity|]. split; [vm_compute; reflexivity|].
  apply (has_after_setChildren abc refreshed None
           (Some [leaf 13; leaf 2; leaf 1]) None None tt tt 3).
  vm_compute; reflexivity.
Defined.

(** X7: [setChildren] on the root or on an element that the model has does
    not throw.  It calls [onDidDeleteNode] once for every node that was
    below the element and [onDidCreateNode] once for every node it
    creates, of which there is one for every description of the call, at
    any depth; the created nodes are new node objects, and they are in the
    tree after the call. *)
Theorem setChildren_reports {U : Type} (m : ObjectTreeModel)
    (parent : option T) (children : option (list ITreeElement))
    (onDidCreateNode onDidDeleteNode : option (ITreeNodeCallback U)) (u : U) :
  wellFormed m -> parent = None \/ has m parent = true ->
  exists created m',
    setChildren m parent children onDidCreateNode onDidDeleteNode u =
      (Ok (callerAfter (IndexTreeModel.order (model m))
             onDidCreateNode onDidDeleteNode created (below m parent) u), m') /\
    map element created ≡ₚ map te_element (te_flatten (sequence children)) /\
    forall n, n ∈ created ->
      n ∈ liveNodes m' /\ nref n ∉ map nref (liveNodes m).
Proof.
  intros Hwf Hp.
  destruct (valid_location m parent Hwf Hp) as (location & Hloc).
  destruct (setChildren_spec m parent children onDidCreateNode onDidDeleteNode u
              location Hloc) as (node & kids & _ & _ & Hsp & _ & E).
  eexists _, _. split; [exact E|]. split; [apply created_elements|].
  intros n Hn. rewrite postorder_flatten in Hn. split.
  - cbn. eapply spliced_created; [exact Hsp|exact Hn].
  - intros Hold. apply elem_of_map_inv in Hold as (o & Er & Ho).
    destruct Hwf as ((_ & Hb) & _). rewrite Forall_forall in Hb.
    specialize (Hb o Ho).
    assert (Hr : nref n ∈ map nref (flatten (createdNodes m
                   (preserveCollapseState (identityProvider m) (sorter m) children)
                   onDidCreateNode u))) by apply elem_of_map, Hn.
    rewrite createdNodes_refs in Hr. apply elem_of_seq in Hr. lia.
Qed.

Lemma setChildren_reports_witness :
  wellFormed abc /\
  (setChildren abc None (Some [leaf 13; leaf 2; leaf 1])
     (Some (fun n log => inl (element n) :: log))
     (Some (fun n log => inr (element n) :: log)) []).1
    = Ok [inr 3; inr 2; inr 1; inl 1; inl 2; inl 13] /\
  exists created m',
    setChildren abc None (Some [leaf 13; leaf 2; leaf 1])
      (Some (fun n log => inl (element n) :: log))
      (Some (fun n log => inr (element n) :: log)) [] =
      (Ok (callerAfter (IndexTreeModel.order (model abc))
             (Some (fun n log => inl (element n) :: log))
             (Some (fun n log => inr (element n) :: log))
             created (below abc None) []), m') /\
    map element created ≡ₚ map te_element (te_flatten [leaf 13; leaf 2; leaf 1]) /\
    forall n, n ∈ created ->
      n ∈ liveNodes m' /\ nref n ∉ map nref (liveNodes abc).
Proof.
  split; [exact wellFormed_abc|]. split; [vm_compute; reflexivity|].
  apply (setChildren_reports abc None (Some [leaf 13; leaf 2; leaf 1])
           (Some (fun n log => inl (element n) :: log))
           (Some (fun n log => inr (element n) :: log)) [] wellFormed_abc).
  left. vm_compute; reflexivity.
Defined.

(** X8: without an identity provider the identity table is never written:
    [setChildren] and [resort] leave it as it is. *)
Theorem no_identityProvider_no_identities {U : Type} (m : ObjectTreeModel)
    (parent : option T) (children : option (list ITreeElement))
    (onDidCreateNode onDidDeleteNode : option (ITreeNodeCallback U)) (u : U)
    (recursive : bool) :
  identityProvider m = None ->
  nodesByIdentity (setChildren m parent children onDidCreateNode onDidDeleteNode u).2
    = nodesByIdentity m /\
  nodesByIdentity (resort m parent recursive).2 = nodesByIdentity m.
Proof.
  intros Hid.
  assert (H_ : forall V (l : list (LazyElement (SpliceState V))) location onC onD v,
             nodesByIdentity (_setChildren m location l onC onD v).2 = nodesByIdentity m).
  { intros V l location onC onD v.
    destruct (IndexTreeModel.nodeAt location (IndexTreeModel.root (model m)))
      as [node|] eqn:Hat.
    - destruct (_setChildren_spec m location l onC onD v node Hat)
        as (kids & _ & _ & ->). cbn. rewrite Hid. reflexivity.
    - rewrite _setChildren_invalid by exact Hat. reflexivity. }
  split.
  - unfold setChildren. destruct (getElementLocation m parent); [apply H_|reflexivity].
  - unfold resort. destruct (sorter m); [|reflexivity].
    destruct (getElementLocation m parent) as [location|]; [|reflexivity].
    destruct (IndexTreeModel.getNode (model m) location); [apply H_|reflexivity].
Qed.

Lemma no_identityProvider_no_identities_witness :
  identityProvider tensModel = None /\
  nodesByIdentity
    (setChildren tensModel None (Some [leaf 21; leaf 12; leaf 25; leaf 11])
       None None tt).2 = nodesByIdentity tensModel /\
  nodesByIdentity (resort tensModel None true).2 = nodesByIdentity tensModel.
Proof.
  split; [vm_compute; reflexivity|].
  apply (no_identityProvider_no_identities tensModel None
           (Some [leaf 21; leaf 12; leaf 25; leaf 11]) None None tt true).
  vm_compute; reflexivity.
Defined.

(** X9: in an indexed model, [setChildren] with one description for one
    item changes [size] by the number of descriptions of the call less
    the number of nodes that were below the element. *)
Theorem size_after_setChildren {U : Type} (m m' : ObjectTreeModel)
    (parent : option T) (children : option (list ITreeElement))
    (onDidCreateNode onDidDeleteNode : option (ITreeNodeCallback U)) (u u' : U) :
  indexed m ->
  distinctKeys (identityProvider m) (sequence children) ->
  keysFree m parent (sequence children) ->
  setChildren m parent children onDidCreateNode onDidDeleteNode u = (Ok u', m') ->
  size m' + length (below m parent)
    = size m + length (te_flatten (sequence children)).
Proof.
  intros Hi Hd Hf Hset.
  pose proof (indexed_setChildren _ _ _ _ _ _ _ _ Hi Hd Hf Hset) as Hi'.
  rewrite (indexed_size m Hi), (indexed_size m' Hi').
  destruct (setChildren_Ok _ _ _ _ _ _ _ _ Hset) as (location & Hloc).
  destruct (setChildren_spec m parent children onDidCreateNode onDidDeleteNode u
              location Hloc) as (node & kids & _ & Hb & Hsp & _ & E).
  rewrite E in Hset. injection Hset as _ <-. unfold liveNodes at 1. cbn.
  destruct (spliced_shallow _ _ _ _ _ Hsp) as (s & H1 & H2).
  apply Permutation_length in H1, H2.
  rewrite length_app, !length_map in H1, H2.
  rewrite Hb. fold (liveNodes m) in H1.
  pose proof (Permutation_length (created_elements m children onDidCreateNode u)) as H3.
  rewrite !length_map in H3.
  rewrite (Permutation_length (postorder_flatten _)) in H3.
  change (flat_map subtree kids) with (flatten kids). lia.
Qed.

Lemma size_after_setChildren_witness :
  indexed abc /\
  distinctKeys (identityProvider abc) [leaf 13; leaf 2] /\
  keysFree abc None [leaf 13; leaf 2] /\
  size abc = 3 /\
  size (setChildren abc None (Some [leaf 13; leaf 2]) None None tt).2 = 2 /\
  size (setChildren abc None (Some [leaf 13; leaf 2]) None None tt).2
    + length (below abc None)
    = size abc + length (te_flatten [leaf 13; leaf 2]).
Proof.
  assert (Hd : distinctKeys (identityProvider abc) [leaf 13; leaf 2]).
  { unfold distinctKeys. apply (bool_decide_unpack _). vm_compute. exact I. }
  split; [exact indexed_abc|]. split; [exact Hd|].
  split; [apply keysFree_root|]. split; [vm_compute; reflexivity|]. split; [vm_compute; reflexivity|].
  apply (size_after_setChildren abc _ None (Some [leaf 13; leaf 2]) None None tt tt
           indexed_abc Hd (keysFree_root abc _)).
  vm_compute; reflexivity.
Defined.


(** ** Nodes that a splice leaves in the tree *)

Section Kept.
Context {B : Type} (f : Node -> B).
Hypothesis Hf : forall n k, f (IndexTreeModel.withChildren n k) = f n.

Lemma spliceBelow_kept (rest : list nat) :
  forall i c ins kids kids' deleted,
  IndexTreeModel.spliceBelow i rest c ins kids = Some (kids', deleted) ->
  exists surviving,
    map f (flatten kids) ≡ₚ surviving ++ map f (flatten deleted) /\
    map f (flatten kids') ≡ₚ surviving ++ map f (flatten ins).
Proof.
  induction rest as [|j rest IH]; intros i c ins kids kids' deleted H;
    cbn [IndexTreeModel.spliceBelow] in H.
  - destruct (i <=? length kids); [|discriminate].
    destruct (array_splice_parts kids i c ins) as [H1 _].
    unfold IndexTreeModel.array_splice in H, H1. cbn [snd] in H1.
    injection H as <- <-.
    exists (map f (flatten (take i kids)) ++
            map f (flatten (drop (i + clamp c (length kids - i)) kids))).
    split.
    + rewrite H1 at 1. rewrite !flatten_app, !map_app.
      rewrite <- !app_assoc. apply Permutation_app_head, Permutation_app_comm.
    + rewrite !flatten_app, !map_app.
      rewrite <- !app_assoc. apply Permutation_app_head, Permutation_app_comm.
  - destruct (kids !! i) as [n|] eqn:E; [|discriminate]. cbn in H.
    destruct (IndexTreeModel.spliceBelow j rest c ins (children n))
      as [[k d]|] eqn:E'; [|discriminate].
    cbn in H. injection H as <- <-.
    destruct (IH _ _ _ _ _ _ E') as (s & Hs1 & Hs2).
    destruct (flatten_insert kids i n (IndexTreeModel.withChildren n k) E)
      as [H1 H2].
    exists (map f (flatten (take i kids)) ++ f n :: s ++
            map f (flatten (drop (S i) kids))).
    split.
    + rewrite H1, subtree_eq, !map_app. cbn [map]. rewrite Hs1.
      rewrite <- !app_assoc. apply Permutation_app_head. cbn.
      constructor. rewrite <- !app_assoc. apply Permutation_app_head.
      apply Permutation_app_comm.
    + rewrite H2, subtree_eq, !map_app.
      cbn [map children IndexTreeModel.withChildren].
      rewrite Hf, Hs2, <- !app_assoc. apply Permutation_app_head. cbn.
      constructor. rewrite <- !app_assoc. apply Permutation_app_head.
      apply Permutation_app_comm.
Qed.
End Kept.

(** A node that is not cut out is in the tree after the splice, with its
    identity, its element and its collapse state. *)
Lemma spliced_kept (location : list nat) (created kids kids' deleted : list Node)
    (n : Node) :
  IndexTreeModel.spliceAt location MAX_VALUE created kids = Some (kids', deleted) ->
  NoDup (map nref (flatten kids)) ->
  (forall d, d ∈ flatten deleted -> d ∈ flatten kids) ->
  n ∈ flatten kids -> n ∉ flatten deleted ->
  exists n', n' ∈ flatten kids' /\ nodeState n' = nodeState n.
Proof.
  intros Hsp Hnd Hdl Hn Hnot.
  destruct location as [|i rest]; [discriminate|]. cbn in Hsp.
  destruct (spliceBelow_kept nodeState (fun _ _ => eq_refl) _ _ _ _ _ _ _ Hsp)
    as (s & H1 & H2).
  assert (Hin : nodeState n ∈ s ++ map nodeState (flatten deleted)).
  { rewrite <- H1. apply elem_of_map, Hn. }
  apply elem_of_app in Hin as [Hin|Hin].
  - assert (Hin' : nodeState n ∈ map nodeState (flatten kids')).
    { rewrite H2. apply elem_of_app. left. exact Hin. }
    apply elem_of_map_inv in Hin' as (n' & E & Hn'). eauto.
  - exfalso. apply elem_of_map_inv in Hin as (d & E & Hd). apply Hnot.
    injection E as E _.
    rewrite (NoDup_nref_eq _ n d Hnd Hn (Hdl d Hd) E). exact Hd.
Qed.

(** X10: [setChildren] on one element leaves the rest of the tree alone:
    an element of an indexed model whose node is not below the element
    whose children are replaced, and which the call does not describe, is
    still there after the call, in the collapse state it had. *)
Theorem setChildren_elsewhere {U : Type} (m m' : ObjectTreeModel)
    (parent : option T) (children : option (list ITreeElement))
    (onDidCreateNode onDidDeleteNode : option (ITreeNodeCallback U))
    (u u' : U) (n : Node) :
  indexed m ->
  setChildren m parent children onDidCreateNode onDidDeleteNode u = (Ok u', m') ->
  n ∈ liveNodes m -> n ∉ below m parent ->
  element n ∉ map te_element (te_flatten (sequence children)) ->
  has m' (Some (element n)) = true /\
  isCollapsed m' (Some (element n)) = isCollapsed m (Some (element n)) /\
  isCollapsible m' (Some (element n)) = isCollapsible m (Some (element n)).
Proof.
  intros Hi Hset Hn Hnot Hnew.
  pose proof (wellFormed_setChildren _ _ _ _ _ _ _ _ (proj1 Hi) Hset) as Hwf'.
  destruct (setChildren_Ok _ _ _ _ _ _ _ _ Hset) as (location & Hloc).
  destruct (setChildren_spec m parent children onDidCreateNode onDidDeleteNode u
              location Hloc) as (node & kids & Hat & Hb & Hsp & _ & E).
  rewrite E in Hset. injection Hset as _ Hm'.
  pose proof (proj1 (proj1 (proj1 Hi))) as Hnd.
  assert (Hdl : forall d, d ∈ flatten (node_children node) ->
                  d ∈ flatten (IndexTreeModel.root (model m))).
  { intros d. apply (nodeAt_children_live _ _ _ d Hat). }
  rewrite Hb in Hnot.
  destruct (spliced_kept _ _ _ _ _ n Hsp Hnd Hdl Hn Hnot) as (n' & Hn' & En).
  injection En as E1 E2 E3 E4.
  assert (Hentry : nodes m' !! Some (element n) = Some (nref n')).
  { rewrite <- Hm'. cbn [nodes].
    set (created := flat_map IndexTreeModel.postorder _).
    destruct (lookup_updateTable elementKey created (below m parent) (nodes m)
                (Some (element n))) as [_ Hout].
    rewrite Hout.
    - rewrite decide_False.
      + rewrite E1. destruct Hi as (_ & Hc & _). apply (Hc n Hn).
      + intros Hd. apply elem_of_map_inv in Hd as (d & Ed & Hd).
        rewrite Hb in Hd. apply Hnot.
        destruct Hi as (_ & Hc & _).
        rewrite (covers_injective elementKey _ _ n d Hnd Hc Hn (Hdl d Hd) Ed).
        exact Hd.
    - intros Hc. apply elementKey_elem in Hc.
      apply Hnew. rewrite <- (created_elements m children onDidCreateNode u).
      exact Hc. }
  assert (Hlive : n' ∈ liveNodes m').
  { rewrite <- Hm'. exact Hn'. }
  destruct (collapse_state_of m' (element n) n' (proj1 Hwf') Hlive Hentry) as [A1 A2].
  destruct (state_before m n Hi Hn) as [B1 B2].
  rewrite A1, A2, B1, B2, E3, E4. split; [|auto].
  apply has_entry. rewrite Hentry. eauto.
Qed.

Lemma indexed_folded : indexed folded.
Proof.
  change (indexed
    (setChildren tensModel None
       (Some [TreeElement 30 (Some [leaf 21; leaf 15]) (Some true) (Some true);
              leaf 12])
       None None tt).2).
  apply indexed_after_setChildren.
  - apply indexed_create.
  - unfold distinctKeys. apply (bool_decide_unpack _). vm_compute. exact I.
  - apply keysFree_root.
Qed.

Lemma setChildren_elsewhere_witness :
  indexed folded /\
  setChildren folded (Some 12) (Some [leaf 40]) None None tt
    = (Ok tt, (setChildren folded (Some 12) (Some [leaf 40]) None None tt).2) /\
  mkNode 1 30 true true
    [mkNode 2 15 false false []; mkNode 3 21 false false []] ∈ liveNodes folded /\
  isCollapsed folded (Some 30) = Ok true /\
  has (setChildren folded (Some 12) (Some [leaf 40]) None None tt).2 (Some 30)
    = true /\
  isCollapsed (setChildren folded (Some 12) (Some [leaf 40]) None None tt).2
    (Some 30) = isCollapsed folded (Some 30) /\
  isCollapsible (setChildren folded (Some 12) (Some [leaf 40]) None None tt).2
    (Some 30) = isCollapsible folded (Some 30).
Proof.
  set (n := mkNode 1 30 true true
              [mkNode 2 15 false false []; mkNode 3 21 false false []]).
  assert (Hset : setChildren folded (Some 12) (Some [leaf 40]) None None tt
            = (Ok tt, (setChildren folded (Some 12) (Some [leaf 40]) None None tt).2))
    by (vm_compute; reflexivity).
  assert (Hn : n ∈ liveNodes folded) by (vm_compute; repeat constructor).
  assert (Hnot : n ∉ below folded (Some 12)).
  { intros H. vm_compute in H. inversion H. }
  assert (Hnew : element n ∉ map te_element (te_flatten (sequence (Some [leaf 40])))).
  { intros H. vm_compute in H.
    apply elem_of_cons in H as [H|H]; [discriminate|inversion H]. }
  split; [exact indexed_folded|]. split; [exact Hset|]. split; [exact Hn|].
  split; [vm_compute; reflexivity|].
  exact (setChildren_elsewhere folded _ (Some 12) (Some [leaf 40]) None None
           tt tt n indexed_folded Hset Hn Hnot Hnew).
Defined.


(** ** What [resortChildren] yields *)

Section ResortDescribes.
Context {U : Type} (sorter : option (T -> T -> Z)) (recursive : bool).
Context (w : SpliceState U).

Lemma resortNodes_describe_with (b : bool) (kids : list Node) :
  Forall (fun n =>
    map (readIn w) (le_subtree (resortNode (U := U) sorter recursive n)) ≡ₚ
      map asDescribed (subtree n)) kids ->
  map (readIn w)
    (le_flatten ((if b then sortWith sorter array_sort else id)
                   (map (resortNode (U := U) sorter recursive) kids)))
    ≡ₚ map asDescribed (flatten kids).
Proof.
  intros H. rewrite (le_flatten_perm _ _ (resort_level_perm sorter b _)).
  induction H as [|n kids Hn _ IH]; [reflexivity|].
  cbn [map]. rewrite le_flatten_cons, flatten_cons_subtree, !map_app, Hn, IH.
  reflexivity.
Qed.

Lemma resortNode_describes (n : Node) :
  map (readIn w) (le_subtree (resortNode (U := U) sorter recursive n)) ≡ₚ
    map asDescribed (subtree n).
Proof.
  induction n as [r e c1 c2 kids IH] using Node_forall_ind.
  rewrite le_subtree_eq, subtree_eq.
  cbn [resortNode le_children map element children].
  apply perm_skip. apply (resortNodes_describe_with recursive kids IH).
Qed.

Lemma resortChildren_read (node : ITreeNode) (first : bool) :
  map (readIn w) (le_flatten (resortChildren (U := U) sorter node recursive first))
    ≡ₚ map asDescribed (flatten (node_children node)).
Proof.
  unfold resortChildren. apply resortNodes_describe_with, Forall_forall.
  intros n _. apply resortNode_describes.
Qed.
End ResortDescribes.

Lemma resortNode_element {U : Type} (sorter : option (T -> T -> Z))
    (recursive : bool) (l : list Node) :
  map le_element (map (resortNode (U := U) sorter recursive) l) = map element l.
Proof.
  rewrite map_map. apply map_ext. intros a. destruct a; reflexivity.
Qed.

(** X15: [resortChildren] yields one description for every node below the
    node it walks, with the element of that node and both of its flags
    given, whenever the descriptions are read.  Its first level holds the
    children of the node: in their order when neither [first] nor
    [recursive] is set; otherwise, for a consistent comparison of the
    sorter, in the order of the sorter, children that compare equal in
    the order they had. *)
Theorem resortChildren_describes {U : Type} (compare : T -> T -> Z)
    (node : ITreeNode) (recursive first : bool) (w : SpliceState U) :
  let described := resortChildren (Some compare) node recursive first in
  map (readIn w) (le_flatten described)
    ≡ₚ map asDescribed (flatten (node_children node)) /\
  map (readIn w) described ≡ₚ map asDescribed (node_children node) /\
  (recursive || first = false ->
   map (readIn w) described = map asDescribed (node_children node)) /\
  (recursive || first = true -> Consistent compare ->
   nonDecreasing compare (map le_element described) /\
   forall x, ties compare x (map le_element described) =
             ties compare x (map element (node_children node))).
Proof.
  cbv zeta.
  assert (E : resortChildren (U := U) (Some compare) node recursive first =
              map (resortNode (Some compare) recursive)
                (if recursive || first
                 then array_sort (compareNodes compare) (node_children node)
                 else node_children node)).
  { unfold resortChildren.
    apply (resort_level (U := U) compare recursive (recursive || first)). }
  assert (R : forall l : list Node,
            map (readIn w) (map (resortNode (U := U) (Some compare) recursive) l) =
            map asDescribed l).
  { intros l. rewrite map_map. apply map_ext. intros a. destruct a; reflexivity. }
  split; [apply resortChildren_read|]. rewrite E, R, resortNode_element.
  split; [|split].
  - destruct (recursive || first); [|reflexivity].
    apply Permutation_map, array_sort_perm.
  - intros ->. reflexivity.
  - intros -> Hc.
    assert (Ee : map element (array_sort (compareNodes compare) (node_children node))
                 = array_sort compare (map element (node_children node))).
    { symmetry. apply array_sort_map. intros a b. reflexivity. }
    rewrite Ee.
    split; [apply array_sort_sorted, Hc|intros x; apply array_sort_ties, Hc].
Qed.

(** On the example: the first level of the stale tree as [resort]
    describes it. *)
Lemma resortChildren_describes_witness :
  orb false true = true /\ Consistent byUnits /\
  map (le_element (W := SpliceState unit))
    (resortChildren (Some byUnits)
       (RootNode (IndexTreeModel.root (model stale))) false true) = [30; 12] /\
  nonDecreasing byUnits
    (map (le_element (W := SpliceState unit))
       (resortChildren (Some byUnits)
          (RootNode (IndexTreeModel.root (model stale))) false true)).
Proof.
  split; [reflexivity|]. split; [exact byUnits_consistent|].
  split; [vm_compute; reflexivity|].
  exact (proj1 (proj2 (proj2 (proj2
           (resortChildren_describes (U := unit) byUnits
              (RootNode (IndexTreeModel.root (model stale))) false true
              (spliceState stale tt)))) eq_refl byUnits_consistent)).
Defined.

(** ** The model after [resort] *)

Lemma made_flags {W} (e : IndexTreeModel.t) (w : W)
    (les : list (LazyElement W)) (ns : list Node) :
  Forall2 (madeOf e w) les ns ->
  map flagsOf ns =
  map (fun le => (le_element le,
                  default (IndexTreeModel.collapsibleByDefault e) (le_state le w).1,
                  default (IndexTreeModel.collapseByDefault e) (le_state le w).2)) les.
Proof.
  induction 1 as [|le n les ns (H1 & H2 & H3) _ IH]; [reflexivity|].
  cbn. rewrite IH. unfold flagsOf. rewrite H1, H2, H3. reflexivity.
Qed.

(** The nodes that [resort] creates hold the elements of the nodes it
    deletes, in their collapse states. *)
Lemma resort_created_flags (m : ObjectTreeModel) (node : ITreeNode)
    (recursive : bool) :
  map flagsOf
    (flatten (createdNodes m (resortChildren (sorter m) node recursive true)
                None tt))
  ≡ₚ map flagsOf (flatten (node_children node)).
Proof.
  rewrite createdNodes_resort.
  destruct (createTreeNodes_silent (model m)
              (resortChildren (sorter m) node recursive true)
              (spliceState m tt) (IndexTreeModel.next_ref (model m))) as [_ H].
  rewrite (made_flags _ _ _ _ H).
  set (g := fun x : T * (option bool * option bool) =>
              (x.1, default (IndexTreeModel.collapsibleByDefault (model m)) x.2.1,
               default (IndexTreeModel.collapseByDefault (model m)) x.2.2)).
  transitivity (map g (map (readIn (spliceState m tt))
                  (le_flatten (resortChildren (sorter m) node recursive true)))).
  { rewrite map_map. reflexivity. }
  rewrite resortChildren_read, map_map. reflexivity.
Qed.

Lemma resort_spec (m : ObjectTreeModel) (compare : T -> T -> Z)
    (parent : option T) (recursive : bool) (location : list nat) :
  sorter m = Some compare ->
  getElementLocation m parent = Ok location ->
  exists node kids,
    let created :=
      createdNodes m (resortChildren (sorter m) node recursive true) None tt in
    IndexTreeModel.nodeAt location (IndexTreeModel.root (model m)) = Some node /\
    below m parent = flatten (node_children node) /\
    IndexTreeModel.spliceAt (location ++ [0]) MAX_VALUE created
      (IndexTreeModel.root (model m)) = Some (kids, node_children node) /\
    IndexTreeModel.nodeAt location kids = Some (withKids node created) /\
    resort m parent recursive =
      (Ok tt,
       mkObjectTreeModel (user m)
         (IndexTreeModel.spliced (model m) kids
            (IndexTreeModel.next_ref (model m) + length (flatten created)))
         (updateTable elementKey (flat_map IndexTreeModel.postorder created)
            (below m parent) (nodes m))
         (updateIdentities (identityProvider m)
            (flat_map IndexTreeModel.postorder created) (below m parent)
            (nodesByIdentity m))
         (identityProvider m) (sorter m)).
Proof.
  intros Hs Hloc.
  destruct (getElementLocation_node m parent location Hloc) as (node & Hat & _).
  destruct (_setChildren_spec m location
              (resortChildren (sorter m) node recursive true)
              None None tt node Hat) as (kids & Hsp & Hat' & Hset).
  exists node, kids. cbv zeta. rewrite (below_eq m parent location node Hloc Hat).
  split; [exact Hat|]. split; [reflexivity|]. split; [exact Hsp|].
  split; [exact Hat'|]. unfold resort. rewrite Hs, Hloc.
  unfold IndexTreeModel.getNode. rewrite Hat, <- Hs, Hset.
  rewrite createdNodes_length. f_equal. f_equal. apply unit_eq.
Qed.

Lemma resort_user (m : ObjectTreeModel) (parent : option T) (recursive : bool) :
  user (resort m parent recursive).2 = user m.
Proof.
  unfold resort. destruct (sorter m); [|reflexivity].
  destruct (getElementLocation m parent) as [location|]; [|reflexivity].
  destruct (IndexTreeModel.getNode (model m) location); [|reflexivity].
  unfold _setChildren.
  destruct (IndexTreeModel.splice _ _ _ _ _ _ _) as [[e s]|]; reflexivity.
Qed.

(** [resort] keeps the elements of the tree and their collapse states. *)
Lemma resort_flags (m : ObjectTreeModel) (parent : option T) (recursive : bool) :
  map flagsOf (liveNodes (resort m parent recursive).2)
    ≡ₚ map flagsOf (liveNodes m).
Proof.
  destruct (sorter m) as [compare|] eqn:Hs;
    [|unfold resort; rewrite Hs; reflexivity].
  destruct (getElementLocation m parent) as [location|] eqn:Hloc;
    [|unfold resort; rewrite Hs, Hloc; reflexivity].
  destruct (resort_spec m compare parent recursive location Hs Hloc)
    as (node & kids & _ & _ & Hsp & _ & E).
  rewrite E. unfold liveNodes. cbn.
  destruct (location ++ [0]) as [|i rest] eqn:El;
    [destruct location; discriminate|].
  cbn in Hsp.
  destruct (spliceBelow_kept flagsOf (fun _ _ => eq_refl) _ _ _ _ _ _ _ Hsp)
    as (s & H1 & H2).
  change (flat_map subtree kids) with (flatten kids).
  rewrite H2, H1. apply Permutation_app_head, resort_created_flags.
Qed.

Lemma flagsOf_element (l : list Node) :
  map element l = map (fun x => x.1.1) (map flagsOf l).
Proof. rewrite map_map. reflexivity. Qed.

(** Two indexed models whose trees hold the same elements in the same
    collapse states answer alike. *)
Lemma same_flags_same_answers (m m' : ObjectTreeModel) :
  indexed m -> indexed m' -> user m' = user m ->
  map flagsOf (liveNodes m') ≡ₚ map flagsOf (liveNodes m) ->
  size m' = size m /\
  forall x : T,
    has m' (Some x) = has m (Some x) /\
    isCollapsed m' (Some x) = isCollapsed m (Some x) /\
    isCollapsible m' (Some x) = isCollapsible m (Some x).
Proof.
  intros Hi Hi' Hu Hperm. split.
  - rewrite (indexed_size m Hi), (indexed_size m' Hi').
    apply Permutation_length in Hperm. rewrite !length_map in Hperm. exact Hperm.
  - intros x.
    destruct (decide (x ∈ map element (liveNodes m))) as [Hx|Hx].
    + apply elem_of_map_inv in Hx as (n & -> & Hn).
      assert (H : flagsOf n ∈ map flagsOf (liveNodes m')).
      { rewrite Hperm. apply elem_of_map, Hn. }
      apply elem_of_map_inv in H as (n' & E & Hn').
      injection E as E1 E2 E3.
      destruct (state_before m n Hi Hn) as [A1 A2].
      destruct (state_before m' n' Hi' Hn') as [B1 B2].
      rewrite A1, A2, E1, B1, B2, E2, E3.
      split; [|auto].
      destruct Hi as (_ & Hc & _), Hi' as (_ & Hc' & _).
      pose proof (Hc n Hn) as H1. pose proof (Hc' n' Hn') as H2.
      unfold elementKey in H1, H2. rewrite E1 in H1.
      transitivity true; [|symmetry]; apply has_entry; eauto.
    + assert (Hx' : x ∉ map element (liveNodes m')).
      { intros H. apply Hx. rewrite !flagsOf_element in *. rewrite <- Hperm. exact H. }
      assert (Habs : forall a, indexed a -> x ∉ map element (liveNodes a) ->
                nodes a !! Some x = None).
      { intros a ((_ & Hp & _) & _) Ha.
        destruct (nodes a !! Some x) as [r|] eqn:Hr; [|reflexivity].
        exfalso. destruct (Hp _ _ Hr) as (n & Hn & _ & [= <-]).
        apply Ha, elem_of_map, Hn. }
      pose proof (Habs m Hi Hx) as H1. pose proof (Habs m' Hi' Hx') as H2.
      unfold has, isCollapsed, isCollapsible.
      rewrite (getElementLocation_absent m x H1), (getElementLocation_absent m' x H2).
      rewrite H1, H2. unfold TreeNotFound. rewrite Hu. auto.
Qed.

(** X16: [resort] keeps the elements of the model and the collapse state
    of every one of them: in an indexed model [size], [has], [isCollapsed]
    and [isCollapsible] answer after the call as they did before. *)
Theorem resort_keeps_state (m m' : ObjectTreeModel) (parent : option T)
    (recursive : bool) (r : Result unit) :
  indexed m -> resort m parent recursive = (r, m') ->
  size m' = size m /\
  forall x : T,
    has m' (Some x) = has m (Some x) /\
    isCollapsed m' (Some x) = isCollapsed m (Some x) /\
    isCollapsible m' (Some x) = isCollapsible m (Some x).
Proof.
  intros Hi Hres.
  pose proof (indexed_resort _ _ _ _ _ Hi Hres) as Hi'.
  assert (Em : m' = (resort m parent recursive).2) by (rewrite Hres; reflexivity).
  apply same_flags_same_answers; [exact Hi|exact Hi'| |].
  - rewrite Em. apply resort_user.
  - rewrite Em. apply resort_flags.
Qed.

Lemma resort_keeps_state_witness :
  indexed folded /\
  siblingOrder folded None = Ok [12; 30] /\
  siblingOrder (resort folded None true).2 None = Ok [30; 12] /\
  isCollapsed folded (Some 30) = Ok true /\
  size (resort folded None true).2 = size folded /\
  isCollapsed (resort folded None true).2 (Some 30) = isCollapsed folded (Some 30).
Proof.
  split; [exact indexed_folded|]. split; [vm_compute; reflexivity|].
  split; [vm_compute; reflexivity|]. split; [vm_compute; reflexivity|].
  destruct (resort_keeps_state folded (resort folded None true).2 None true
              (resort folded None true).1 indexed_folded (surjective_pairing _))
    as [H1 H2].
  split; [exact H1|]. exact (proj1 (proj2 (H2 30))).
Defined.

(** ** The order of the children after a recursive [resort] *)

Section ChildrenOf.
Context {W : Type} (m : IndexTreeModel.t) (f : Node -> W -> W).

(** The children of a created node are made of the nested sequence of
    one of the descriptions, in its order. *)
Lemma createTreeNodes_children_with (l : list (LazyElement W)) :
  Forall (fun le => forall s n,
    n ∈ subtree (IndexTreeModel.createTreeNode m f le s).1 ->
    exists le', le' ∈ le_subtree le /\
      map element (children n) = map le_element (le_children le')) l ->
  forall s n, n ∈ flatten (IndexTreeModel.createTreeNodes m f l s).1 ->
    exists le', le' ∈ le_flatten l /\
      map element (children n) = map le_element (le_children le').
Proof.
  induction 1 as [|le l Hle _ IH]; intros s n Hn.
  - cbn in Hn. inversion Hn.
  - rewrite createTreeNodes_cons in Hn. cbn [fst] in Hn.
    rewrite flatten_cons_subtree in Hn. rewrite le_flatten_cons.
    apply elem_of_app in Hn as [Hn|Hn].
    + destruct (Hle _ _ Hn) as (le' & H1 & H2). exists le'.
      split; [apply elem_of_app; left; exact H1|exact H2].
    + destruct (IH _ _ Hn) as (le' & H1 & H2). exists le'.
      split; [apply elem_of_app; right; exact H1|exact H2].
Qed.

Lemma createTreeNode_children (le : LazyElement W) (s : nat * W) (n : Node) :
  n ∈ subtree (IndexTreeModel.createTreeNode m f le s).1 ->
  exists le', le' ∈ le_subtree le /\
    map element (children n) = map le_element (le_children le').
Proof.
  revert s n. induction le as [e st kids IH] using LazyElement_forall_ind.
  intros s n. rewrite createTreeNode_eq. cbn [fst].
  rewrite subtree_eq, le_subtree_eq.
  cbn [children IndexTreeModel.newNode le_children].
  intros Hn. apply elem_of_cons in Hn as [->|Hn].
  - exists (Lazy e st kids). split; [left|]. cbn. apply createTreeNodes_top.
  - destruct (createTreeNodes_children_with kids IH _ _ Hn) as (le' & H1 & H2).
    exists le'. split; [right; exact H1|exact H2].
Qed.

Lemma createTreeNodes_children (l : list (LazyElement W)) (s : nat * W) (n : Node) :
  n ∈ flatten (IndexTreeModel.createTreeNodes m f l s).1 ->
  exists le', le' ∈ le_flatten l /\
    map element (children n) = map le_element (le_children le').
Proof.
  apply createTreeNodes_children_with, Forall_forall.
  intros le _ s' n'. apply createTreeNode_children.
Qed.
End ChildrenOf.

Section SortedLevels.
Context {U : Type} (compare : T -> T -> Z).
Hypothesis Hconsistent : Consistent compare.

Lemma sorted_elements (kids : list Node) :
  nonDecreasing compare
    (map element (array_sort (compareNodes compare) kids)).
Proof.
  apply nonDecreasing_map. apply (array_sort_sorted (compareNodes compare)).
  apply (Consistent_on compare element Hconsistent).
Qed.

Lemma elem_of_le_flatten {W} (le : LazyElement W) (l : list (LazyElement W)) :
  le ∈ le_flatten l -> exists c, c ∈ l /\ le ∈ le_subtree c.
Proof.
  unfold le_flatten. intros H.
  apply list_elem_of_In, in_flat_map in H as (c & Hc & H).
  exists c. split; apply list_elem_of_In; assumption.
Qed.

Lemma resortNode_sorted (n : Node) :
  Forall (fun le => nonDecreasing compare (map le_element (le_children le)))
    (le_subtree (resortNode (U := U) (Some compare) true n)).
Proof.
  induction n as [r e c1 c2 kids IH] using Node_forall_ind.
  rewrite le_subtree_eq. cbn [resortNode le_children children].
  rewrite (resort_level (U := U) compare true true kids). unfold level.
  apply Forall_cons. split.
  - cbn [le_children]. rewrite resortNode_element. apply sorted_elements.
  - apply Forall_forall. intros le Hle.
    apply elem_of_le_flatten in Hle as (x & Hx & Hle).
    apply elem_of_map_inv in Hx as (c & -> & Hc).
    rewrite array_sort_perm in Hc.
    rewrite Forall_forall in IH. specialize (IH c Hc).
    rewrite Forall_forall in IH. apply IH, Hle.
Qed.

Lemma resortChildren_sorted (node : ITreeNode) :
  Forall (fun le => nonDecreasing compare (map le_element (le_children le)))
    (le_flatten (resortChildren (U := U) (Some compare) node true true)).
Proof.
  rewrite resortChildren_first. apply Forall_forall. intros le Hle.
  apply elem_of_le_flatten in Hle as (x & Hx & Hle).
  apply elem_of_map_inv in Hx as (c & -> & Hc).
  pose proof (resortNode_sorted c) as H. rewrite Forall_forall in H.
  apply H, Hle.
Qed.
End SortedLevels.

(** X17: after a recursive [resort] with a consistent sorter the children
    of the element are in the order of the sorter, and so are the children
    of every node below it. *)
Theorem resort_recursive_sorts (m : ObjectTreeModel) (compare : T -> T -> Z)
    (parent : option T) (location : list nat) :
  sorter m = Some compare -> Consistent compare ->
  getElementLocation m parent = Ok location ->
  exists node m',
    resort m parent true = (Ok tt, m') /\
    IndexTreeModel.getNode (model m') location = Ok node /\
    nonDecreasing compare (map element (node_children node)) /\
    forall n, n ∈ flatten (node_children node) ->
      nonDecreasing compare (map element (children n)).
Proof.
  intros Hs Hc Hloc.
  destruct (resort_spec m compare parent true location Hs Hloc)
    as (node & kids & _ & _ & _ & Hat & E).
  eexists _, _. split; [exact E|]. unfold IndexTreeModel.getNode. cbn.
  rewrite Hat. split; [reflexivity|]. rewrite node_children_withKids. split.
  - rewrite createdNodes_top, Hs, resortChildren_first, resortNode_element.
    apply (sorted_elements compare Hc).
  - intros n Hn. unfold createdNodes in Hn.
    assert (H : exists le',
              le' ∈ le_flatten (resortChildren (U := unit) (sorter m) node true true) /\
              map element (children n) = map le_element (le_children le')).
    { destruct (IndexTreeModel.order (model m));
        eapply createTreeNodes_children, Hn. }
    destruct H as (le' & H1 & ->). rewrite Hs in H1.
    pose proof (resortChildren_sorted (U := unit) compare Hc node) as Hall.
    rewrite Forall_forall in Hall. apply Hall, H1.
Qed.

Lemma resort_recursive_sorts_witness :
  sorter stale = Some byUnits /\ Consistent byUnits /\
  getElementLocation stale None = Ok [] /\
  siblingOrder (resort stale None true).2 (Some 30) = Ok [21; 15] /\
  exists node m',
    resort stale None true = (Ok tt, m') /\
    IndexTreeModel.getNode (model m') [] = Ok node /\
    nonDecreasing byUnits (map element (node_children node)) /\
    forall n, n ∈ flatten (node_children node) ->
      nonDecreasing byUnits (map element (children n)).
Proof.
  assert (Hs : sorter stale = Some byUnits) by (vm_compute; reflexivity).
  assert (Hloc : getElementLocation stale None = Ok []) by (vm_compute; reflexivity).
  split; [exact Hs|]. split; [exact byUnits_consistent|].
  split; [exact Hloc|]. split; [vm_compute; reflexivity|].
  exact (resort_recursive_sorts stale byUnits None [] Hs byUnits_consistent Hloc).
Defined.


(** ** The shape of the tree that a call builds *)

Lemma node_outline_eq (n : Node) :
  node_outline n = outline (element n) (map node_outline (children n)).
Proof. destruct n; reflexivity. Qed.

Lemma le_outline_eq {W} (le : LazyElement W) :
  le_outline le = outline (le_element le) (map le_outline (le_children le)).
Proof. destruct le; reflexivity. Qed.

Lemma te_outline_eq (te : ITreeElement) :
  te_outline te =
  outline (te_element te) (map te_outline (sequence (te_children te))).
Proof. destruct te as [e [l|] c1 c2]; reflexivity. Qed.

Section Outlines.
Context {W : Type} (m : IndexTreeModel.t) (f : Node -> W -> W).

Lemma createTreeNodes_outline_with (l : list (LazyElement W)) :
  Forall (fun le => forall s,
    node_outline (IndexTreeModel.createTreeNode m f le s).1 = le_outline le) l ->
  forall s, map node_outline (IndexTreeModel.createTreeNodes m f l s).1 =
    map le_outline l.
Proof.
  induction 1 as [|le l Hle _ IH]; intros s; [reflexivity|].
  rewrite createTreeNodes_cons. cbn [fst map]. rewrite Hle, IH. reflexivity.
Qed.

Lemma createTreeNode_outline (le : LazyElement W) (s : nat * W) :
  node_outline (IndexTreeModel.createTreeNode m f le s).1 = le_outline le.
Proof.
  revert s. induction le as [e st kids IH] using LazyElement_forall_ind.
  intros s. rewrite createTreeNode_eq. cbn [fst].
  rewrite node_outline_eq, le_outline_eq. cbn. f_equal.
  apply (createTreeNodes_outline_with kids IH).
Qed.

Lemma createTreeNodes_outline (l : list (LazyElement W)) (s : nat * W) :
  map node_outline (IndexTreeModel.createTreeNodes m f l s).1 = map le_outline l.
Proof.
  apply createTreeNodes_outline_with, Forall_forall.
  intros le _. apply createTreeNode_outline.
Qed.
End Outlines.

Lemma createdNodes_outline {U : Type} (m : ObjectTreeModel)
    (l : list (LazyElement (SpliceState U)))
    (onC : option (ITreeNodeCallback U)) (u : U) :
  map node_outline (createdNodes m l onC u) = map le_outline l.
Proof.
  unfold createdNodes. destruct (IndexTreeModel.order (model m));
    apply createTreeNodes_outline.
Qed.

Lemma preserveElement_outline {U : Type} (idp : option (T -> string))
    (te : ITreeElement) :
  le_outline (preserveElement (U := U) idp None te) = te_outline te.
Proof.
  induction te as [e kids c1 c2 IH] using ITreeElement_forall_ind.
  rewrite preserveElement_eq, le_outline_eq, te_outline_eq.
  cbn [le_element le_children te_element te_children]. f_equal.
  unfold preserveCollapseState, sortWith. rewrite map_map.
  induction IH as [|c l Hc _ IHl]; [reflexivity|]. cbn. rewrite Hc, IHl. reflexivity.
Qed.

Lemma preserveCollapseState_outline {U : Type} (idp : option (T -> string))
    (children : option (list ITreeElement)) :
  map le_outline (preserveCollapseState (U := U) idp None children)
    = map te_outline (sequence children).
Proof.
  unfold preserveCollapseState, sortWith. rewrite map_map.
  apply map_ext. intros te. apply preserveElement_outline.
Qed.

(** X11: without a sorter the children that [setChildren] gives an element
    are the descriptions of the call in their order, and so it is at every
    depth. *)
Theorem setChildren_keeps_order {U : Type} (m m' : ObjectTreeModel)
    (parent : option T) (location : list nat)
    (children : option (list ITreeElement))
    (onDidCreateNode onDidDeleteNode : option (ITreeNodeCallback U)) (u : U)
    (r : Result U) :
  sorter m = None ->
  getElementLocation m parent = Ok location ->
  setChildren m parent children onDidCreateNode onDidDeleteNode u = (r, m') ->
  exists node,
    IndexTreeModel.getNode (model m') location = Ok node /\
    map node_outline (node_children node) = map te_outline (sequence children).
Proof.
  intros Hs Hloc Hset.
  destruct (setChildren_spec m parent children onDidCreateNode onDidDeleteNode u
              location Hloc) as (node & kids & _ & _ & _ & Hat & E).
  rewrite E in Hset. injection Hset as _ <-.
  eexists. unfold IndexTreeModel.getNode. cbn. rewrite Hat. split; [reflexivity|].
  rewrite node_children_withKids, createdNodes_outline, Hs.
  apply preserveCollapseState_outline.
Qed.

Lemma setChildren_keeps_order_witness :
  sorter abc = None /\
  getElementLocation abc (Some 2) = Ok [1] /\
  exists node,
    IndexTreeModel.getNode
      (model (setChildren abc (Some 2)
                (Some [TreeElement 9 (Some [leaf 8; leaf 7]) None None; leaf 4])
                None None tt).2) [1] = Ok node /\
    map node_outline (node_children node) =
      map te_outline
        (sequence (Some [TreeElement 9 (Some [leaf 8; leaf 7]) None None; leaf 4])).
Proof.
  assert (Hs : sorter abc = None) by (vm_compute; reflexivity).
  assert (Hloc : getElementLocation abc (Some 2) = Ok [1])
    by (vm_compute; reflexivity).
  split; [exact Hs|]. split; [exact Hloc|].
  exact (setChildren_keeps_order abc _ (Some 2) [1]
           (Some [TreeElement 9 (Some [leaf 8; leaf 7]) None None; leaf 4])
           None None tt _ Hs Hloc (surjective_pairing _)).
Defined.


(** ** The tables *)

(** X12: the entries of the two tables never dangle.  In a well-formed
    model, as a new one is, an entry points at a node of the tree that
    holds the element, or has the identity key, of the entry; and
    [setChildren] and [resort] make a well-formed model of a well-formed
    one, whatever the descriptions are. *)
Theorem entries_never_dangle {U : Type} (m : ObjectTreeModel) :
  wellFormed m ->
  (forall (parent : option T) (children : option (list ITreeElement))
     (onDidCreateNode onDidDeleteNode : option (ITreeNodeCallback U)) (u : U),
     wellFormed
       (setChildren m parent children onDidCreateNode onDidDeleteNode u).2) /\
  (forall (parent : option T) (recursive : bool),
     wellFormed (resort m parent recursive).2) /\
  (forall (e : option T) (r : nat), nodes m !! e = Some r ->
     exists n, n ∈ liveNodes m /\ nref n = r /\ e = Some (element n)) /\
  (forall (getId : T -> string) (id : string) (r : nat),
     identityProvider m = Some getId -> nodesByIdentity m !! id = Some r ->
     exists n, n ∈ liveNodes m /\ nref n = r /\ id = getId (element n)).
Proof.
  intros Hwf. split; [|split; [|split]].
  - intros. apply wellFormed_after_setChildren, Hwf.
  - intros parent recursive.
    eapply wellFormed_resort; [exact Hwf|apply surjective_pairing].
  - intros e r He. destruct Hwf as (_ & Hp & _).
    destruct (Hp _ _ He) as (n & Hn & Hr & Hk). eauto.
  - intros getId id r Hid He. destruct Hwf as (_ & _ & Hp). rewrite Hid in Hp.
    destruct (Hp _ _ He) as (n & Hn & Hr & Hk). eauto.
Qed.

Lemma entries_never_dangle_witness :
  wellFormed cousins /\
  ~ indexed orphaned /\
  wellFormed (setChildren cousins (Some 2) None None None tt).2.
Proof.
  assert (Hwf : wellFormed cousins).
  { apply wellFormed_after_setChildren, wellFormed_create. }
  split; [exact Hwf|]. split; [exact orphaned_not_indexed|].
  destruct (entries_never_dangle (U := unit) cousins Hwf) as (H & _).
  apply H.
Defined.

(** X13: the two staging sets of [_setChildren] make the order of the
    reports irrelevant to the tables: whether the created nodes are
    reported before the deleted ones or after them, both tables end up the
    same, and every created node has its entry. *)
Theorem staging_makes_order_irrelevant {U : Type}
    (identityProvider : option (T -> string))
    (onDidCreateNode onDidDeleteNode : option (ITreeNodeCallback U))
    (created deleted : list Node)
    (nodes0 : gmap (option T) nat) (ids0 : gmap string nat)
    (heap : list Node) (u : U) :
  let s0 := mkSpliceState nodes0 ids0 ∅ ∅ heap u in
  let onCreate := _onDidCreateNode identityProvider onDidCreateNode in
  let onDelete := _onDidDeleteNode identityProvider onDidDeleteNode in
  let createdFirst :=
    IndexTreeModel.report onDelete deleted
      (IndexTreeModel.report onCreate created s0) in
  let deletedFirst :=
    IndexTreeModel.report onCreate created
      (IndexTreeModel.report onDelete deleted s0) in
  s_nodes createdFirst = s_nodes deletedFirst /\
  s_nodesByIdentity createdFirst = s_nodesByIdentity deletedFirst /\
  forall n, n ∈ created ->
    is_Some (s_nodes createdFirst !! Some (element n)).
Proof.
  cbv zeta.
  destruct (tables_after identityProvider onDidCreateNode onDidDeleteNode
              CreateThenDelete created deleted nodes0 ids0 heap u) as (A1 & A2 & _).
  destruct (tables_after identityProvider onDidCreateNode onDidDeleteNode
              DeleteThenCreate created deleted nodes0 ids0 heap u) as (B1 & B2 & _).
  cbv zeta in A1, A2, B1, B2. rewrite A1, A2, B1, B2.
  split; [reflexivity|]. split; [reflexivity|].
  intros n Hn.
  apply (proj1 (lookup_updateTable elementKey created deleted nodes0
                  (Some (element n)))).
  apply (elem_of_map elementKey), Hn.
Qed.

(** X14: [preserveCollapseState] neither drops nor adds a description, at
    any depth; without a sorter it keeps every level in its order. *)
Theorem preserveCollapseState_keeps_descriptions {U : Type}
    (identityProvider : option (T -> string)) (sorter : option (T -> T -> Z))
    (elements : option (list ITreeElement)) :
  map le_element
    (le_flatten (preserveCollapseState (U := U) identityProvider sorter elements))
    ≡ₚ map te_element (te_flatten (sequence elements)) /\
  (sorter = None ->
   map le_outline (preserveCollapseState (U := U) identityProvider sorter elements)
     = map te_outline (sequence elements)).
Proof.
  split.
  - change (map le_element (le_flatten ?l)) with (keysOf (fun e : T => e) l).
    apply (preserveCollapseState_keys _ _ (fun e : T => e)).
  - intros ->. apply preserveCollapseState_outline.
Qed.

Lemma preserveCollapseState_keeps_descriptions_witness :
  map le_outline
    (preserveCollapseState (U := unit) (Some lastDigit) None
       (Some [TreeElement 9 (Some [leaf 8; leaf 7]) None None; leaf 4]))
  = [outline 9 [outline 8 []; outline 7 []]; outline 4 []].
Proof.
  apply (proj2 (preserveCollapseState_keeps_descriptions (U := unit)
                  (Some lastDigit) None
                  (Some [TreeElement 9 (Some [leaf 8; leaf 7]) None None; leaf 4]))).
  vm_compute; reflexivity.
Defined.


(** ** Forwarded calls *)

Lemma forward_answered `{EngineOperations} {A} (m : ObjectTreeModel)
    (e : option T) (location : list nat)
    (op : IndexTreeModel.t -> list nat -> Result (A * IndexTreeModel.t)) :
  getElementLocation m e = Ok location ->
  forward m e op = answered m (op (model m) location).
Proof.
  intros Hloc. unfold forward, answered. rewrite Hloc.
  destruct (op (model m) location) as [[a engine]|err]; reflexivity.
Qed.

Lemma answered_tables {A} (m : ObjectTreeModel)
    (r : Result (A * IndexTreeModel.t)) (x : option T) :
  has (answered m r).2 x = has m x.
Proof. destruct r as [[a engine]|err]; reflexivity. Qed.

(** X5: the calls that the model forwards reach the engine with the
    location of the node of the element: for an element that the model
    has, every one of them answers as the engine does at the location at
    which the engine has the node that [getNode] returns for the element.
    None of them changes what the model has. *)
Theorem forwarded_at_location `{EngineOperations} (m : ObjectTreeModel) (e : T)
    (collapsible collapsed recursive : option bool) :
  wellFormed m -> has m (Some e) = true ->
  exists (location : list nat) (n : Node),
    getNode m (Some e) = Ok (ElementNode n) /\
    IndexTreeModel.getNode (model m) location = Ok (ElementNode n) /\
    rerender m (Some e) = answered m (engine_rerender (model m) location) /\
    setCollapsible m (Some e) collapsible =
      answered m (engine_setCollapsible (model m) location collapsible) /\
    setCollapsed m (Some e) collapsed recursive =
      answered m (engine_setCollapsed (model m) location collapsed recursive) /\
    expandTo m (Some e) = answered m (engine_expandTo (model m) location) /\
    getListIndex m (Some e) = engine_getListIndex (model m) location /\
    getListRenderCount m (Some e) = engine_getListRenderCount (model m) location /\
    getFirstElementChild m (Some e) =
      engine_getFirstElementChild (model m) location /\
    getLastElementAncestor m (Some e) =
      engine_getLastElementAncestor (model m) location /\
    forall x,
      has (rerender m (Some e)).2 x = has m x /\
      has (setCollapsible m (Some e) collapsible).2 x = has m x /\
      has (setCollapsed m (Some e) collapsed recursive).2 x = has m x /\
      has (expandTo m (Some e)).2 x = has m x.
Proof.
  intros Hwf He.
  destruct (present_node m e Hwf He) as (location & n & _ & _ & _ & Hloc & Hnode & Hat).
  exists location, n. split; [exact Hnode|].
  split; [unfold IndexTreeModel.getNode; rewrite Hat; reflexivity|].
  unfold rerender, setCollapsible, setCollapsed, expandTo.
  rewrite !(forward_answered m (Some e) location) by exact Hloc.
  unfold getListIndex, getListRenderCount, getFirstElementChild,
    getLastElementAncestor, query. rewrite Hloc. cbn [bind].
  repeat (split; [reflexivity|]).
  intros x. rewrite !answered_tables. auto.
Qed.

Lemma forwarded_at_location_witness :
  wellFormed abc /\ has abc (Some 2) = true /\
  exists (location : list nat) (n : Node),
    getNode abc (Some 2) = Ok (ElementNode n) /\
    IndexTreeModel.getNode (model abc) location = Ok (ElementNode n) /\
    rerender abc (Some 2) = answered abc (engine_rerender (model abc) location) /\
    setCollapsible abc (Some 2) None =
      answered abc (engine_setCollapsible (model abc) location None) /\
    setCollapsed abc (Some 2) (Some true) None =
      answered abc (engine_setCollapsed (model abc) location (Some true) None) /\
    expandTo abc (Some 2) = answered abc (engine_expandTo (model abc) location) /\
    getListIndex abc (Some 2) = engine_getListIndex (model abc) location /\
    getListRenderCount abc (Some 2) =
      engine_getListRenderCount (model abc) location /\
    getFirstElementChild abc (Some 2) =
      engine_getFirstElementChild (model abc) location /\
    getLastElementAncestor abc (Some 2) =
      engine_getLastElementAncestor (model abc) location /\
    forall x,
      has (rerender abc (Some 2)).2 x = has abc x /\
      has (setCollapsible abc (Some 2) None).2 x = has abc x /\
      has (setCollapsed abc (Some 2) (Some true) None).2 x = has abc x /\
      has (expandTo abc (Some 2)).2 x = has abc x.
Proof.
  split; [exact wellFormed_abc|]. split; [vm_compute; reflexivity|].
  apply (forwarded_at_location abc 2 None (Some true) None wellFormed_abc).
  vm_compute; reflexivity.
Defined.


(** ** One location for one node *)
Lemma subtree_refs_disjoint (l : list Node) :
  NoDup (map nref (flatten l)) ->
  forall i j c1 c2 a b,
    l !! i = Some c1 -> l !! j = Some c2 -> i <> j ->
    a ∈ subtree c1 -> b ∈ subtree c2 -> nref a <> nref b.
Proof.
  induction l as [|c l IH]; intros Hnd i j c1 c2 a b Hi Hj Hne Ha Hb E;
    [discriminate|].
  rewrite flatten_cons_subtree, map_app in Hnd.
  apply NoDup_app in Hnd as (_ & Hdisj & Hnd).
  destruct i as [|i], j as [|j]; cbn in Hi, Hj.
  - contradiction.
  - injection Hi as ->. apply (Hdisj (nref a)); [apply elem_of_map, Ha|].
    rewrite E. apply elem_of_map. eapply elem_of_flatten_child; [|exact Hb].
    eapply list_elem_of_lookup_2, Hj.
  - injection Hj as ->. apply (Hdisj (nref b)); [apply elem_of_map, Hb|].
    rewrite <- E. apply elem_of_map. eapply elem_of_flatten_child; [|exact Ha].
    eapply list_elem_of_lookup_2, Hi.
  - apply (IH Hnd i j c1 c2 a b Hi Hj); [congruence|exact Ha|exact Hb|exact E].
Qed.

Lemma descend_unique (p1 : list nat) :
  forall n p2 a b,
    NoDup (map nref (subtree n)) ->
    IndexTreeModel.descend p1 n = Some a ->
    IndexTreeModel.descend p2 n = Some b ->
    nref a = nref b -> p1 = p2.
Proof.
  induction p1 as [|i r1 IH]; intros n p2 a b Hnd H1 H2 E.
  - cbn in H1. injection H1 as <-. destruct p2 as [|j r2]; [reflexivity|].
    exfalso. cbn in H2. destruct (children n !! j) as [c|] eqn:Ej; [|discriminate].
    cbn in H2. rewrite subtree_eq in Hnd. cbn in Hnd.
    apply NoDup_cons in Hnd as [Hn _]. apply Hn. rewrite E.
    apply elem_of_map. eapply elem_of_flatten_child.
    + eapply list_elem_of_lookup_2, Ej.
    + eapply descend_elem, H2.
  - cbn in H1. destruct (children n !! i) as [c1|] eqn:Ei; [|discriminate].
    cbn in H1. rewrite subtree_eq in Hnd. cbn in Hnd.
    apply NoDup_cons in Hnd as [Hn Hnd].
    destruct p2 as [|j r2].
    + exfalso. cbn in H2. injection H2 as <-. apply Hn. rewrite <- E.
      apply elem_of_map. eapply elem_of_flatten_child.
      * eapply list_elem_of_lookup_2, Ei.
      * eapply descend_elem, H1.
    + cbn in H2. destruct (children n !! j) as [c2|] eqn:Ej; [|discriminate].
      cbn in H2. destruct (decide (i = j)) as [->|Hne].
      * rewrite Ei in Ej. injection Ej as <-. f_equal.
        apply (IH c1 r2 a b); [|exact H1|exact H2|exact E].
        eapply NoDup_child; eauto.
      * exfalso.
        apply (subtree_refs_disjoint _ Hnd i j c1 c2 a b Ei Ej Hne); [| |exact E].
        -- eapply descend_elem, H1.
        -- eapply descend_elem, H2.
Qed.

Lemma nodeAt_unique (kids : list Node) (p1 p2 : list nat) (a b : Node) :
  NoDup (map nref (flatten kids)) ->
  IndexTreeModel.nodeAt p1 kids = Some (ElementNode a) ->
  IndexTreeModel.nodeAt p2 kids = Some (ElementNode b) ->
  nref a = nref b -> p1 = p2.
Proof.
  intros Hnd H1 H2 E.
  destruct p1 as [|i r1]; [discriminate|]. destruct p2 as [|j r2]; [discriminate|].
  cbn in H1, H2.
  destruct (kids !! i) as [c1|] eqn:Ei; [|discriminate].
  destruct (kids !! j) as [c2|] eqn:Ej; [|discriminate].
  cbn in H1, H2.
  destruct (IndexTreeModel.descend r1 c1) as [a'|] eqn:D1; [|discriminate].
  destruct (IndexTreeModel.descend r2 c2) as [b'|] eqn:D2; [|discriminate].
  injection H1 as ->. injection H2 as ->.
  destruct (decide (i = j)) as [->|Hne].
  - rewrite Ei in Ej. injection Ej as <-. f_equal.
    apply (descend_unique r1 c1 r2 a b); [|exact D1|exact D2|exact E].
    eapply NoDup_child; eauto.
  - exfalso.
    apply (subtree_refs_disjoint _ Hnd i j c1 c2 a b Ei Ej Hne); [| |exact E].
    + eapply descend_elem, D1.
    + eapply descend_elem, D2.
Qed.

Lemma nodeAt_snoc (location : list nat) (kids : list Node) (parent : ITreeNode)
    (i : nat) (c : Node) :
  IndexTreeModel.nodeAt location kids = Some parent ->
  node_children parent !! i = Some c ->
  IndexTreeModel.nodeAt (location ++ [i]) kids = Some (ElementNode c).
Proof.
  intros Hat Hi. destruct location as [|j rest].
  - cbn in Hat. injection Hat as <-. cbn in *. rewrite Hi. reflexivity.
  - cbn in Hat. cbn.
    destruct (kids !! j) as [x|] eqn:Ej; [|discriminate]. cbn in *.
    rewrite descend_snoc.
    destruct (IndexTreeModel.descend rest x) as [p|]; [|discriminate].
    injection Hat as <-. cbn in *. rewrite Hi. reflexivity.
Qed.

Lemma located_element (m : ObjectTreeModel) (parent : option T)
    (location : list nat) (node : ITreeNode) :
  wellFormed m ->
  getElementLocation m parent = Ok location ->
  IndexTreeModel.nodeAt location (IndexTreeModel.root (model m)) = Some node ->
  node_element node = parent.
Proof.
  intros Hwf Hloc Hat.
  destruct (getElementLocation_node m parent location Hloc) as (node' & Hat' & Hk).
  rewrite Hat in Hat'. injection Hat' as <-.
  destruct parent as [el|]; [|destruct Hk as [_ ->]; reflexivity].
  destruct Hk as (n0 & -> & Hn0 & Hr). cbn. f_equal.
  destruct (entry_node m el _ Hwf Hr) as (n1 & Hn1 & Href & Hel & _).
  rewrite <- Hel. f_equal.
  apply (NoDup_nref_eq (liveNodes m)); [apply Hwf|exact Hn0|exact Hn1|].
  symmetry. exact Href.
Qed.

(** X19: the children that [setChildren] gives an element are found again
    under it: in an indexed model, and with one description for one item,
    the description that comes [i]-th in the order of the call (in the
    order of the sorter when there is one) is at the location of the
    element followed by [i], and its parent location is the element. *)
Theorem setChildren_places_children {U : Type} (m m' : ObjectTreeModel)
    (parent : option T) (location : list nat)
    (children : option (list ITreeElement))
    (onDidCreateNode onDidDeleteNode : option (ITreeNodeCallback U))
    (u u' : U) (i : nat) (e : T) :
  indexed m ->
  distinctKeys (identityProvider m) (sequence children) ->
  keysFree m parent (sequence children) ->
  getElementLocation m parent = Ok location ->
  setChildren m parent children onDidCreateNode onDidDeleteNode u = (Ok u', m') ->
  map te_element (sortedDescriptions (sorter m) (sequence children)) !! i = Some e ->
  getElementLocation m' (Some e) = Ok (location ++ [i]) /\
  getParentNodeLocation m' (Some e) = Ok parent.
Proof.
  intros Hi Hd Hf Hloc Hset He.
  pose proof (indexed_setChildren _ _ _ _ _ _ _ _ Hi Hd Hf Hset) as Hi'.
  destruct (setChildren_spec m parent children onDidCreateNode onDidDeleteNode u
              location Hloc) as (node & kids & Hat & _ & Hsp & Hat' & E).
  rewrite E in Hset. injection Hset as _ Hm'.
  set (created := createdNodes m _ onDidCreateNode u) in *.
  assert (Hc : exists c, created !! i = Some c /\ element c = e).
  { assert (Hel : map element created !! i = Some e).
    { unfold created. rewrite createdNodes_top, preserveCollapseState_sorted_first,
        map_map.
      erewrite map_ext; [exact He|]. intros te. rewrite preserveElement_eq.
      reflexivity. }
    change (map element created) with (element <$> created) in Hel.
    rewrite list_lookup_fmap in Hel.
    destruct (created !! i) as [c|]; [|discriminate].
    injection Hel as Hel. eauto. }
  destruct Hc as (c & Hci & Hce).
  assert (Hlive : c ∈ liveNodes m').
  { rewrite <- Hm'. unfold liveNodes. cbn.
    eapply spliced_created; [exact Hsp|].
    apply elem_of_flatten_top. eapply list_elem_of_lookup_2, Hci. }
  destruct Hi' as (Hwf' & Hc' & _).
  pose proof (Hc' c Hlive) as Hentry. unfold elementKey in Hentry.
  rewrite Hce in Hentry.
  destruct (getNodeLocation_live (model m') c (proj1 Hwf') Hlive)
    as (loc' & Hloc' & Hat'').
  assert (Hroot : IndexTreeModel.root (model m') = kids).
  { rewrite <- Hm'. reflexivity. }
  rewrite Hroot in Hat''.
  assert (Hsnoc : IndexTreeModel.nodeAt (location ++ [i]) kids = Some (ElementNode c)).
  { eapply nodeAt_snoc; [exact Hat'|]. rewrite node_children_withKids. exact Hci. }
  assert (El : loc' = location ++ [i]).
  { apply (nodeAt_unique kids loc' (location ++ [i]) c c); auto.
    destruct Hwf' as ((Hnd & _) & _). unfold liveNodes in *.
    rewrite Hroot in Hnd. exact Hnd. }
  subst loc'.
  assert (Hget : getElementLocation m' (Some e) = Ok (location ++ [i])).
  { unfold getElementLocation. rewrite Hentry. exact Hloc'. }
  split; [exact Hget|].
  unfold getParentNodeLocation. unfold getElementLocation in Hget.
  rewrite Hentry in *. rewrite Hget. cbn [bind].
  unfold IndexTreeModel.getParentNodeLocation.
  destruct (location ++ [i]) as [|j rest] eqn:Eloc; [destruct location; discriminate|].
  rewrite <- Eloc, removelast_last. cbn [bind].
  unfold IndexTreeModel.getNode. rewrite Hroot, Hat'. cbn [bind]. f_equal.
  transitivity (node_element node); [destruct node; reflexivity|].
  apply (located_element m parent location node (proj1 Hi) Hloc Hat).
Qed.

Lemma keysFree_abc : keysFree abc (Some 2) [leaf 9; leaf 4].
Proof.
  intros n te Hn _ Hte.
  assert (Hk : candidateKey (identityProvider abc) (element n)
               ∈ [inl "1"; inl "2"; inl "3"]).
  { apply (elem_of_map (fun n => candidateKey (identityProvider abc) (element n)))
      in Hn. vm_compute in Hn. exact Hn. }
  assert (Ht : candidateKey (identityProvider abc) (te_element te)
               ∈ [inl "9"; inl "4"]).
  { apply (elem_of_map (fun te => candidateKey (identityProvider abc) (te_element te)))
      in Hte. vm_compute in Hte. exact Hte. }
  intros E. rewrite E in Hk.
  set (k := candidateKey (identityProvider abc) (te_element te)) in *.
  clearbody k. clear -Hk Ht.
  repeat (apply elem_of_cons in Ht as [->|Ht]);
    [| |inversion Ht];
    repeat (apply elem_of_cons in Hk as [Hk|Hk]; [discriminate|]);
    inversion Hk.
Qed.

Lemma setChildren_places_children_witness :
  indexed abc /\
  distinctKeys (identityProvider abc) [leaf 9; leaf 4] /\
  keysFree abc (Some 2) [leaf 9; leaf 4] /\
  getElementLocation abc (Some 2) = Ok [1] /\
  getElementLocation
    (setChildren abc (Some 2) (Some [leaf 9; leaf 4]) None None tt).2 (Some 4)
    = Ok ([1] ++ [1]) /\
  getParentNodeLocation
    (setChildren abc (Some 2) (Some [leaf 9; leaf 4]) None None tt).2 (Some 4)
    = Ok (Some 2).
Proof.
  assert (Hd : distinctKeys (identityProvider abc) [leaf 9; leaf 4]).
  { unfold distinctKeys. apply (bool_decide_unpack _). vm_compute. exact I. }
  assert (Hloc : getElementLocation abc (Some 2) = Ok [1])
    by (vm_compute; reflexivity).
  assert (Hset : setChildren abc (Some 2) (Some [leaf 9; leaf 4]) None None tt
            = (Ok tt, (setChildren abc (Some 2) (Some [leaf 9; leaf 4])
                         None None tt).2))
    by (vm_compute; reflexivity).
  assert (Hi : map te_element
                 (sortedDescriptions (sorter abc) (sequence (Some [leaf 9; leaf 4])))
               !! 1 = Some 4) by (vm_compute; reflexivity).
  split; [exact indexed_abc|]. split; [exact Hd|]. split; [exact keysFree_abc|].
  split; [exact Hloc|].
  exact (setChildren_places_children abc _ (Some 2) [1] (Some [leaf 9; leaf 4])
           None None tt tt 1 4 indexed_abc Hd keysFree_abc Hloc Hset Hi).
Defined.


(** ** Locations that a splice leaves alone *)

Lemma leadsBelow_cons (i : nat) (location p : list nat) :
  leadsBelow (i :: location) (i :: p) <-> leadsBelow location p.
Proof.
  split; intros (j & rest & E).
  - injection E as E. exists j, rest. exact E.
  - exists j, rest. cbn. rewrite E. reflexivity.
Qed.

Lemma descend_app (p q : list nat) (n : Node) :
  IndexTreeModel.descend (p ++ q) n =
  IndexTreeModel.descend p n ≫= IndexTreeModel.descend q.
Proof.
  revert n. induction p as [|i p IH]; intros n; cbn.
  - destruct (IndexTreeModel.descend q n); reflexivity.
  - destruct (children n !! i) as [c|]; cbn; [apply IH|reflexivity].
Qed.

(** A path that does not lead below the node whose children are replaced
    leads, after the splice, to the same node object, with its element and
    its collapse state. *)
Lemma descend_spliced (location : list nat) :
  forall (n0 parent : Node) (ins kids' deleted : list Node),
  IndexTreeModel.descend location n0 = Some parent ->
  IndexTreeModel.spliceAt (location ++ [0]) MAX_VALUE ins (children n0)
    = Some (kids', deleted) ->
  forall p x, ~ leadsBelow location p ->
    IndexTreeModel.descend p n0 = Some x ->
    exists x',
      IndexTreeModel.descend p (IndexTreeModel.withChildren n0 kids') = Some x' /\
      nodeState x' = nodeState x.
Proof.
  induction location as [|i rest IH]; intros n0 parent ins kids' deleted Hd Hsp p x Hp Hx.
  - destruct p as [|j q]; [|exfalso; apply Hp; exists j, q; reflexivity].
    cbn in Hx. injection Hx as <-. eexists. split; reflexivity.
  - cbn in Hd. destruct (children n0 !! i) as [c|] eqn:Ei; [|discriminate].
    cbn in Hd.
    change ((i :: rest) ++ [0]) with (i :: (rest ++ [0])) in Hsp.
    rewrite spliceAt_cons, Ei in Hsp by (destruct rest; discriminate).
    cbn [mbind option_bind] in Hsp.
    destruct (IndexTreeModel.spliceAt (rest ++ [0]) MAX_VALUE ins (children c))
      as [[k d]|] eqn:Ec; [|discriminate].
    cbn in Hsp. injection Hsp as <- <-.
    destruct p as [|j q].
    + cbn in Hx. injection Hx as <-. eexists. split; reflexivity.
    + cbn in Hx. cbn [IndexTreeModel.descend children IndexTreeModel.withChildren].
      destruct (decide (j = i)) as [->|Hne].
      * rewrite Ei in Hx. cbn in Hx.
        rewrite list_lookup_insert_eq by (eapply lookup_lt_Some, Ei). cbn.
        apply (IH c parent ins k d Hd Ec q x); [|exact Hx].
        intros H. apply Hp, leadsBelow_cons, H.
      * rewrite list_lookup_insert_ne by congruence.
        destruct (children n0 !! j) as [c'|]; [|discriminate]. cbn in *.
        exists x. split; [exact Hx|reflexivity].
Qed.

Lemma nodeAt_spliced (location : list nat) (kids ins kids' deleted : list Node)
    (parent : ITreeNode) (p : list nat) (x : Node) :
  IndexTreeModel.nodeAt location kids = Some parent ->
  IndexTreeModel.spliceAt (location ++ [0]) MAX_VALUE ins kids = Some (kids', deleted) ->
  ~ leadsBelow location p ->
  IndexTreeModel.nodeAt p kids = Some (ElementNode x) ->
  exists x',
    IndexTreeModel.nodeAt p kids' = Some (ElementNode x') /\
    nodeState x' = nodeState x.
Proof.
  intros Hat Hsp Hp Hx.
  set (n0 := mkNode 0 0 false false kids).
  assert (Hd : exists q, IndexTreeModel.descend location n0 = Some q).
  { destruct location as [|i rest]; [eexists; reflexivity|].
    cbn in Hat. cbn.
    destruct (kids !! i ≫= IndexTreeModel.descend rest) as [q|] eqn:E;
      [|discriminate].
    eauto. }
  destruct Hd as (q & Hd).
  destruct p as [|j r]; [discriminate|].
  assert (Hx' : IndexTreeModel.descend (j :: r) n0 = Some x).
  { cbn in Hx |- *.
    destruct (kids !! j ≫= IndexTreeModel.descend r) as [y|]; [|discriminate].
    injection Hx as ->. reflexivity. }
  destruct (descend_spliced location n0 q ins kids' deleted Hd Hsp (j :: r) x Hp Hx')
    as (x' & H1 & H2).
  exists x'. split; [|exact H2]. cbn in H1 |- *. rewrite H1. reflexivity.
Qed.

(** A node at a path that leads below a node is among the nodes below
    that node. *)
Lemma leadsBelow_below (location p : list nat) (kids : list Node)
    (parent : ITreeNode) (x : Node) :
  IndexTreeModel.nodeAt location kids = Some parent ->
  leadsBelow location p ->
  IndexTreeModel.nodeAt p kids = Some (ElementNode x) ->
  x ∈ flatten (node_children parent).
Proof.
  intros Hat (i & rest & ->) Hx.
  destruct location as [|j q].
  - cbn in Hat. injection Hat as <-. cbn in Hx. cbn.
    destruct (kids !! i ≫= IndexTreeModel.descend rest) as [y|] eqn:E; [|discriminate].
    injection Hx as ->. eapply lookup_descend_elem, E.
  - cbn in Hat, Hx.
    destruct (kids !! j) as [c|]; [|discriminate]. cbn in Hat, Hx.
    rewrite descend_app in Hx.
    destruct (IndexTreeModel.descend q c) as [pn|]; [|discriminate].
    injection Hat as <-. cbn in Hx. cbn.
    destruct (children pn !! i ≫= IndexTreeModel.descend rest) as [y|] eqn:E;
      [|discriminate].
    injection Hx as ->. eapply lookup_descend_elem, E.
Qed.

(** X20: no two elements of a well-formed model are at one location. *)
Theorem getElementLocation_injective (m : ObjectTreeModel) (a b : T)
    (la lb : list nat) :
  wellFormed m -> a <> b ->
  getElementLocation m (Some a) = Ok la ->
  getElementLocation m (Some b) = Ok lb ->
  la <> lb.
Proof.
  intros Hwf Hne Ha Hb <-.
  destruct (getElementLocation_node m (Some a) la Ha) as (node & Hat & _).
  pose proof (located_element m (Some a) la node Hwf Ha Hat) as E1.
  pose proof (located_element m (Some b) la node Hwf Hb Hat) as E2.
  congruence.
Qed.

Lemma getElementLocation_injective_witness :
  wellFormed stale /\ 15 <> 21 /\
  getElementLocation stale (Some 15) = Ok [1; 0] /\
  getElementLocation stale (Some 21) = Ok [1; 1] /\
  [1; 0] <> [1; 1].
Proof.
  assert (Hne : 15 <> 21) by lia.
  assert (Ha : getElementLocation stale (Some 15) = Ok [1; 0])
    by (vm_compute; reflexivity).
  assert (Hb : getElementLocation stale (Some 21) = Ok [1; 1])
    by (vm_compute; reflexivity).
  split; [exact (proj1 indexed_stale)|]. split; [exact Hne|].
  split; [exact Ha|]. split; [exact Hb|].
  exact (getElementLocation_injective stale 15 21 [1; 0] [1; 1]
           (proj1 indexed_stale) Hne Ha Hb).
Defined.


(** The entry of an element whose node stays in the tree and which the
    call does not describe is not touched. *)
Lemma kept_entry {K} `{Countable K} (key : Node -> K)
    (created deleted live : list Node) (t : gmap K nat) (n : Node) :
  NoDup (map nref live) -> covers key live t ->
  (forall d, d ∈ deleted -> d ∈ live) ->
  n ∈ live -> n ∉ deleted -> key n ∉ map key created ->
  updateTable key created deleted t !! key n = Some (nref n).
Proof.
  intros Hnd Hc Hdl Hn Hnot Hnew.
  destruct (lookup_updateTable key created deleted t (key n)) as [_ Hout].
  rewrite (Hout Hnew), decide_False; [apply Hc, Hn|].
  intros Hd. apply elem_of_map_inv in Hd as (d & Ed & Hd). apply Hnot.
  rewrite (covers_injective key _ _ n d Hnd Hc Hn (Hdl d Hd) Ed). exact Hd.
Qed.


(** ** Locations after a call *)

Lemma kept_location (m m' : ObjectTreeModel) (location : list nat)
    (node : ITreeNode) (kids created : list Node) (n : Node) :
  indexed m -> wellFormed m' ->
  IndexTreeModel.nodeAt location (IndexTreeModel.root (model m)) = Some node ->
  IndexTreeModel.spliceAt (location ++ [0]) MAX_VALUE created
    (IndexTreeModel.root (model m)) = Some (kids, node_children node) ->
  IndexTreeModel.root (model m') = kids ->
  nodes m' = updateTable elementKey (flat_map IndexTreeModel.postorder created)
               (flatten (node_children node)) (nodes m) ->
  n ∈ liveNodes m -> n ∉ flatten (node_children node) ->
  element n ∉ map element (flat_map IndexTreeModel.postorder created) ->
  exists p,
    getElementLocation m (Some (element n)) = Ok p /\
    getElementLocation m' (Some (element n)) = Ok p.
Proof.
  intros Hi Hwf' Hat Hsp Hroot Hnodes Hn Hnot Hnew.
  pose proof (proj1 (proj1 (proj1 Hi))) as Hnd.
  destruct Hi as (Hwf & Hc & _).
  assert (Hdl : forall d, d ∈ flatten (node_children node) -> d ∈ liveNodes m).
  { intros d. apply (nodeAt_children_live _ _ _ d Hat). }
  destruct (getNodeLocation_live (model m) n (proj1 Hwf) Hn) as (p & Hp & Hatn).
  exists p. split.
  { pose proof (Hc n Hn) as Hcn. unfold elementKey in Hcn.
    unfold getElementLocation. rewrite Hcn. exact Hp. }
  assert (Hnb : ~ leadsBelow location p).
  { intros Hl. apply Hnot.
    eapply leadsBelow_below; [exact Hat|exact Hl|exact Hatn]. }
  destruct (nodeAt_spliced _ _ _ _ _ _ _ _ Hat Hsp Hnb Hatn) as (n' & Hatn' & En).
  injection En as Eref _ _ _.
  assert (Hlive : n' ∈ liveNodes m').
  { unfold liveNodes. rewrite Hroot.
    destruct p as [|j r]; [discriminate|]. cbn in Hatn'.
    destruct (kids !! j ≫= IndexTreeModel.descend r) as [y|] eqn:Ey; [|discriminate].
    injection Hatn' as ->. eapply lookup_descend_elem, Ey. }
  destruct (getNodeLocation_live (model m') n' (proj1 Hwf') Hlive)
    as (p' & Hp' & Hatp').
  rewrite Hroot in Hatp'.
  assert (Ep : p' = p).
  { apply (nodeAt_unique kids p' p n' n'); auto.
    destruct Hwf' as ((Hnd' & _) & _). unfold liveNodes in Hnd'.
    rewrite Hroot in Hnd'. exact Hnd'. }
  subst p'.
  assert (Hentry : nodes m' !! Some (element n) = Some (nref n)).
  { rewrite Hnodes.
    apply (kept_entry elementKey _ _ (liveNodes m) (nodes m) n Hnd Hc Hdl Hn Hnot).
    intros Hk. apply elementKey_elem in Hk. exact (Hnew Hk). }
  unfold getElementLocation. rewrite Hentry, <- Eref. exact Hp'.
Qed.


(** X21: [setChildren] on one element does not move the rest of the tree:
    an element of an indexed model whose node is not below the element
    whose children are replaced, and which the call does not describe, is
    after the call at the location at which it was. *)
Theorem setChildren_keeps_locations {U : Type} (m m' : ObjectTreeModel)
    (parent : option T) (children : option (list ITreeElement))
    (onDidCreateNode onDidDeleteNode : option (ITreeNodeCallback U))
    (u u' : U) (n : Node) :
  indexed m ->
  setChildren m parent children onDidCreateNode onDidDeleteNode u = (Ok u', m') ->
  n ∈ liveNodes m -> n ∉ below m parent ->
  element n ∉ map te_element (te_flatten (sequence children)) ->
  exists location,
    getElementLocation m (Some (element n)) = Ok location /\
    getElementLocation m' (Some (element n)) = Ok location.
Proof.
  intros Hi Hset Hn Hnot Hnew.
  pose proof (wellFormed_setChildren _ _ _ _ _ _ _ _ (proj1 Hi) Hset) as Hwf'.
  destruct (setChildren_Ok _ _ _ _ _ _ _ _ Hset) as (location & Hloc).
  destruct (setChildren_spec m parent children onDidCreateNode onDidDeleteNode u
              location Hloc) as (node & kids & Hat & Hb & Hsp & _ & E).
  rewrite E in Hset. injection Hset as _ Hm'. rewrite Hb in Hnot.
  apply (kept_location m m' location node kids _ n Hi Hwf' Hat Hsp).
  - rewrite <- Hm'. reflexivity.
  - rewrite <- Hm'. cbn [nodes]. rewrite Hb. reflexivity.
  - exact Hn.
  - exact Hnot.
  - rewrite (created_elements m children onDidCreateNode u). exact Hnew.
Qed.

Lemma setChildren_keeps_locations_witness :
  indexed folded /\
  setChildren folded (Some 12) (Some [leaf 40; leaf 41]) None None tt
    = (Ok tt,
       (setChildren folded (Some 12) (Some [leaf 40; leaf 41]) None None tt).2) /\
  getElementLocation folded (Some 21) = Ok [1; 1] /\
  exists location,
    getElementLocation folded (Some (element (mkNode 3 21 false false [])))
      = Ok location /\
    getElementLocation
      (setChildren folded (Some 12) (Some [leaf 40; leaf 41]) None None tt).2
      (Some (element (mkNode 3 21 false false []))) = Ok location.
Proof.
  set (n := mkNode 3 21 false false []).
  assert (Hset : setChildren folded (Some 12) (Some [leaf 40; leaf 41]) None None tt
            = (Ok tt, (setChildren folded (Some 12) (Some [leaf 40; leaf 41])
                         None None tt).2))
    by (vm_compute; reflexivity).
  assert (Hn : n ∈ liveNodes folded) by (vm_compute; repeat constructor).
  assert (Hnot : n ∉ below folded (Some 12)).
  { intros H. vm_compute in H. inversion H. }
  assert (Hnew : element n ∉
            map te_element (te_flatten (sequence (Some [leaf 40; leaf 41])))).
  { intros H. vm_compute in H.
    repeat (apply elem_of_cons in H as [H|H]; [discriminate|]). inversion H. }
  split; [exact indexed_folded|]. split; [exact Hset|].
  split; [vm_compute; reflexivity|].
  exact (setChildren_keeps_locations folded _ (Some 12) (Some [leaf 40; leaf 41])
           None None tt tt n indexed_folded Hset Hn Hnot Hnew).
Defined.

(** ** A node is not below itself *)

Lemma elem_descend (n x : Node) :
  x ∈ subtree n -> exists q, IndexTreeModel.descend q n = Some x.
Proof.
  revert x. induction n as [r e c1 c2 kids IH] using Node_forall_ind.
  intros x Hx. rewrite subtree_eq in Hx. apply elem_of_cons in Hx as [->|Hx].
  - exists []. reflexivity.
  - cbn in Hx. apply elem_of_flatten in Hx as (c & Hc & Hx).
    rewrite Forall_forall in IH. destruct (IH c Hc x Hx) as (q & Hq).
    apply list_elem_of_lookup_1 in Hc as (i & Hi).
    exists (i :: q). cbn. rewrite Hi. exact Hq.
Qed.

Lemma nodeAt_app (location q : list nat) (kids : list Node) (n x : Node) :
  IndexTreeModel.nodeAt location kids = Some (ElementNode n) ->
  IndexTreeModel.descend q n = Some x ->
  IndexTreeModel.nodeAt (location ++ q) kids = Some (ElementNode x).
Proof.
  intros Hat Hq. destruct location as [|i rest]; [discriminate|].
  cbn in Hat |- *. destruct (kids !! i) as [c|]; [|discriminate]. cbn in Hat |- *.
  rewrite descend_app.
  destruct (IndexTreeModel.descend rest c) as [y|]; [|discriminate].
  injection Hat as ->. cbn. rewrite Hq. reflexivity.
Qed.

Lemma not_below_itself (location : list nat) (kids : list Node) (n : Node) :
  NoDup (map nref (flatten kids)) ->
  IndexTreeModel.nodeAt location kids = Some (ElementNode n) ->
  n ∉ flatten (children n).
Proof.
  intros Hnd Hat Hin.
  apply elem_of_flatten in Hin as (c & Hc & Hin).
  destruct (elem_descend c n Hin) as (q & Hq).
  apply list_elem_of_lookup_1 in Hc as (i & Hi).
  assert (Hq' : IndexTreeModel.descend (i :: q) n = Some n).
  { cbn. rewrite Hi. exact Hq. }
  pose proof (nodeAt_app location (i :: q) kids n n Hat Hq') as Hat'.
  pose proof (nodeAt_unique kids _ _ n n Hnd Hat' Hat eq_refl) as E.
  apply (f_equal length) in E. rewrite length_app in E. cbn in E. lia.
Qed.

(** ** Sorting what is sorted *)

Lemma nonDecreasing_map_inv {A B} (compare : B -> B -> Z) (f : A -> B)
    (l : list A) :
  nonDecreasing compare (map f l) ->
  nonDecreasing (fun a b => compare (f a) (f b)) l.
Proof.
  unfold nonDecreasing. induction l as [|a l IH]; intros H; [constructor|].
  cbn in H. inversion H as [|? ? Hs Hf]; subst. constructor; [apply IH, Hs|].
  rewrite List.Forall_forall in *. intros b Hb. apply Hf, in_map, Hb.
Qed.

Lemma array_sort_sorted_id {A} (compare : A -> A -> Z) (l : list A) :
  Consistent compare -> nonDecreasing compare l -> array_sort compare l = l.
Proof.
  intros Hc Hs. rewrite (array_sort_mergeSort compare Hc).
  apply (mergeSort_sorted_id compare Hc), Hs.
Qed.

Section SortedAlready.
Context {U : Type} (compare : T -> T -> Z).
Hypothesis Hconsistent : Consistent compare.

Lemma resortNodes_outline_with (kids : list Node) :
  nonDecreasing compare (map element kids) ->
  Forall (fun n =>
    le_outline (resortNode (U := U) (Some compare) true n) = node_outline n) kids ->
  map le_outline
    (sortWith (Some compare) array_sort
       (map (resortNode (U := U) (Some compare) true) kids))
  = map node_outline kids.
Proof.
  intros Hs Hall.
  pose proof (resort_level (U := U) compare true true kids) as E.
  cbn beta iota in E. rewrite E. unfold level.
  rewrite (array_sort_sorted_id (compareNodes compare) kids).
  - clear Hs E. induction Hall as [|n l Hn _ IH]; [reflexivity|].
    cbn. rewrite Hn, IH. reflexivity.
  - apply (Consistent_on compare element Hconsistent).
  - apply (nonDecreasing_map_inv compare element), Hs.
Qed.

Lemma resortNode_outline (n : Node) :
  (forall x, x ∈ subtree n -> nonDecreasing compare (map element (children x))) ->
  le_outline (resortNode (U := U) (Some compare) true n) = node_outline n.
Proof.
  induction n as [r e c1 c2 kids IH] using Node_forall_ind. intros Hs.
  rewrite le_outline_eq, node_outline_eq.
  cbn [resortNode le_element le_children element children]. f_equal.
  apply resortNodes_outline_with.
  - apply (Hs (mkNode r e c1 c2 kids)). rewrite subtree_eq. left.
  - rewrite Forall_forall in IH. apply Forall_forall. intros c Hc.
    apply (IH c Hc). intros x Hx. apply Hs. rewrite subtree_eq. right.
    cbn. eapply elem_of_flatten_child; eauto.
Qed.

(** The walk of [resort] over a tree that is in order yields the tree. *)
Lemma resortChildren_outline (node : ITreeNode) :
  nonDecreasing compare (map element (node_children node)) ->
  (forall x, x ∈ flatten (node_children node) ->
     nonDecreasing compare (map element (children x))) ->
  map le_outline (resortChildren (U := U) (Some compare) node true true)
    = map node_outline (node_children node).
Proof.
  intros Hs Hall. unfold resortChildren. cbn [orb].
  apply resortNodes_outline_with; [exact Hs|].
  apply Forall_forall. intros c Hc. apply resortNode_outline.
  intros x Hx. apply Hall. eapply elem_of_flatten_child; eauto.
Qed.
End SortedAlready.

(** [resort] does not move the element whose children it sorts. *)
Lemma resort_parent_location (m : ObjectTreeModel) (parent : option T)
    (recursive : bool) (location : list nat) :
  indexed m -> getElementLocation m parent = Ok location ->
  getElementLocation (resort m parent recursive).2 parent = Ok location.
Proof.
  intros Hi Hloc. destruct parent as [e|]; [|exact Hloc].
  destruct (sorter m) as [compare|] eqn:Hs;
    [|unfold resort; rewrite Hs; exact Hloc].
  destruct (resort_spec m compare (Some e) recursive location Hs Hloc)
    as (node & kids & Hat & Hb & Hsp & _ & E).
  pose proof (wellFormed_resort m _ (Some e) recursive _ (proj1 Hi)
                (surjective_pairing _)) as Hwf'.
  rewrite E in Hwf' |- *. cbn [snd] in Hwf' |- *.
  destruct (getElementLocation_node m (Some e) location Hloc) as (node' & Hat' & Hk).
  rewrite Hat in Hat'. injection Hat' as <-.
  destruct Hk as (n0 & -> & Hn0 & Hr).
  pose proof (located_element m (Some e) location _ (proj1 Hi) Hloc Hat) as He.
  cbn in He. injection He as He.
  pose proof (proj1 (proj1 (proj1 Hi))) as Hnd.
  assert (Hnot : n0 ∉ flatten (node_children (ElementNode n0))).
  { apply (not_below_itself location _ n0 Hnd Hat). }
  set (created := createdNodes m _ None tt) in *.
  assert (Hnew : element n0 ∉ map element (flat_map IndexTreeModel.postorder created)).
  { intros Hin. rewrite postorder_flatten in Hin. unfold created in Hin.
    rewrite createdNodes_elements, resortChildren_elements in Hin.
    apply elem_of_map_inv in Hin as (d & Ed & Hd). apply Hnot.
    pose proof (proj1 (proj2 Hi)) as Hc.
    assert (Hdl : d ∈ liveNodes m).
    { apply (nodeAt_children_live _ _ _ d Hat), Hd. }
    assert (Eq : n0 = d).
    { apply (covers_injective elementKey _ _ n0 d Hnd Hc Hn0 Hdl).
      unfold elementKey. rewrite Ed. reflexivity. }
    rewrite <- Eq in Hd. exact Hd. }
  destruct (kept_location m _ location (ElementNode n0) kids created n0 Hi Hwf' Hat Hsp
              eq_refl) as (p & H1 & H2).
  - cbn [nodes]. rewrite Hb. reflexivity.
  - exact Hn0.
  - exact Hnot.
  - exact Hnew.
  - rewrite He in H1, H2. rewrite Hloc in H1. injection H1 as <-. exact H2.
Qed.

(** X22: a recursive [resort] settles the order: in an indexed model with
    a consistent sorter, a second recursive [resort] of the same element
    leaves its children, and all that is below them, in the order in which
    the first has put them. *)
Theorem resort_settles (m : ObjectTreeModel) (compare : T -> T -> Z)
    (parent : option T) (location : list nat) :
  indexed m -> sorter m = Some compare -> Consistent compare ->
  getElementLocation m parent = Ok location ->
  exists m1 m2 node1 node2,
    resort m parent true = (Ok tt, m1) /\
    resort m1 parent true = (Ok tt, m2) /\
    IndexTreeModel.getNode (model m1) location = Ok node1 /\
    IndexTreeModel.getNode (model m2) location = Ok node2 /\
    map node_outline (node_children node2) = map node_outline (node_children node1).
Proof.
  intros Hi Hs Hc Hloc.
  pose proof (resort_parent_location m parent true location Hi Hloc) as Hloc1.
  destruct (resort_spec m compare parent true location Hs Hloc)
    as (node & kids & _ & _ & _ & Hat1 & E1).
  set (created := createdNodes m _ None tt) in *.
  rewrite E1 in Hloc1. cbn [snd] in Hloc1.
  set (m1 := mkObjectTreeModel _ _ _ _ _ _) in *.
  assert (Hs1 : sorter m1 = Some compare) by exact Hs.
  destruct (resort_spec m1 compare parent true location Hs1 Hloc1)
    as (node' & kids2 & Hat' & _ & _ & Hat2 & E2).
  assert (En : node' = withKids node created).
  { cbn in Hat'. rewrite Hat1 in Hat'. injection Hat' as <-. reflexivity. }
  eexists m1, _, (withKids node created), _.
  split; [exact E1|]. split; [exact E2|].
  split.
  { unfold IndexTreeModel.getNode, m1.
    cbn [model IndexTreeModel.spliced IndexTreeModel.root].
    rewrite Hat1. reflexivity. }
  split.
  { unfold IndexTreeModel.getNode.
    cbn [model IndexTreeModel.spliced IndexTreeModel.root].
    rewrite Hat2. reflexivity. }
  rewrite (node_children_withKids node'), createdNodes_outline, Hs1, En.
  apply (resortChildren_outline compare Hc (withKids node created));
    rewrite node_children_withKids.
  - unfold created. rewrite createdNodes_top, Hs, resortChildren_first,
      resortNode_element.
    apply (sorted_elements compare Hc).
  - intros x Hx. unfold created, createdNodes in Hx.
    assert (H : exists le',
              le' ∈ le_flatten (resortChildren (U := unit) (sorter m) node true true) /\
              map element (children x) = map le_element (le_children le')).
    { destruct (IndexTreeModel.order (model m));
        eapply createTreeNodes_children, Hx. }
    destruct H as (le' & H1 & ->). rewrite Hs in H1.
    pose proof (resortChildren_sorted (U := unit) compare Hc node) as Hall.
    rewrite Forall_forall in Hall. apply Hall, H1.
Qed.

Lemma resort_settles_witness :
  indexed stale /\ sorter stale = Some byUnits /\ Consistent byUnits /\
  getElementLocation stale None = Ok [] /\
  map node_outline (IndexTreeModel.root (model stale))
    = [outline 12 []; outline 30 [outline 15 []; outline 21 []]] /\
  map node_outline (IndexTreeModel.root (model (resort stale None true).2))
    = [outline 30 [outline 21 []; outline 15 []]; outline 12 []] /\
  exists m1 m2 node1 node2,
    resort stale None true = (Ok tt, m1) /\
    resort m1 None true = (Ok tt, m2) /\
    IndexTreeModel.getNode (model m1) [] = Ok node1 /\
    IndexTreeModel.getNode (model m2) [] = Ok node2 /\
    map node_outline (node_children node2) = map node_outline (node_children node1).
Proof.
  assert (Hs : sorter stale = Some byUnits) by (vm_compute; reflexivity).
  assert (Hloc : getElementLocation stale None = Ok []) by (vm_compute; reflexivity).
  split; [exact indexed_stale|]. split; [exact Hs|].
  split; [exact byUnits_consistent|]. split; [exact Hloc|].
  split; [vm_compute; reflexivity|]. split; [vm_compute; reflexivity|].
  exact (resort_settles stale byUnits None [] indexed_stale Hs byUnits_consistent Hloc).
Defined.
